(** * YourMusicSucks music bot: the per-guild playback engine of [bot.py]

    A shallow embedding of the playback orchestration code of [src/bot.py]:
    the Spotify catalog expander, the song resolver with its SoundCloud
    fallback, the voice-connection manager, the idle-disconnect scheduler,
    the playback driver [play_next] and the slash-command handlers.

    Conventions.
    - Python [str] is [string]; [lower] and [strip] act on ASCII.
    - A raised exception is the [Raise] case of [result]; the exception
      classes that the code distinguishes are the constructors of [exn].
    - External collaborators (spotipy, yt-dlp, the oEmbed endpoint, ffmpeg,
      the Discord gateway) are Section variables: every theorem holds for
      whatever they answer.
    - One guild is modelled; [get_player guild.id] is its [GuildPlayer],
      which starts out as [GuildPlayer()] does. *)

From Stdlib Require Import String Ascii List Bool Arith PeanoNat Lia ZArith.
Import ListNotations.
Local Open Scope list_scope.
Local Open Scope string_scope.
Local Open Scope nat_scope.

Set Implicit Arguments.

(* ===================================================================== *)
(** * Python values: exceptions, results, strings *)
(* ===================================================================== *)

(** The exception classes that [bot.py] raises or catches. [DownloadError]
    is yt-dlp's; [OtherException] stands for any other subclass of
    [Exception] thrown by a library. *)
Inductive exn : Type :=
| RuntimeError (msg : string)
| ValueError (msg : string)
| TypeError (msg : string)
| DownloadError (msg : string)
| OtherException (msg : string).

(** [str(exc)] *)
Definition exn_str (e : exn) : string :=
  match e with
  | RuntimeError m | ValueError m | TypeError m
  | DownloadError m | OtherException m => m
  end.

Inductive result (A : Type) : Type :=
| Ok (a : A)
| Raise (e : exn).
Arguments Ok {A} a.
Arguments Raise {A} e.

Module PyStr.

Definition is_upper (c : ascii) : bool :=
  let n := nat_of_ascii c in (65 <=? n) && (n <=? 90).

Definition is_alnum (c : ascii) : bool :=
  let n := nat_of_ascii c in
  ((48 <=? n) && (n <=? 57)) || ((65 <=? n) && (n <=? 90))
  || ((97 <=? n) && (n <=? 122)).

(** whitespace removed by [str.strip()]: space, \t \n \v \f \r and the
    separators 0x1c..0x1f *)
Definition is_space (c : ascii) : bool :=
  let n := nat_of_ascii c in
  (n =? 32) || ((9 <=? n) && (n <=? 13)) || ((28 <=? n) && (n <=? 31)).

Definition lower_char (c : ascii) : ascii :=
  if is_upper c then ascii_of_nat (nat_of_ascii c + 32) else c.

(** [s.lower()] *)
Fixpoint lower (s : string) : string :=
  match s with
  | EmptyString => EmptyString
  | String c r => String (lower_char c) (lower r)
  end.

(** [s.startswith(p)] *)
Fixpoint startswith (p s : string) : bool :=
  match p, s with
  | EmptyString, _ => true
  | String a p', String b s' => Ascii.eqb a b && startswith p' s'
  | String _ _, EmptyString => false
  end.

(** [p in s] *)
Fixpoint contains (p s : string) : bool :=
  startswith p s ||
  match s with
  | EmptyString => false
  | String _ s' => contains p s'
  end.

(** the rest of [s] after the prefix [p], when [s] starts with [p] *)
Fixpoint drop_prefix (p s : string) : option string :=
  match p, s with
  | EmptyString, _ => Some s
  | String a p', String b s' =>
      if Ascii.eqb a b then drop_prefix p' s' else None
  | String _ _, EmptyString => None
  end.

Fixpoint lstrip (s : string) : string :=
  match s with
  | EmptyString => EmptyString
  | String c r => if is_space c then lstrip r else s
  end.

Fixpoint rstrip (s : string) : string :=
  match s with
  | EmptyString => EmptyString
  | String c r =>
      match rstrip r with
      | EmptyString => if is_space c then EmptyString else String c EmptyString
      | r' => String c r'
      end
  end.

(** [s.strip()] *)
Definition strip (s : string) : string := rstrip (lstrip s).

(** [sep.join(parts)] *)
Fixpoint join (sep : string) (parts : list string) : string :=
  match parts with
  | [] => EmptyString
  | [p] => p
  | p :: rest => p ++ sep ++ join sep rest
  end.

(** the longest prefix of [s] whose characters satisfy [f] *)
Fixpoint take_while (f : ascii -> bool) (s : string) : string :=
  match s with
  | EmptyString => EmptyString
  | String c r => if f c then String c (take_while f r) else EmptyString
  end.

(** truthiness of a [str] *)
Definition truthy (s : string) : bool :=
  match s with EmptyString => false | _ => true end.

(** truthiness of an [Optional[str]] *)
Definition otruthy (o : option string) : bool :=
  match o with Some s => truthy s | None => false end.

(** [str(n)] for a non-negative integer *)
Fixpoint digits (fuel n : nat) (acc : string) : string :=
  match fuel with
  | 0 => acc
  | S f =>
      let acc' := String (ascii_of_nat (48 + n mod 10)) acc in
      if n / 10 =? 0 then acc' else digits f (n / 10) acc'
  end.
Definition of_nat (n : nat) : string := digits (S n) n EmptyString.

Definition newline : string := String (ascii_of_nat 10) EmptyString.

End PyStr.

(* ===================================================================== *)
(** * Constants of the module *)
(* ===================================================================== *)

Definition MAX_SPOTIFY_TRACKS : nat := 25.
Definition IDLE_TIMEOUT_SECONDS : nat := 60 * 60.

(* ===================================================================== *)
(** * Catalog expander: [parse_spotify_url], [spotify_queries_from_url] *)
(* ===================================================================== *)

Module Spotify.

Inductive kind : Type := KTrack | KAlbum | KPlaylist.

Definition kind_str (k : kind) : string :=
  match k with
  | KTrack => "track" | KAlbum => "album" | KPlaylist => "playlist"
  end.

(** the alternatives of the pattern at one position, in the order the
    regular expression lists them, then [/] and a greedy, non-empty run of
    [[A-Za-z0-9]] *)
Definition match_kind (k : kind) (s : string) : option (kind * string) :=
  match PyStr.drop_prefix (kind_str k ++ "/") s with
  | None => None
  | Some r =>
      let id := PyStr.take_while PyStr.is_alnum r in
      if PyStr.truthy id then Some (k, id) else None
  end.

Definition match_here (s : string) : option (kind * string) :=
  match PyStr.drop_prefix "open.spotify.com/" s with
  | None => None
  | Some r =>
      match match_kind KTrack r with
      | Some m => Some m
      | None =>
          match match_kind KAlbum r with
          | Some m => Some m
          | None => match_kind KPlaylist r
          end
      end
  end.

(** [re.search(r"open\.spotify\.com/(track|album|playlist)/([A-Za-z0-9]+)", url)]:
    the leftmost position at which the pattern matches *)
Fixpoint re_search (url : string) : option (kind * string) :=
  match match_here url with
  | Some m => Some m
  | None =>
      match url with
      | EmptyString => None
      | String _ r => re_search r
      end
  end.

Definition parse_spotify_url (url : string) : result (kind * string) :=
  match re_search url with
  | None =>
      Raise (RuntimeError
               "Unsupported Spotify URL. Use track, album, or playlist links.")
  | Some m => Ok m
  end.

(** ** The JSON objects the catalog API returns

    [None] in an [option] position is a JSON [null], a missing key or an
    empty object: the code tests all of them with [or] and truthiness. *)
Record Artist : Type := { artist_name : option string }.

Record Track : Type := {
  track_name : option string;
  track_artists : option (list (option Artist))
}.

(** an entry of a playlist page: [{"track": ...}] *)
Record Item : Type := { item_track : option Track }.

Record Page (A : Type) : Type := {
  page_items : list A;          (* [page.get("items", [])] *)
  page_next : option string     (* [page.get("next")] *)
}.

(** the [name] of the artists that have one, for [", ".join([...])] *)
Fixpoint artist_names (artists : list (option Artist)) : list string :=
  match artists with
  | [] => []
  | Some a :: rest =>
      match artist_name a with
      | Some n => if PyStr.truthy n then n :: artist_names rest
                  else artist_names rest
      | None => artist_names rest
      end
  | None :: rest => artist_names rest
  end.

(** [_to_query] *)
Definition _to_query (track : option Track) : option string :=
  let name := match track with Some t => track_name t | None => None end in
  let artists :=
    match track with
    | Some t => match track_artists t with Some l => l | None => [] end
    | None => []
    end in
  let names := PyStr.strip (PyStr.join ", " (artist_names artists)) in
  match name with
  | None => None
  | Some n =>
      if PyStr.truthy n then Some (PyStr.strip (n ++ " " ++ names)) else None
  end.

Definition MissingCredentials : exn :=
  RuntimeError
    "Spotify is not configured. Set SPOTIFY_CLIENT_ID and SPOTIFY_CLIENT_SECRET in .env.".

Definition NoPlayableTracks : exn :=
  RuntimeError "No playable tracks found in that Spotify link.".

(** [get_spotify_client] with the module global [spotify_client] passed
    in and out: [cached] tells whether a client was already built. *)
Definition get_spotify_client (client_id client_secret : option string)
    (cached : bool) : result unit * bool :=
  if cached then (Ok tt, true)
  else if negb (PyStr.otruthy client_id) || negb (PyStr.otruthy client_secret)
       then (Raise MissingCredentials, false)
       else (Ok tt, true).

Section Expander.

(** the spotipy client: [sp.track], [sp.album_tracks(id, limit, offset)]
    and [sp.playlist_items(id, limit, offset, fields)] *)
Variable sp_track : string -> result (option Track).
Variable sp_album_tracks : string -> nat -> nat -> result (Page (option Track)).
Variable sp_playlist_items : string -> nat -> nat -> result (Page (option Item)).

(** [if query: queries.append(query)] *)
Definition add_query (query : option string) (queries : list string)
  : list string :=
  match query with
  | Some q => if PyStr.truthy q then (queries ++ [q])%list else queries
  | None => queries
  end.

(** the [for ... in items] loop of one page, with its [break] *)
Fixpoint scan_items (A : Type) (track_of : A -> option Track)
    (items : list A) (queries : list string) : list string :=
  match items with
  | [] => queries
  | it :: rest =>
      let queries' := add_query (_to_query (track_of it)) queries in
      if MAX_SPOTIFY_TRACKS <=? length queries' then queries'
      else scan_items track_of rest queries'
  end.

(** the [while len(queries) < MAX_SPOTIFY_TRACKS] loop; [fuel] bounds
    the number of pages requested, [None] is fuel exhausted *)
Fixpoint page_loop (A : Type) (fetch : nat -> result (Page A))
    (track_of : A -> option Track) (step : nat)
    (fuel offset : nat) (queries : list string)
  : option (result (list string)) :=
  match fuel with
  | 0 => None
  | S fuel' =>
      if length queries <? MAX_SPOTIFY_TRACKS then
        match fetch offset with
        | Raise e => Some (Raise e)
        | Ok page =>
            match page_items page with
            | [] => Some (Ok queries)
            | items =>
                let queries' := scan_items track_of items queries in
                if PyStr.otruthy (page_next page)
                then page_loop fetch track_of step fuel' (offset + step) queries'
                else Some (Ok queries')
            end
        end
      else Some (Ok queries)
  end.

Definition album_track (t : option Track) : option Track := t.

(** [(item or {}).get("track")] *)
Definition playlist_track (it : option Item) : option Track :=
  match it with Some i => item_track i | None => None end.

(** the three branches on [kind] *)
Definition collect_queries (fuel : nat) (k : kind) (resource_id : string)
  : option (result (list string)) :=
  match k with
  | KTrack =>
      match sp_track resource_id with
      | Raise e => Some (Raise e)
      | Ok track => Some (Ok (add_query (_to_query track) []))
      end
  | KAlbum =>
      page_loop (fun off => sp_album_tracks resource_id 50 off)
                album_track 50 fuel 0 []
  | KPlaylist =>
      page_loop (fun off => sp_playlist_items resource_id 100 off)
                playlist_track 100 fuel 0 []
  end.

(** the body of [spotify_queries_from_url] once [sp] is in hand *)
Definition queries_with_client (fuel : nat) (url : string)
  : option (result (list string)) :=
  match parse_spotify_url url with
  | Raise e => Some (Raise e)
  | Ok (k, resource_id) =>
      match collect_queries fuel k resource_id with
      | None => None
      | Some (Raise e) => Some (Raise e)
      | Some (Ok []) => Some (Raise NoPlayableTracks)
      | Some (Ok queries) => Some (Ok queries)
      end
  end.

(** the environment variables [SPOTIFY_CLIENT_ID], [SPOTIFY_CLIENT_SECRET] *)
Variable SPOTIFY_CLIENT_ID SPOTIFY_CLIENT_SECRET : option string.

(** [spotify_queries_from_url]; the second component is the module
    global [spotify_client] (is a client cached?) after the call *)
Definition spotify_queries_from_url (cached : bool) (fuel : nat)
    (url : string) : option (result (list string)) * bool :=
  match get_spotify_client SPOTIFY_CLIENT_ID SPOTIFY_CLIENT_SECRET cached with
  | (Raise e, c) => (Some (Raise e), c)
  | (Ok _, c) => (queries_with_client fuel url, c)
  end.

End Expander.

(** ** A finite catalog served page by page

    The Web API's paging object over a catalog of finitely many entries:
    [items] is the slice [offset, offset+limit) and [next] is present
    exactly when entries remain after the slice. *)
Definition paged (A : Type) (catalog : list A) (limit offset : nat) : Page A :=
  {| page_items := firstn limit (skipn offset catalog);
     page_next := if offset + limit <? length catalog
                  then Some "next" else None |}.

Definition serve_playlist (catalog : list (option Item))
    (resource_id : string) (limit offset : nat)
  : result (Page (option Item)) :=
  Ok (paged catalog limit offset).

Definition serve_album (catalog : list (option Track))
    (resource_id : string) (limit offset : nat)
  : result (Page (option Track)) :=
  Ok (paged catalog limit offset).

Definition no_track (resource_id : string) : result (option Track) :=
  Ok None.

(** the queries of the entries that have a usable title, in catalog order *)
Definition queries_of (A : Type) (track_of : A -> option Track)
    (catalog : list A) : list string :=
  flat_map (fun it => add_query (_to_query (track_of it)) []) catalog.

(** does the entry have a title that makes a non-empty query? *)
Definition usable (A : Type) (track_of : A -> option Track) (it : A) : bool :=
  PyStr.otruthy (_to_query (track_of it)).

End Spotify.

(* ===================================================================== *)
(** * Song resolver: [extract_song] *)
(* ===================================================================== *)

Record Song : Type := {
  title : string;
  stream_url : string;
  webpage_url : string;
  requester_id : Z
}.

Module Resolver.

(** the keys of a yt-dlp info dict that [extract_song] reads. For
    ["url"], read with [info.get("url")] and tested for truth, [None] is a
    missing key or a null value alike. For ["title"] and ["webpage_url"],
    read with a default, [None] is a missing key; a key that is present
    holds a string (a null title or page URL is not covered). *)
Record Info : Type := {
  info_url : option string;
  info_title : option string;
  info_webpage_url : option string
}.

(** what [ydl.extract_info] returns: a single result, or a dict with
    ["entries"] (a falsy entry is [None]) *)
Inductive YdlInfo : Type :=
| Single (info : Info)
| Entries (entries : list (option Info)).

(** [YDL_OPTIONS] (YouTube) and [SC_YDL_OPTIONS] (SoundCloud search) *)
Inductive options : Type := YDL_OPTIONS | SC_YDL_OPTIONS.

Definition DrmProtected : exn :=
  RuntimeError "This video is DRM-protected and cannot be played.".
Definition PlatformBlocked : exn :=
  RuntimeError "YouTube blocked this request. Try another video.".
Definition ExtractionFailed : exn :=
  RuntimeError "Failed to fetch audio from YouTube.".
Definition NoStreamFound : exn :=
  ValueError "Could not get audio stream URL.".

(** the [except DownloadError as exc] clause *)
Definition classify (exc_str : string) : exn :=
  let msg := PyStr.lower exc_str in
  if PyStr.contains "drm" msg then DrmProtected
  else if PyStr.contains "sign in to confirm" msg then PlatformBlocked
  else ExtractionFailed.

Fixpoint truthy_entries (entries : list (option Info)) : list Info :=
  match entries with
  | [] => []
  | Some i :: rest => i :: truthy_entries rest
  | None :: rest => truthy_entries rest
  end.

Section Extract.

(** [yt_dlp.YoutubeDL(options).extract_info(query, download=False)];
    [Ok None] is a [None] return value *)
Variable extract_info : options -> string -> result (option YdlInfo).

(** the oEmbed request for a URL: the ["title"] of the decoded payload
    when it is a [str], [Ok None] when it is absent or not a [str],
    [Raise] when the request or the decoding fails *)
Variable oembed_title_of : string -> result (option string).

Definition _extract_with_options (local_query : string) (opts : options)
  : result Info :=
  match extract_info opts local_query with
  | Raise (DownloadError m) => Raise (classify m)
  | Raise e => Raise e
  | Ok None => Raise (TypeError "argument of type 'NoneType' is not iterable")
  | Ok (Some (Single info)) => Ok info
  | Ok (Some (Entries entries)) =>
      match truthy_entries entries with
      | [] => Raise (ValueError "No results found.")
      | info :: _ => Ok info
      end
  end.

Definition _youtube_oembed_title (url : string) : option string :=
  if negb (PyStr.contains "youtube.com" url)
     && negb (PyStr.contains "youtu.be" url)
  then None
  else match oembed_title_of url with
       | Raise _ => None
       | Ok None => None
       | Ok (Some t) =>
           if PyStr.truthy (PyStr.strip t) then Some (PyStr.strip t) else None
       end.

(** the query of the SoundCloud attempt *)
Definition sc_query_of (query : string) : string :=
  if PyStr.startswith "http" (PyStr.lower query) then
    match _youtube_oembed_title query with
    | Some t => if PyStr.truthy t then "scsearch1:" ++ t
                else "scsearch1:" ++ query
    | None => "scsearch1:" ++ query
    end
  else "scsearch1:" ++ query.

Definition _extract (query : string) : result Info :=
  match _extract_with_options query YDL_OPTIONS with
  | Ok info => Ok info
  | Raise yt_exc =>
      match _extract_with_options (sc_query_of query) SC_YDL_OPTIONS with
      | Ok info => Ok info
      | Raise _ => Raise yt_exc
      end
  end.

Definition extract_song (query : string) : result Song :=
  match _extract query with
  | Raise e => Raise e
  | Ok info =>
      if PyStr.otruthy (info_url info) then
        Ok {| title := match info_title info with
                       | Some t => t | None => "Unknown title" end;
              stream_url := match info_url info with
                            | Some u => u | None => "" end;
              webpage_url := match info_webpage_url info with
                             | Some u => u | None => query end;
              requester_id := 0%Z |}
      else Raise NoStreamFound
  end.

End Extract.

End Resolver.

(* ===================================================================== *)
(** * Guild state *)
(* ===================================================================== *)

Record Channel : Type := { channel_id : nat; channel_name : string }.

(** [a != b] on channels compares their ids *)
Definition channel_eqb (a b : Channel) : bool := channel_id a =? channel_id b.

(** what the voice client's audio player is doing *)
Inductive Audio : Type :=
| Silent
| Streaming (source : string)
| Paused (source : string).

Record VoiceClient : Type := {
  vc_channel : Channel;
  vc_connected : bool;
  vc_audio : Audio
}.

Definition is_connected (vc : VoiceClient) : bool := vc_connected vc.
Definition is_playing (vc : VoiceClient) : bool :=
  match vc_audio vc with Streaming _ => true | _ => false end.
Definition is_paused (vc : VoiceClient) : bool :=
  match vc_audio vc with Paused _ => true | _ => false end.

(** an [asyncio.Task] running [_idle_disconnect] *)
Inductive TaskStatus : Type := Pending | Cancelled | Finished.

Record IdleTask : Type := { task_deadline : nat; task_status : TaskStatus }.

(** [task.done()] *)
Definition done (t : IdleTask) : bool :=
  match task_status t with Pending => false | _ => true end.

(** what an observer of the guild can see happen, in order *)
Inductive LogEntry : Type :=
| Enqueued (s : Song)            (* [player.queue.append(song)] *)
| BecameNowPlaying (s : Song)    (* [player.now_playing = song] *)
| Started (s : Song)             (* [voice_client.play(source, ...)] *)
| Disconnected.                  (* [vc.disconnect()] *)

(** The guild, its [GuildPlayer] and the part of the event loop that the
    player uses. [voice_lock] is taken and released inside [ensure_voice],
    which runs here as one step, so it has no field. *)
Record World : Type := {
  voice_client : option VoiceClient;  (* [guild.voice_client] *)
  queue : list Song;                  (* [player.queue] *)
  now_playing : option Song;          (* [player.now_playing] *)
  idle_task : option nat;             (* [player.idle_task], a key of [tasks] *)
  lock_locked : bool;                 (* [player.lock.locked()] *)
  tasks : list IdleTask;              (* the idle tasks ever created *)
  clock : nat;                        (* seconds on the loop's clock *)
  callbacks : nat;                    (* [_after_playback] calls not yet run *)
  spotify_client : bool;              (* is the module global set? *)
  log : list LogEntry
}.

(** no voice connection, a fresh [GuildPlayer()] *)
Definition init : World :=
  {| voice_client := None; queue := []; now_playing := None;
     idle_task := None; lock_locked := false; tasks := []; clock := 0;
     callbacks := 0; spotify_client := false; log := [] |}.

Definition set_voice_client (v : option VoiceClient) (w : World) : World :=
  {| voice_client := v; queue := queue w; now_playing := now_playing w;
     idle_task := idle_task w; lock_locked := lock_locked w; tasks := tasks w;
     clock := clock w; callbacks := callbacks w;
     spotify_client := spotify_client w; log := log w |}.

Definition set_queue (q : list Song) (w : World) : World :=
  {| voice_client := voice_client w; queue := q; now_playing := now_playing w;
     idle_task := idle_task w; lock_locked := lock_locked w; tasks := tasks w;
     clock := clock w; callbacks := callbacks w;
     spotify_client := spotify_client w; log := log w |}.

Definition set_now_playing (s : option Song) (w : World) : World :=
  {| voice_client := voice_client w; queue := queue w; now_playing := s;
     idle_task := idle_task w; lock_locked := lock_locked w; tasks := tasks w;
     clock := clock w; callbacks := callbacks w;
     spotify_client := spotify_client w; log := log w |}.

Definition set_idle_task (t : option nat) (w : World) : World :=
  {| voice_client := voice_client w; queue := queue w;
     now_playing := now_playing w; idle_task := t;
     lock_locked := lock_locked w; tasks := tasks w;
     clock := clock w; callbacks := callbacks w;
     spotify_client := spotify_client w; log := log w |}.

Definition set_lock (b : bool) (w : World) : World :=
  {| voice_client := voice_client w; queue := queue w;
     now_playing := now_playing w; idle_task := idle_task w;
     lock_locked := b; tasks := tasks w;
     clock := clock w; callbacks := callbacks w;
     spotify_client := spotify_client w; log := log w |}.

Definition set_tasks (ts : list IdleTask) (w : World) : World :=
  {| voice_client := voice_client w; queue := queue w;
     now_playing := now_playing w; idle_task := idle_task w;
     lock_locked := lock_locked w; tasks := ts;
     clock := clock w; callbacks := callbacks w;
     spotify_client := spotify_client w; log := log w |}.

Definition set_clock (t : nat) (w : World) : World :=
  {| voice_client := voice_client w; queue := queue w;
     now_playing := now_playing w; idle_task := idle_task w;
     lock_locked := lock_locked w; tasks := tasks w;
     clock := t; callbacks := callbacks w;
     spotify_client := spotify_client w; log := log w |}.

Definition set_callbacks (n : nat) (w : World) : World :=
  {| voice_client := voice_client w; queue := queue w;
     now_playing := now_playing w; idle_task := idle_task w;
     lock_locked := lock_locked w; tasks := tasks w;
     clock := clock w; callbacks := n;
     spotify_client := spotify_client w; log := log w |}.

Definition set_spotify_client (b : bool) (w : World) : World :=
  {| voice_client := voice_client w; queue := queue w;
     now_playing := now_playing w; idle_task := idle_task w;
     lock_locked := lock_locked w; tasks := tasks w;
     clock := clock w; callbacks := callbacks w;
     spotify_client := b; log := log w |}.

Definition record (e : LogEntry) (w : World) : World :=
  {| voice_client := voice_client w; queue := queue w;
     now_playing := now_playing w; idle_task := idle_task w;
     lock_locked := lock_locked w; tasks := tasks w;
     clock := clock w; callbacks := callbacks w;
     spotify_client := spotify_client w; log := (log w ++ [e])%list |}.

(* ===================================================================== *)
(** * Outcomes of a coroutine *)
(* ===================================================================== *)

(** A coroutine run from a world returns, raises, or never completes
    because it waits for [player.lock]; [OutOfFuel] is the model's own
    case, for the two loops that recurse on fuel. *)
Inductive outcome (A : Type) : Type :=
| Returned (a : A) (w : World)
| Raised (e : exn) (w : World)
| Suspended (w : World)
| OutOfFuel (w : World).
Arguments Returned {A} a w.
Arguments Raised {A} e w.
Arguments Suspended {A} w.
Arguments OutOfFuel {A} w.

Definition world_of (A : Type) (o : outcome A) : World :=
  match o with
  | Returned _ w | Raised _ w | Suspended w | OutOfFuel w => w
  end.

Definition bind (A B : Type) (o : outcome A) (k : A -> World -> outcome B)
  : outcome B :=
  match o with
  | Returned a w => k a w
  | Raised e w => Raised e w
  | Suspended w => Suspended w
  | OutOfFuel w => OutOfFuel w
  end.

(** [try: ... except Exception as exc: ...] *)
Definition catch (A : Type) (o : outcome A) (h : exn -> World -> outcome A)
  : outcome A :=
  match o with
  | Raised e w => h e w
  | _ => o
  end.

(** leaving [async with player.lock], by return or by exception *)
Definition release (A : Type) (o : outcome A) : outcome A :=
  match o with
  | Returned a w => Returned a (set_lock false w)
  | Raised e w => Raised e (set_lock false w)
  | Suspended w => Suspended w
  | OutOfFuel w => OutOfFuel w
  end.

(* ===================================================================== *)
(** * The voice client, as discord.py behaves *)
(* ===================================================================== *)

Definition with_audio (a : Audio) (vc : VoiceClient) : VoiceClient :=
  {| vc_channel := vc_channel vc; vc_connected := vc_connected vc;
     vc_audio := a |}.

Definition with_channel (c : Channel) (vc : VoiceClient) : VoiceClient :=
  {| vc_channel := c; vc_connected := vc_connected vc;
     vc_audio := vc_audio vc |}.

Definition with_connected (b : bool) (vc : VoiceClient) : VoiceClient :=
  {| vc_channel := vc_channel vc; vc_connected := b;
     vc_audio := vc_audio vc |}.

(** [vc.stop()]: the player, if any, ends, and its [after] callback will
    be called *)
Definition vc_stop (w : World) : World :=
  match voice_client w with
  | Some vc =>
      match vc_audio vc with
      | Silent => w
      | _ => set_callbacks (S (callbacks w))
               (set_voice_client (Some (with_audio Silent vc)) w)
      end
  | None => w
  end.

(** [await vc.disconnect()]: stops the player and unregisters the client
    from the guild *)
Definition vc_disconnect (w : World) : World :=
  match voice_client w with
  | Some _ => record Disconnected (set_voice_client None (vc_stop w))
  | None => w
  end.

(** [await vc.move_to(channel)] *)
Definition vc_move_to (c : Channel) (w : World) : World :=
  match voice_client w with
  | Some vc => set_voice_client (Some (with_channel c vc)) w
  | None => w
  end.

(** [vc.play(source, after=_after_playback)] *)
Definition vc_play (song : Song) (w : World) : outcome unit :=
  match voice_client w with
  | Some vc =>
      if negb (is_connected vc)
      then Raised (OtherException "Not connected to voice.") w
      else if is_playing vc
      then Raised (OtherException "Already playing audio.") w
      else Returned tt
             (record (Started song)
                (set_voice_client
                   (Some (with_audio (Streaming (stream_url song)) vc)) w))
  | None => Raised (OtherException "Not connected to voice.") w
  end.

(* ===================================================================== *)
(** * Idle-disconnect scheduler *)
(* ===================================================================== *)

Fixpoint update_nth (A : Type) (n : nat) (f : A -> A) (l : list A) : list A :=
  match l, n with
  | [], _ => []
  | x :: r, 0 => f x :: r
  | x :: r, S n' => x :: update_nth n' f r
  end.

Definition with_status (st : TaskStatus) (t : IdleTask) : IdleTask :=
  {| task_deadline := task_deadline t; task_status := st |}.

(** [task.cancel()] on a task that is not done *)
Definition cancel_task (t : IdleTask) : IdleTask :=
  if done t then t else with_status Cancelled t.

Definition cancel_idle_disconnect (w : World) : World :=
  set_idle_task None
    match idle_task w with
    | Some id => set_tasks (update_nth id cancel_task (tasks w)) w
    | None => w
    end.

(** the body of [_idle_disconnect] after the sleep *)
Definition _idle_disconnect (w : World) : World :=
  match voice_client w with
  | Some vc =>
      if is_connected vc && negb (is_playing vc) && negb (is_paused vc)
         && match queue w with [] => true | _ => false end
      then set_now_playing None (vc_disconnect w)
      else w
  | None => w
  end.

Definition schedule_idle_disconnect (w : World) : World :=
  let w := cancel_idle_disconnect w in
  let task := {| task_deadline := clock w + IDLE_TIMEOUT_SECONDS;
                 task_status := Pending |} in
  set_idle_task (Some (length (tasks w)))
    (set_tasks (tasks w ++ [task])%list w).

(** the loop resumes task [id] if its sleep is over and nobody cancelled it *)
Definition wake (id : nat) (w : World) : World :=
  match nth_error (tasks w) id with
  | Some t =>
      if negb (done t) && (task_deadline t <=? clock w)
      then _idle_disconnect
             (set_tasks (update_nth id (with_status Finished) (tasks w)) w)
      else w
  | None => w
  end.

(** [dt] seconds pass *)
Definition elapse (dt : nat) (w : World) : World :=
  let w := set_clock (clock w + dt) w in
  fold_left (fun w id => wake id w) (seq 0 (length (tasks w))) w.

(* ===================================================================== *)
(** * The bot *)
(* ===================================================================== *)

(** who invoked a command: [interaction.guild], [interaction.user] *)
Record User : Type := {
  user_id : Z;
  user_is_member : bool;          (* [isinstance(user, discord.Member)] *)
  user_voice : option Channel     (* [user.voice.channel] *)
}.

Record Interaction : Type := {
  i_guild : bool;                 (* [interaction.guild is not None] *)
  i_user : option User
}.

(** The world outside the process. *)
Record Env : Type := {
  (** [discord.FFmpegPCMAudio(stream_url, ...)]: [Raise] when the
      constructor raises *)
  FFmpegPCMAudio : string -> result unit;
  (** [voice_channel.connect(...)] at the k-th attempt of a retry loop:
      [Ok c] is a client whose [is_connected()] is [c] *)
  gateway_connect : Channel -> nat -> result bool;
  extract_info : Resolver.options -> string -> result (option Resolver.YdlInfo);
  oembed_title_of : string -> result (option string);
  sp_track : string -> result (option Spotify.Track);
  sp_album_tracks :
    string -> nat -> nat -> result (Spotify.Page (option Spotify.Track));
  sp_playlist_items :
    string -> nat -> nat -> result (Spotify.Page (option Spotify.Item));
  SPOTIFY_CLIENT_ID : option string;
  SPOTIFY_CLIENT_SECRET : option string
}.

Section Bot.

Variable env : Env.

(** ** Playback driver *)

(** [play_next]; [fuel] bounds the depth of the recursive calls *)
Fixpoint play_next_fuel (fuel : nat) (w : World) : outcome unit :=
  match fuel with
  | 0 => OutOfFuel w
  | S fuel' =>
      match voice_client w with
      | None => Returned tt w
      | Some vc =>
          (* async with player.lock: *)
          if lock_locked w then Suspended w
          else
            let w := set_lock true w in
            release
              (if is_playing vc || is_paused vc
               then Returned tt (cancel_idle_disconnect w)
               else
                 match queue w with
                 | [] =>
                     Returned tt
                       (schedule_idle_disconnect (set_now_playing None w))
                 | song :: rest =>
                     let w := set_queue rest w in
                     let w := record (BecameNowPlaying song)
                                (set_now_playing (Some song) w) in
                     let w := cancel_idle_disconnect w in
                     match FFmpegPCMAudio env (stream_url song) with
                     | Raise _ =>
                         let w := set_now_playing None w in
                         play_next_fuel fuel' w
                     | Ok _ => vc_play song w
                     end
                 end)
      end
  end.

Definition play_next (w : World) : outcome unit :=
  play_next_fuel (S (length (queue w))) w.

(** the world in which [play_next] tries to attach [song]: popped, set as
    [now_playing], idle timer cancelled, lock held *)
Definition dequeued (song : Song) (rest : list Song) (w : World) : World :=
  cancel_idle_disconnect
    (record (BecameNowPlaying song)
       (set_now_playing (Some song) (set_queue rest (set_lock true w)))).

(** what one call of [play_next] does, recursion resolved *)
Definition play_next_flat (w : World) : outcome unit :=
  match voice_client w with
  | None => Returned tt w
  | Some vc =>
      if lock_locked w then Suspended w
      else if is_playing vc || is_paused vc
      then Returned tt (set_lock false (cancel_idle_disconnect (set_lock true w)))
      else
        match queue w with
        | [] =>
            Returned tt
              (set_lock false
                 (schedule_idle_disconnect
                    (set_now_playing None (set_lock true w))))
        | song :: rest =>
            match FFmpegPCMAudio env (stream_url song) with
            | Raise _ => Suspended (set_now_playing None (dequeued song rest w))
            | Ok _ => release (vc_play song (dequeued song rest w))
            end
        end
  end.

(** ** Voice connection manager *)

Definition fresh_client (c : Channel) (connected : bool) : VoiceClient :=
  {| vc_channel := c; vc_connected := connected; vc_audio := Silent |}.

(** [_connect_with_retry]: [attempts] more rounds of the [for] loop, the
    next one being round [k]. The time an attempt takes and the
    [asyncio.sleep(1.5)] after a failed one are not counted: the clock of
    the world moves only with [Elapse], between handlers. *)
Fixpoint connect_rounds (attempts k : nat) (last_exc : option exn)
    (voice_channel : Channel) (w : World) : outcome VoiceClient :=
  match attempts with
  | 0 =>
      Raised (RuntimeError
                ("Voice connection failed: "
                 ++ match last_exc with
                    | Some e => exn_str e | None => "None" end)) w
  | S n =>
      match gateway_connect env voice_channel k with
      | Ok c =>
          let vc := fresh_client voice_channel c in
          let w := set_voice_client (Some vc) w in
          if is_connected vc then Returned vc w
          else connect_rounds n (S k) last_exc voice_channel w
      | Raise exc => connect_rounds n (S k) (Some exc) voice_channel w
      end
  end.

Definition _connect_with_retry (voice_channel : Channel) (w : World)
  : outcome VoiceClient :=
  connect_rounds 3 0 None voice_channel w.

Definition ChannelConflict (occupied : Channel) : exn :=
  RuntimeError ("I'm already active in **" ++ channel_name occupied
                ++ "**. Join that channel or use /leave first.").

Definition ensure_voice (i : Interaction) (w : World) : outcome VoiceClient :=
  if negb (i_guild i)
  then Raised (RuntimeError "This command can only be used in a server.") w
  else
    match i_user i with
    | None => Raised (RuntimeError "Could not resolve your member information.") w
    | Some user =>
        if negb (user_is_member user)
        then Raised (RuntimeError "Could not resolve your member information.") w
        else
          match user_voice user with
          | None => Raised (RuntimeError "Join a voice channel first.") w
          | Some voice_channel =>
              match voice_client w with
              | None =>
                  bind (_connect_with_retry voice_channel w)
                    (fun vc w =>
                       if negb (is_connected vc)
                       then Raised (RuntimeError
                                      "I could not stay connected to voice.") w
                       else Returned vc w)
              | Some vc =>
                  if negb (is_connected vc) then
                    bind (_connect_with_retry voice_channel (vc_disconnect w))
                      (fun vc w =>
                         if negb (is_connected vc)
                         then Raised (RuntimeError "Voice connection failed.") w
                         else Returned vc w)
                  else if negb (channel_eqb (vc_channel vc) voice_channel) then
                    if is_playing vc || is_paused vc
                    then Raised (ChannelConflict (vc_channel vc)) w
                    else Returned (with_channel voice_channel vc)
                           (vc_move_to voice_channel w)
                  else Returned vc w
              end
          end
    end.

(** ** Slash commands

    A handler is modelled up to the point where it hands its reply to
    Discord and returns that text; when it never gets there it is
    [Suspended]. The transport of the reply ([defer], [send_message],
    [followup.send], which can fail) is not part of the model, and a
    handler runs in one piece: what the loop does while a handler awaits
    is written as the events after it, and for [skip] by
    [skip_until_return] below. *)

Definition append_song (song : Song) (w : World) : World :=
  record (Enqueued song) (set_queue (queue w ++ [song])%list w).

(** [if interaction.user: song.requester_id = interaction.user.id] *)
Definition with_requester (i : Interaction) (song : Song) : Song :=
  match i_user i with
  | Some user =>
      {| title := title song; stream_url := stream_url song;
         webpage_url := webpage_url song; requester_id := user_id user |}
  | None => song
  end.

Definition extract_song (query : string) : result Song :=
  Resolver.extract_song (extract_info env) (oembed_title_of env) query.

Definition join (i : Interaction) (w : World) : outcome string :=
  catch
    (bind (ensure_voice i w)
       (fun vc w =>
          if negb (is_connected vc)
          then Raised (RuntimeError "I could not connect to voice.") w
          else Returned "Joined your voice channel."
                 (schedule_idle_disconnect w)))
    (fun exc w => Returned (exn_str exc) w).

(** the locals of the Spotify branch of [play] *)
Record Batch : Type := {
  added : nat;
  failed : nat;
  first_title : option string
}.

Definition empty_batch : Batch :=
  {| added := 0; failed := 0; first_title := None |}.

(** one round of [for spotify_query in spotify_queries] *)
Definition enqueue_resolved (i : Interaction) (st : Batch * World)
    (spotify_query : string) : Batch * World :=
  let (b, w) := st in
  match extract_song spotify_query with
  | Ok song =>
      let song := with_requester i song in
      ({| added := S (added b); failed := failed b;
          first_title := if PyStr.otruthy (first_title b)
                         then first_title b else Some (title song) |},
       append_song song w)
  | Raise _ =>
      ({| added := added b; failed := S (failed b);
          first_title := first_title b |}, w)
  end.

Definition skipped_note (b : Batch) : string :=
  if failed b =? 0 then ""
  else " Skipped " ++ PyStr.of_nat (failed b) ++ " track(s).".

Definition spotify_reply (b : Batch) (w : World) : string :=
  match now_playing w, first_title b with
  | Some np, Some ft =>
      if PyStr.truthy ft && String.eqb (title np) ft then
        "Now playing from Spotify: **" ++ title np ++ "**" ++ PyStr.newline
        ++ "Queued " ++ PyStr.of_nat (added b - 1) ++ " more track(s)."
        ++ skipped_note b
      else
        "Queued " ++ PyStr.of_nat (added b) ++ " track(s) from Spotify."
        ++ skipped_note b
        ++ (if MAX_SPOTIFY_TRACKS <=? added b + failed b
            then " (Limited to first " ++ PyStr.of_nat MAX_SPOTIFY_TRACKS
                 ++ " tracks.)"
            else "")
  | _, _ =>
      "Queued " ++ PyStr.of_nat (added b) ++ " track(s) from Spotify."
      ++ skipped_note b
      ++ (if MAX_SPOTIFY_TRACKS <=? added b + failed b
          then " (Limited to first " ++ PyStr.of_nat MAX_SPOTIFY_TRACKS
               ++ " tracks.)"
          else "")
  end.

Definition spotify_queries_from_url (fuel : nat) (url : string) (w : World)
  : outcome (list string) :=
  match Spotify.spotify_queries_from_url
          (sp_track env) (sp_album_tracks env) (sp_playlist_items env)
          (SPOTIFY_CLIENT_ID env) (SPOTIFY_CLIENT_SECRET env)
          (spotify_client w) fuel url with
  | (None, c) => OutOfFuel (set_spotify_client c w)
  | (Some (Raise e), c) => Raised e (set_spotify_client c w)
  | (Some (Ok queries), c) => Returned queries (set_spotify_client c w)
  end.

(** [play]; [fuel] bounds the catalog pages requested *)
Definition play (fuel : nat) (i : Interaction) (query : string) (w : World)
  : outcome string :=
  catch
    (bind (ensure_voice i w)
       (fun vc w =>
          if negb (is_connected vc)
          then Raised (RuntimeError
                         "Voice connection failed. I did not queue your song.") w
          else
            let w := cancel_idle_disconnect w in
            if PyStr.contains "open.spotify.com/" (PyStr.lower query) then
              bind (spotify_queries_from_url fuel query w)
                (fun spotify_queries w =>
                   let (b, w) :=
                     fold_left (enqueue_resolved i) spotify_queries
                               (empty_batch, w) in
                   if added b =? 0
                   then Raised (RuntimeError
                          "Could not resolve any Spotify tracks to playable sources.") w
                   else bind (play_next w)
                          (fun _ w => Returned (spotify_reply b w) w))
            else
              match extract_song query with
              | Raise e => Raised e w
              | Ok song =>
                  let song := with_requester i song in
                  bind (play_next (append_song song w))
                    (fun _ w =>
                       Returned
                         (match now_playing w with
                          | Some np =>
                              if String.eqb (title np) (title song)
                              then "Now playing: **" ++ title song ++ "**"
                                   ++ PyStr.newline ++ webpage_url song
                              else "Queued: **" ++ title song ++ "**"
                          | None => "Queued: **" ++ title song ++ "**"
                          end) w)
              end))
    (fun exc w => Returned ("Error: " ++ exn_str exc) w).

(** [skip] up to the [await] of [send_message] that ends each of its
    branches *)
Definition skip (i : Interaction) (w : World) : outcome string :=
  if negb (i_guild i) then Returned "I'm not connected to voice." w
  else
    match voice_client w with
    | None => Returned "I'm not connected to voice." w
    | Some vc =>
        if is_playing vc || is_paused vc
        then Returned "Skipped." (vc_stop w)
        else Returned "Nothing is playing." w
    end.

Definition stop (i : Interaction) (w : World) : outcome string :=
  if negb (i_guild i)
  then Returned "This command can only be used in a server." w
  else
    let w := set_now_playing None (set_queue [] w) in
    let vc := voice_client w in
    let w := match vc with
             | Some c => if is_playing c || is_paused c then vc_stop w else w
             | None => w
             end in
    let w := match vc with
             | Some c => if is_connected c then schedule_idle_disconnect w
                         else w
             | None => w
             end in
    Returned "Stopped playback and cleared the queue." w.

Fixpoint up_next (idx : nat) (songs : list Song) : list string :=
  match songs with
  | [] => []
  | song :: rest =>
      (PyStr.of_nat idx ++ ". " ++ title song) :: up_next (S idx) rest
  end.

(** the [queue] command (the name [queue] is the player's field here) *)
Definition show_queue (i : Interaction) (w : World) : outcome string :=
  if negb (i_guild i)
  then Returned "This command can only be used in a server." w
  else
    let playing :=
      match now_playing w with
      | Some np => ["Now playing: **" ++ title np ++ "**"]
      | None => []
      end in
    let upcoming :=
      match queue w with
      | [] => []
      | q => "Up next:" :: up_next 1 (firstn 10 q)
      end in
    let lines := app playing upcoming in
    Returned (PyStr.join PyStr.newline
                (match lines with [] => ["Queue is empty."] | _ => lines end)) w.

Definition leave (i : Interaction) (w : World) : outcome string :=
  if negb (i_guild i)
  then Returned "This command can only be used in a server." w
  else
    let vc := voice_client w in
    let w := cancel_idle_disconnect (set_now_playing None (set_queue [] w)) in
    match vc with
    | Some _ => Returned "Disconnected and cleared queue." (vc_disconnect w)
    | None => Returned "I'm not connected to voice." w
    end.

(** ** What can happen to a guild *)

Inductive event : Type :=
| CmdJoin (i : Interaction)
| CmdPlay (fuel : nat) (i : Interaction) (query : string)
| CmdSkip (i : Interaction)
| CmdStop (i : Interaction)
| CmdQueue (i : Interaction)
| CmdLeave (i : Interaction)
| StreamEnded      (* the transcoder reaches the end of the stream *)
| RunCallback      (* the loop runs a [play_next] posted by [_after_playback] *)
| VoicePaused      (* [vc.pause()] by someone else *)
| VoiceResumed     (* [vc.resume()] by someone else *)
| GatewayDropped   (* the voice connection is lost: [is_connected()] turns false *)
| GatewayResumed
| Elapse (dt : nat).

Definition stream_ended (w : World) : World :=
  match voice_client w with
  | Some vc => if is_playing vc then vc_stop w else w
  | None => w
  end.

Definition run_callback (w : World) : World :=
  match callbacks w with
  | 0 => w
  | S n => world_of (play_next (set_callbacks n w))
  end.

Definition on_voice (f : VoiceClient -> VoiceClient) (w : World) : World :=
  match voice_client w with
  | Some vc => set_voice_client (Some (f vc)) w
  | None => w
  end.

Definition pause_audio (vc : VoiceClient) : VoiceClient :=
  match vc_audio vc with
  | Streaming src => with_audio (Paused src) vc
  | _ => vc
  end.

Definition resume_audio (vc : VoiceClient) : VoiceClient :=
  match vc_audio vc with
  | Paused src => with_audio (Streaming src) vc
  | _ => vc
  end.

Definition step (w : World) (ev : event) : World :=
  match ev with
  | CmdJoin i => world_of (join i w)
  | CmdPlay fuel i query => world_of (play fuel i query w)
  | CmdSkip i => world_of (skip i w)
  | CmdStop i => world_of (stop i w)
  | CmdQueue i => world_of (show_queue i w)
  | CmdLeave i => world_of (leave i w)
  | StreamEnded => stream_ended w
  | RunCallback => run_callback w
  | VoicePaused => on_voice pause_audio w
  | VoiceResumed => on_voice resume_audio w
  | GatewayDropped => on_voice (with_connected false) w
  | GatewayResumed => on_voice (with_connected true) w
  | Elapse dt => elapse dt w
  end.

Definition run (evs : list event) (w : World) : World :=
  fold_left step evs w.

End Bot.

(* ===================================================================== *)
(** * Vocabulary of the properties *)
(* ===================================================================== *)

(** the songs that became [now_playing], oldest first *)
Fixpoint played (l : list LogEntry) : list Song :=
  match l with
  | [] => []
  | BecameNowPlaying s :: r => s :: played r
  | _ :: r => played r
  end.

(** the songs appended to the queue, oldest first *)
Fixpoint enqueued (l : list LogEntry) : list Song :=
  match l with
  | [] => []
  | Enqueued s :: r => s :: enqueued r
  | _ :: r => enqueued r
  end.

(** how many times the voice client was disconnected *)
Fixpoint disconnects (l : list LogEntry) : nat :=
  match l with
  | [] => 0
  | Disconnected :: r => S (disconnects r)
  | _ :: r => disconnects r
  end.

(** commands that empty the queue *)
Definition clears_queue (ev : event) : bool :=
  match ev with
  | CmdStop _ | CmdLeave _ => true
  | _ => false
  end.

(** the voice client is there and streams or is paused *)
Definition active (w : World) : bool :=
  match voice_client w with
  | Some vc => is_playing vc || is_paused vc
  | None => false
  end.

(** what [_idle_disconnect] checks when it fires *)
Definition idle (w : World) : bool :=
  match voice_client w with
  | Some vc =>
      is_connected vc && negb (is_playing vc) && negb (is_paused vc)
      && match queue w with [] => true | _ => false end
  | None => false
  end.

(** the idle timer is armed to fire at [deadline] *)
Definition armed_for (deadline : nat) (w : World) : Prop :=
  exists id,
    idle_task w = Some id
    /\ nth_error (tasks w) id
       = Some {| task_deadline := deadline; task_status := Pending |}.

(** every task that is not done is the one [player.idle_task] refers to *)
Definition tasks_wf (w : World) : Prop :=
  forall id t,
    nth_error (tasks w) id = Some t -> done t = false -> idle_task w = Some id.

(** the songs that became [now_playing], then the queue, are the songs
    enqueued, in the order of enqueueing *)
Definition fifo (w : World) : Prop :=
  (played (log w) ++ queue w)%list = enqueued (log w).

(** no player is running *)
Definition silent (w : World) : Prop :=
  match voice_client w with
  | Some vc => vc_audio vc = Silent
  | None => True
  end.

(** [player.lock] is only ever left held while nothing plays *)
Definition lock_inv (w : World) : Prop := lock_locked w = true -> silent w.

(** [player.lock] is held and no song became [now_playing] since [w0] *)
Definition stuck_since (w0 w : World) : Prop :=
  lock_locked w = true /\ played (log w) = played (log w0).

(** every task that is not done has key [id0] *)
Definition quiet_except (id0 : nat) (w : World) : Prop :=
  forall id t, nth_error (tasks w) id = Some t -> done t = false -> id = id0.

Section Repeat.

Variable env : Env.

(** [n] calls of [play_next], one after the other *)
Fixpoint repeat_play_next (n : nat) (w : World) : outcome unit :=
  match n with
  | 0 => Returned tt w
  | S n' => bind (play_next env w) (fun _ w' => repeat_play_next n' w')
  end.

End Repeat.

(* ===================================================================== *)
(** * Concrete guilds, songs and environments *)
(* ===================================================================== *)

Module Demo.

Definition general : Channel := {| channel_id := 1; channel_name := "General" |}.
Definition lounge : Channel := {| channel_id := 2; channel_name := "Lounge" |}.

(** a member of the guild sitting in voice channel [c] *)
Definition member_in (c : Channel) : Interaction :=
  {| i_guild := true;
     i_user := Some {| user_id := 7%Z; user_is_member := true;
                       user_voice := Some c |} |}.

Definition song (name : string) : Song :=
  {| title := name; stream_url := "https://cdn.example/" ++ name;
     webpage_url := name; requester_id := 7%Z |}.

(** entry [k] of a playlist; entry 10 has no title *)
Definition entry (k : nat) : option Spotify.Item :=
  Some {| Spotify.item_track :=
            Some {| Spotify.track_name :=
                      if k =? 10 then None
                      else Some ("song" ++ PyStr.of_nat k);
                    Spotify.track_artists :=
                      Some [Some {| Spotify.artist_name := Some "band" |}] |} |}.

(** a playlist of 30 entries, numbered from 1 *)
Definition playlist30 : list (option Spotify.Item) := map entry (seq 1 30).

(** a playlist none of whose 3 entries has a title *)
Definition untitled3 : list (option Spotify.Item) :=
  [None; Some {| Spotify.item_track := None |};
   Some {| Spotify.item_track :=
             Some {| Spotify.track_name := Some "";
                     Spotify.track_artists := None |} |}].

Definition playlist_url : string :=
  "https://open.spotify.com/playlist/37i9dQZF1DXcBWIGoYBM5M?si=abc".

(** every collaborator answers; queries resolve to a stream named after
    them; the catalog serves [playlist] *)
Definition env_of (playlist : list (option Spotify.Item)) : Env :=
  {| FFmpegPCMAudio := fun _ => Ok tt;
     gateway_connect := fun _ _ => Ok true;
     extract_info := fun _ q =>
       Ok (Some (Resolver.Single
                   {| Resolver.info_url := Some ("https://cdn.example/" ++ q);
                      Resolver.info_title := Some q;
                      Resolver.info_webpage_url := Some q |}));
     oembed_title_of := fun _ => Ok None;
     sp_track := Spotify.no_track;
     sp_album_tracks := Spotify.serve_album [];
     sp_playlist_items := Spotify.serve_playlist playlist;
     SPOTIFY_CLIENT_ID := Some "id";
     SPOTIFY_CLIENT_SECRET := Some "secret" |}.

Definition env_ok : Env := env_of playlist30.

(** the same, but the ffmpeg executable is missing *)
Definition env_no_ffmpeg : Env :=
  {| FFmpegPCMAudio := fun _ => Raise (OtherException "ffmpeg was not found.");
     gateway_connect := gateway_connect env_ok;
     extract_info := extract_info env_ok;
     oembed_title_of := oembed_title_of env_ok;
     sp_track := sp_track env_ok;
     sp_album_tracks := sp_album_tracks env_ok;
     sp_playlist_items := sp_playlist_items env_ok;
     SPOTIFY_CLIENT_ID := SPOTIFY_CLIENT_ID env_ok;
     SPOTIFY_CLIENT_SECRET := SPOTIFY_CLIENT_SECRET env_ok |}.

(** YouTube answers with its sign-in wall, SoundCloud finds nothing *)
Definition blocked_extract_info (opts : Resolver.options) (q : string)
  : result (option Resolver.YdlInfo) :=
  match opts with
  | Resolver.YDL_OPTIONS =>
      Raise (DownloadError
               "ERROR: [youtube] dQw4w9WgXcQ: Sign in to confirm you're not a bot.")
  | Resolver.SC_YDL_OPTIONS => Ok (Some (Resolver.Entries []))
  end.

(** connected to [general], nothing playing, nothing queued *)
Definition connected_idle : World :=
  set_voice_client
    (Some {| vc_channel := general; vc_connected := true; vc_audio := Silent |})
    init.

(** connected to [general] and streaming *)
Definition streaming : World :=
  set_now_playing (Some (song "a"))
    (set_voice_client
       (Some {| vc_channel := general; vc_connected := true;
                vc_audio := Streaming "https://cdn.example/a" |})
       init).

(** a song is requested from [general] and starts streaming; then the
    gateway reports the voice connection lost while the player goes on *)
Definition streaming_dropped : World :=
  run env_ok [CmdPlay 1 (member_in general) "a"; GatewayDropped] init.

Definition idle_client : VoiceClient :=
  {| vc_channel := general; vc_connected := true; vc_audio := Silent |}.

(** two requests, the end of the first stream, and the callback *)
Definition two_plays : list event :=
  [CmdPlay 1 (member_in general) "a"; CmdPlay 1 (member_in general) "b";
   StreamEnded; RunCallback].

(** connected, silent, with two songs waiting *)
Definition two_queued : World :=
  set_queue [song "a"; song "b"] connected_idle.

(** the guild after a request whose stream could not be attached *)
Definition wedged : World :=
  world_of (play env_no_ffmpeg 1 (member_in general) "a" init).

(** a member makes the bot join: connected, silent, idle timer armed *)
Definition joined : list event := [CmdJoin (member_in general)].

Definition streaming_client : VoiceClient :=
  {| vc_channel := general; vc_connected := true;
     vc_audio := Streaming "https://cdn.example/a" |}.

End Demo.

(* ===================================================================== *)
(** * Startup: [parse_guild_ids] and [on_ready] *)
(* ===================================================================== *)

Module Startup.

(** [raw.split(",")] *)
Fixpoint split_comma (raw : string) : list string :=
  match raw with
  | EmptyString => [EmptyString]
  | String c r =>
      if Ascii.eqb c "," then EmptyString :: split_comma r
      else match split_comma r with
           | item :: items => String c item :: items
           | [] => [String c EmptyString]
           end
  end.

Definition digit_of (c : ascii) : option Z :=
  let n := nat_of_ascii c in
  if (48 <=? n) && (n <=? 57) then Some (Z.of_nat (n - 48)) else None.

(** the digits of a decimal literal, with single underscores allowed
    between digits; [after_digit] tells whether the previous character was
    a digit *)
Fixpoint int_digits (s : string) (acc : Z) (after_digit : bool) : option Z :=
  match s with
  | EmptyString => if after_digit then Some acc else None
  | String c r =>
      match digit_of c with
      | Some d => int_digits r (10 * acc + d)%Z true
      | None =>
          if Ascii.eqb c "_" && after_digit then int_digits r acc false
          else None
      end
  end.

(** [sys.get_int_max_str_digits()], as CPython sets it *)
Definition MAX_STR_DIGITS : nat := 4300.

(** how many digits a literal has; signs and underscores do not count *)
Fixpoint count_digits (s : string) : nat :=
  match s with
  | EmptyString => 0
  | String c r =>
      match digit_of c with
      | Some _ => S (count_digits r)
      | None => count_digits r
      end
  end.

(** [int(value)] on ASCII text: surrounding whitespace, an optional sign,
    decimal digits, no more than [MAX_STR_DIGITS] of them; [None] is
    [ValueError]. Text with characters outside ASCII, where [int] also
    reads the decimal digits of other scripts, is not covered. *)
Definition py_int (value : string) : option Z :=
  let literal := PyStr.strip value in
  if MAX_STR_DIGITS <? count_digits literal then None
  else
    match literal with
    | String "+" r => int_digits r 0%Z false
    | String "-" r => option_map Z.opp (int_digits r 0%Z false)
    | s => int_digits s 0%Z false
    end.

(** the [for item in raw.split(",")] loop: both lists in loop order *)
Fixpoint sort_items (items : list string) : list Z * list string :=
  match items with
  | [] => ([], [])
  | item :: rest =>
      let value := PyStr.strip item in
      let (parsed, invalid) := sort_items rest in
      if negb (PyStr.truthy value) then (parsed, invalid)
      else match py_int value with
           | Some n => (n :: parsed, invalid)
           | None => (parsed, value :: invalid)
           end
  end.

Definition parse_guild_ids (raw : string) : list Z * list string :=
  sort_items (split_comma raw).

(** what [on_ready] asks of the command tree *)
Inductive action : Type :=
| CopyGlobalTo (guild_id : Z)     (* [bot.tree.copy_global_to(guild=guild)] *)
| SyncGuild (guild_id : Z)        (* [bot.tree.sync(guild=guild)] *)
| SyncGlobal.                     (* [bot.tree.sync()] *)

Definition sync_guild (guild_id : Z) : list action :=
  [CopyGlobalTo guild_id; SyncGuild guild_id].

(** [on_ready], given the environment variables [DISCORD_GUILD_IDS]
    (default [""]) and [DISCORD_GUILD_ID] *)
Definition on_ready (DISCORD_GUILD_IDS : string)
    (DISCORD_GUILD_ID : option string) : list action :=
  if PyStr.truthy (PyStr.strip DISCORD_GUILD_IDS) then
    let (guild_ids, invalid_ids) := parse_guild_ids DISCORD_GUILD_IDS in
    match guild_ids with
    | [] => [SyncGlobal]
    | _ => flat_map sync_guild guild_ids
    end
  else
    match DISCORD_GUILD_ID with
    | Some raw =>
        if PyStr.truthy raw then
          match py_int raw with
          | Some guild_id => sync_guild guild_id
          | None => [SyncGlobal]
          end
        else [SyncGlobal]
    | None => [SyncGlobal]
    end.

(** a comma-separated list of ids written in decimal *)
Definition ids_text (ids : list nat) : string :=
  PyStr.join "," (map PyStr.of_nat ids).

End Startup.

(* ===================================================================== *)
(** * The player registry: [players], [get_player] *)
(* ===================================================================== *)

Module Registry.

(** the fields of a [GuildPlayer]; the two locks by whether they are held *)
Record GuildPlayer : Type := {
  gp_queue : list Song;
  gp_lock : bool;
  gp_voice_lock : bool;
  gp_now_playing : option Song;
  gp_idle_task : option nat
}.

(** [GuildPlayer()] *)
Definition new_player : GuildPlayer :=
  {| gp_queue := []; gp_lock := false; gp_voice_lock := false;
     gp_now_playing := None; gp_idle_task := None |}.

(** the dict [players], oldest key first *)
Definition players_t : Type := list (Z * GuildPlayer).

(** [players.get(guild_id)] *)
Fixpoint players_get (guild_id : Z) (players : players_t)
  : option GuildPlayer :=
  match players with
  | [] => None
  | (k, player) :: rest =>
      if Z.eqb k guild_id then Some player else players_get guild_id rest
  end.

(** [get_player]: the player and the dict afterwards *)
Definition get_player (guild_id : Z) (players : players_t)
  : GuildPlayer * players_t :=
  match players_get guild_id players with
  | Some player => (player, players)
  | None => (new_player, (players ++ [(guild_id, new_player)])%list)
  end.

End Registry.

(* ===================================================================== *)
(** * More vocabulary *)
(* ===================================================================== *)

(** every character is a letter or a digit *)
Fixpoint all_alnum (s : string) : bool :=
  match s with
  | EmptyString => true
  | String c r => PyStr.is_alnum c && all_alnum r
  end.

(** what may follow the id in a link: nothing, or a character that is
    neither a letter nor a digit *)
Definition ends_id (rest : string) : bool :=
  match rest with
  | EmptyString => true
  | String c _ => negb (PyStr.is_alnum c)
  end.

(** a link as Spotify shares it *)
Definition spotify_link (k : Spotify.kind) (id rest : string) : string :=
  "https://open.spotify.com/" ++ Spotify.kind_str k ++ "/" ++ id ++ rest.

(** how many idle tasks can still fire *)
Definition pending_count (w : World) : nat :=
  length (filter (fun t => negb (done t)) (tasks w)).

(** a member of the guild who is in voice channel [c] *)
Definition requester_in (c : Channel) (i : Interaction) : Prop :=
  i_guild i = true
  /\ exists user,
       i_user i = Some user
       /\ user_is_member user = true
       /\ user_voice user = Some c.

(** the query does not go to the Spotify branch of [play] *)
Definition plain_query (query : string) : Prop :=
  PyStr.contains "open.spotify.com/" (PyStr.lower query) = false.

(** a decimal digit *)
Definition is_digit (c : ascii) : bool :=
  match Startup.digit_of c with Some _ => true | None => false end.

(** a text of decimal digits only *)
Fixpoint all_digits (s : string) : bool :=
  match s with
  | EmptyString => true
  | String c r => is_digit c && all_digits r
  end.

(** the query is not the empty string *)
Definition nonempty_query (q : string) : Prop := PyStr.truthy q = true.

(** text of ASCII characters only: on it [str.strip], [str.lower],
    [str.split] and [int] are as modelled *)
Fixpoint ascii_only (s : string) : bool :=
  match s with
  | EmptyString => true
  | String c r => (nat_of_ascii c <? 128) && ascii_only r
  end.

(** events in which [play_next] is called *)
Definition advances (ev : event) : bool :=
  match ev with
  | CmdPlay _ _ _ | RunCallback => true
  | _ => false
  end.

(** events that write neither the queue nor [now_playing] *)
Definition leaves_player_alone (ev : event) : bool :=
  match ev with
  | CmdJoin _ | CmdSkip _ | CmdQueue _ | StreamEnded
  | VoicePaused | VoiceResumed | GatewayDropped | GatewayResumed => true
  | _ => false
  end.

(* ===================================================================== *)
(** * Program points: the pops of [play_next], the await of [skip] *)
(* ===================================================================== *)

Section Observed.

Variable env : Env.

(** [play_next] once more, with the songs it pops: each with what
    [player.lock.locked()] is at its [player.queue.popleft()] *)
Fixpoint play_next_observed_fuel (fuel : nat) (w : World)
  : outcome unit * list (Song * bool) :=
  match fuel with
  | 0 => (OutOfFuel w, [])
  | S fuel' =>
      match voice_client w with
      | None => (Returned tt w, [])
      | Some vc =>
          (* async with player.lock: *)
          if lock_locked w then (Suspended w, [])
          else
            let w := set_lock true w in
            if is_playing vc || is_paused vc
            then (release (Returned tt (cancel_idle_disconnect w)), [])
            else
              match queue w with
              | [] =>
                  (release
                     (Returned tt
                        (schedule_idle_disconnect (set_now_playing None w))),
                   [])
              | song :: rest =>
                  let held := lock_locked w in
                  let w := set_queue rest w in
                  let w := record (BecameNowPlaying song)
                             (set_now_playing (Some song) w) in
                  let w := cancel_idle_disconnect w in
                  match FFmpegPCMAudio env (stream_url song) with
                  | Raise _ =>
                      let w := set_now_playing None w in
                      let inner := play_next_observed_fuel fuel' w in
                      (release (fst inner), (song, held) :: snd inner)
                  | Ok _ => (release (vc_play song w), [(song, held)])
                  end
              end
      end
  end.

Definition play_next_observed (w : World) : outcome unit * list (Song * bool) :=
  play_next_observed_fuel (S (length (queue w))) w.

(** a handler that has nothing left to do but to await the sending of its
    reply: the loop runs the events [during] before the handler returns *)
Definition replying (during : list event) (o : outcome string)
  : outcome string :=
  match o with
  | Returned reply w => Returned reply (run env during w)
  | _ => o
  end.

(** [skip] to its return: [vc.stop()] is done, then the reply is awaited *)
Definition skip_until_return (during : list event) (i : Interaction)
    (w : World) : outcome string :=
  replying during (skip i w).

(** the songs that the queries of a batch resolve to, in the order of the
    queries, each with the member as requester *)
Definition resolved_songs (i : Interaction) (queries : list string)
  : list Song :=
  flat_map (fun q => match extract_song env q with
                     | Ok song => [with_requester i song]
                     | Raise _ => []
                     end) queries.

(** how many queries of a batch cannot be resolved *)
Definition unresolved (queries : list string) : nat :=
  length (filter (fun q => match extract_song env q with
                           | Ok _ => false
                           | Raise _ => true
                           end) queries).

End Observed.

(* ===================================================================== *)
(** * More concrete data *)
(* ===================================================================== *)

Module Samples.

Definition album_url : string :=
  spotify_link Spotify.KAlbum "4aawyAB9vmqN3uQ7FjRGTy" "?si=Qx1".

(** track [k] of an album; track 3 has an empty title *)
Definition album_track (k : nat) : option Spotify.Track :=
  Some {| Spotify.track_name :=
            if k =? 3 then Some "" else Some ("track" ++ PyStr.of_nat k);
          Spotify.track_artists := None |}.

(** an album of 60 tracks: two pages of the catalog API *)
Definition album60 : list (option Spotify.Track) := map album_track (seq 1 60).

(** the gateway refuses every attempt *)
Definition env_gateway_down : Env :=
  {| FFmpegPCMAudio := FFmpegPCMAudio Demo.env_ok;
     gateway_connect := fun _ k =>
       Raise (OtherException ("timeout " ++ PyStr.of_nat k));
     extract_info := extract_info Demo.env_ok;
     oembed_title_of := oembed_title_of Demo.env_ok;
     sp_track := sp_track Demo.env_ok;
     sp_album_tracks := sp_album_tracks Demo.env_ok;
     sp_playlist_items := sp_playlist_items Demo.env_ok;
     SPOTIFY_CLIENT_ID := SPOTIFY_CLIENT_ID Demo.env_ok;
     SPOTIFY_CLIENT_SECRET := SPOTIFY_CLIENT_SECRET Demo.env_ok |}.

(** nothing can be resolved: YouTube is blocked, SoundCloud finds nothing *)
Definition env_unresolvable : Env :=
  {| FFmpegPCMAudio := FFmpegPCMAudio Demo.env_ok;
     gateway_connect := gateway_connect Demo.env_ok;
     extract_info := Demo.blocked_extract_info;
     oembed_title_of := oembed_title_of Demo.env_ok;
     sp_track := sp_track Demo.env_ok;
     sp_album_tracks := sp_album_tracks Demo.env_ok;
     sp_playlist_items := sp_playlist_items Demo.env_ok;
     SPOTIFY_CLIENT_ID := SPOTIFY_CLIENT_ID Demo.env_ok;
     SPOTIFY_CLIENT_SECRET := SPOTIFY_CLIENT_SECRET Demo.env_ok |}.

(** the song that [Demo.env_ok] resolves a query to, before the requester
    is filled in *)
Definition resolved (name : string) : Song :=
  {| title := name; stream_url := "https://cdn.example/" ++ name;
     webpage_url := name; requester_id := 0%Z |}.

End Samples.

(* ===================================================================== *)
(** * Verification *)
(* ===================================================================== *)

Module SpotifyFacts.
Import Spotify.

Lemma add_query_app (q : option string) (qs : list string) :
  add_query q qs = (qs ++ add_query q [])%list.
Proof.
  unfold add_query. destruct q as [s|]; [destruct (PyStr.truthy s)|];
    simpl; now rewrite ?app_nil_r.
Qed.

Lemma add_query_length (q : option string) :
  length (add_query q []) = if PyStr.otruthy q then 1 else 0.
Proof.
  unfold add_query, PyStr.otruthy.
  destruct q as [s|]; [destruct (PyStr.truthy s)|]; reflexivity.
Qed.

Lemma queries_of_app (A : Type) (f : A -> option Track) (l1 l2 : list A) :
  queries_of f (l1 ++ l2) = (queries_of f l1 ++ queries_of f l2)%list.
Proof. unfold queries_of. apply flat_map_app. Qed.

Lemma queries_of_length (A : Type) (f : A -> option Track) (l : list A) :
  length (queries_of f l) = length (filter (usable f) l).
Proof.
  induction l as [|it l IH]; [reflexivity|].
  change (queries_of f (it :: l))
    with (add_query (_to_query (f it)) [] ++ queries_of f l)%list.
  rewrite length_app, add_query_length, IH. simpl. unfold usable.
  destruct (PyStr.otruthy (_to_query (f it))); reflexivity.
Qed.

Lemma firstn_firstn_app (A : Type) (n : nat) (l1 l2 : list A) :
  firstn n (firstn n l1 ++ l2) = firstn n (l1 ++ l2).
Proof.
  destruct (Nat.le_gt_cases (length l1) n) as [Hle|Hgt].
  - now rewrite (firstn_all2 l1).
  - rewrite !firstn_app, firstn_firstn, Nat.min_id.
    rewrite length_firstn, Nat.min_l by lia.
    replace (n - n) with 0 by lia. replace (n - length l1) with 0 by lia.
    reflexivity.
Qed.

(** One page: the inner loop appends the usable queries in order and stops
    when the cap is reached. *)
Lemma scan_items_firstn (A : Type) (f : A -> option Track) (items : list A) :
  forall queries,
    length queries < MAX_SPOTIFY_TRACKS ->
    scan_items f items queries
    = firstn MAX_SPOTIFY_TRACKS (queries ++ queries_of f items).
Proof.
  induction items as [|it items IH]; intros queries Hlen.
  - cbn [scan_items queries_of flat_map]. rewrite app_nil_r.
    symmetry. apply firstn_all2. lia.
  - cbn [scan_items].
    change (queries_of f (it :: items))
      with (add_query (_to_query (f it)) [] ++ queries_of f items)%list.
    rewrite app_assoc, <- add_query_app.
    assert (Hq : length (add_query (_to_query (f it)) queries)
                 <= S (length queries)).
    { rewrite add_query_app, length_app, add_query_length.
      destruct (PyStr.otruthy _); lia. }
    destruct (MAX_SPOTIFY_TRACKS <=? length (add_query (_to_query (f it)) queries))
      eqn:Hcap.
    + apply Nat.leb_le in Hcap.
      rewrite firstn_app.
      replace (MAX_SPOTIFY_TRACKS - length (add_query (_to_query (f it)) queries))
        with 0 by lia.
      rewrite firstn_all2 by lia. rewrite firstn_0. now rewrite app_nil_r.
    + apply Nat.leb_gt in Hcap. now apply IH.
Qed.

Lemma scan_items_length (A : Type) (f : A -> option Track) (items : list A)
    (queries : list string) :
  length queries < MAX_SPOTIFY_TRACKS ->
  length (scan_items f items queries) <= MAX_SPOTIFY_TRACKS.
Proof.
  intros H. rewrite scan_items_firstn by assumption.
  rewrite length_firstn. lia.
Qed.

Lemma page_loop_unfold (A : Type) (fetch : nat -> result (Page A))
    (f : A -> option Track) (step fuel offset : nat) (queries : list string) :
  page_loop fetch f step (S fuel) offset queries
  = if length queries <? MAX_SPOTIFY_TRACKS then
      match fetch offset with
      | Raise e => Some (Raise e)
      | Ok page =>
          match page_items page with
          | [] => Some (Ok queries)
          | _ :: _ =>
              if PyStr.otruthy (page_next page)
              then page_loop fetch f step fuel (offset + step)
                             (scan_items f (page_items page) queries)
              else Some (Ok (scan_items f (page_items page) queries))
          end
      end
    else Some (Ok queries).
Proof.
  cbn [page_loop]. destruct (length queries <? MAX_SPOTIFY_TRACKS); [|reflexivity].
  destruct (fetch offset) as [page|e]; [|reflexivity].
  destruct (page_items page); reflexivity.
Qed.

(** The paging loop over a finite catalog returns, given fuel for all its
    pages, the first [MAX_SPOTIFY_TRACKS] usable queries. *)
Lemma page_loop_paged (A : Type) (f : A -> option Track) (catalog : list A)
    (step : nat) (Hstep : 0 < step) :
  forall fuel offset queries,
    length queries <= MAX_SPOTIFY_TRACKS ->
    length catalog <= offset + step * S fuel ->
    page_loop (fun off => Ok (paged catalog step off)) f step
              (S fuel) offset queries
    = Some (Ok (firstn MAX_SPOTIFY_TRACKS
                       (queries ++ queries_of f (skipn offset catalog)))).
Proof.
  induction fuel as [|fuel IH]; intros offset queries Hq Hfuel;
    rewrite page_loop_unfold;
    (destruct (length queries <? MAX_SPOTIFY_TRACKS) eqn:Hlt;
     [apply Nat.ltb_lt in Hlt
     |apply Nat.ltb_ge in Hlt;
      rewrite firstn_app, firstn_all2 by lia;
      replace (MAX_SPOTIFY_TRACKS - length queries) with 0 by lia;
      rewrite firstn_0; now rewrite app_nil_r]);
    cbn [paged page_items page_next];
    pose proof (firstn_skipn step (skipn offset catalog)) as Hsplit;
    rewrite skipn_skipn in Hsplit;
    (destruct (firstn step (skipn offset catalog)) as [|it items] eqn:Hitems;
     [ assert (Hnil : skipn offset catalog = []);
       [ destruct (skipn offset catalog); [reflexivity|];
         destruct step; [lia|discriminate]
       | rewrite Hnil; cbn [queries_of flat_map]; rewrite app_nil_r;
         now rewrite firstn_all2 by lia ]
     | ]);
    destruct (offset + step <? length catalog) eqn:Hnext;
    cbn [PyStr.otruthy PyStr.truthy];
    first [apply Nat.ltb_lt in Hnext | apply Nat.ltb_ge in Hnext].
  - lia.
  - rewrite scan_items_firstn by assumption.
    rewrite <- Hsplit, (skipn_all2 catalog) by lia. now rewrite app_nil_r.
  - rewrite IH; [|now apply scan_items_length|lia].
    rewrite scan_items_firstn by assumption.
    rewrite firstn_firstn_app, <- app_assoc, <- queries_of_app.
    rewrite Nat.add_comm in Hsplit. now rewrite Hsplit.
  - rewrite scan_items_firstn by assumption.
    rewrite <- Hsplit, (skipn_all2 catalog) by lia. now rewrite app_nil_r.
Qed.

End SpotifyFacts.

Create Rewrite HintDb world.

(** ** Frame lemmas: which fields an operation leaves alone *)

Module Frame.

Lemma cancel_voice_client w :
  voice_client (cancel_idle_disconnect w) = voice_client w.
Proof. unfold cancel_idle_disconnect. now destruct (idle_task w). Qed.

Lemma cancel_queue w : queue (cancel_idle_disconnect w) = queue w.
Proof. unfold cancel_idle_disconnect. now destruct (idle_task w). Qed.

Lemma cancel_now_playing w :
  now_playing (cancel_idle_disconnect w) = now_playing w.
Proof. unfold cancel_idle_disconnect. now destruct (idle_task w). Qed.

Lemma cancel_lock w : lock_locked (cancel_idle_disconnect w) = lock_locked w.
Proof. unfold cancel_idle_disconnect. now destruct (idle_task w). Qed.

Lemma cancel_clock w : clock (cancel_idle_disconnect w) = clock w.
Proof. unfold cancel_idle_disconnect. now destruct (idle_task w). Qed.

Lemma cancel_callbacks w : callbacks (cancel_idle_disconnect w) = callbacks w.
Proof. unfold cancel_idle_disconnect. now destruct (idle_task w). Qed.

Lemma cancel_log w : log (cancel_idle_disconnect w) = log w.
Proof. unfold cancel_idle_disconnect. now destruct (idle_task w). Qed.

Lemma cancel_idle_task w : idle_task (cancel_idle_disconnect w) = None.
Proof. reflexivity. Qed.

Lemma schedule_voice_client w :
  voice_client (schedule_idle_disconnect w) = voice_client w.
Proof. unfold schedule_idle_disconnect. cbn. apply cancel_voice_client. Qed.

Lemma schedule_queue w : queue (schedule_idle_disconnect w) = queue w.
Proof. unfold schedule_idle_disconnect. cbn. apply cancel_queue. Qed.

Lemma schedule_now_playing w :
  now_playing (schedule_idle_disconnect w) = now_playing w.
Proof. unfold schedule_idle_disconnect. cbn. apply cancel_now_playing. Qed.

Lemma schedule_lock w :
  lock_locked (schedule_idle_disconnect w) = lock_locked w.
Proof. unfold schedule_idle_disconnect. cbn. apply cancel_lock. Qed.

Lemma schedule_clock w : clock (schedule_idle_disconnect w) = clock w.
Proof. unfold schedule_idle_disconnect. cbn. apply cancel_clock. Qed.

Lemma schedule_callbacks w :
  callbacks (schedule_idle_disconnect w) = callbacks w.
Proof. unfold schedule_idle_disconnect. cbn. apply cancel_callbacks. Qed.

Lemma schedule_log w : log (schedule_idle_disconnect w) = log w.
Proof. unfold schedule_idle_disconnect. cbn. apply cancel_log. Qed.

Lemma vc_stop_queue w : queue (vc_stop w) = queue w.
Proof.
  unfold vc_stop. destruct (voice_client w) as [vc|]; [|reflexivity].
  now destruct (vc_audio vc).
Qed.

Lemma vc_stop_now_playing w : now_playing (vc_stop w) = now_playing w.
Proof.
  unfold vc_stop. destruct (voice_client w) as [vc|]; [|reflexivity].
  now destruct (vc_audio vc).
Qed.

Lemma vc_stop_lock w : lock_locked (vc_stop w) = lock_locked w.
Proof.
  unfold vc_stop. destruct (voice_client w) as [vc|]; [|reflexivity].
  now destruct (vc_audio vc).
Qed.

Lemma vc_stop_log w : log (vc_stop w) = log w.
Proof.
  unfold vc_stop. destruct (voice_client w) as [vc|]; [|reflexivity].
  now destruct (vc_audio vc).
Qed.

Lemma vc_stop_idle_task w : idle_task (vc_stop w) = idle_task w.
Proof.
  unfold vc_stop. destruct (voice_client w) as [vc|]; [|reflexivity].
  now destruct (vc_audio vc).
Qed.

Lemma vc_stop_tasks w : tasks (vc_stop w) = tasks w.
Proof.
  unfold vc_stop. destruct (voice_client w) as [vc|]; [|reflexivity].
  now destruct (vc_audio vc).
Qed.

Lemma vc_stop_clock w : clock (vc_stop w) = clock w.
Proof.
  unfold vc_stop. destruct (voice_client w) as [vc|]; [|reflexivity].
  now destruct (vc_audio vc).
Qed.

Lemma vc_stop_voice_client w :
  voice_client (vc_stop w) = option_map (with_audio Silent) (voice_client w).
Proof.
  unfold vc_stop. destruct (voice_client w) as [vc|] eqn:E; [|now rewrite E].
  destruct vc as [c k a]; destruct a; cbn; now rewrite ?E.
Qed.

Lemma vc_disconnect_queue w : queue (vc_disconnect w) = queue w.
Proof.
  unfold vc_disconnect. destruct (voice_client w); [|reflexivity].
  cbn. apply vc_stop_queue.
Qed.

Lemma vc_disconnect_now_playing w :
  now_playing (vc_disconnect w) = now_playing w.
Proof.
  unfold vc_disconnect. destruct (voice_client w); [|reflexivity].
  cbn. apply vc_stop_now_playing.
Qed.

Lemma vc_disconnect_lock w : lock_locked (vc_disconnect w) = lock_locked w.
Proof.
  unfold vc_disconnect. destruct (voice_client w); [|reflexivity].
  cbn. apply vc_stop_lock.
Qed.

Lemma vc_disconnect_idle_task w : idle_task (vc_disconnect w) = idle_task w.
Proof.
  unfold vc_disconnect. destruct (voice_client w); [|reflexivity].
  cbn. apply vc_stop_idle_task.
Qed.

Lemma vc_disconnect_tasks w : tasks (vc_disconnect w) = tasks w.
Proof.
  unfold vc_disconnect. destruct (voice_client w); [|reflexivity].
  cbn. apply vc_stop_tasks.
Qed.

Lemma vc_disconnect_clock w : clock (vc_disconnect w) = clock w.
Proof.
  unfold vc_disconnect. destruct (voice_client w); [|reflexivity].
  cbn. apply vc_stop_clock.
Qed.

Lemma vc_disconnect_voice_client w : voice_client (vc_disconnect w) = None.
Proof.
  unfold vc_disconnect. now destruct (voice_client w) eqn:E.
Qed.

End Frame.

#[export] Hint Rewrite
  Frame.cancel_voice_client Frame.cancel_queue Frame.cancel_now_playing
  Frame.cancel_lock Frame.cancel_clock Frame.cancel_callbacks Frame.cancel_log
  Frame.cancel_idle_task
  Frame.schedule_voice_client Frame.schedule_queue Frame.schedule_now_playing
  Frame.schedule_lock Frame.schedule_clock Frame.schedule_callbacks
  Frame.schedule_log
  Frame.vc_stop_queue Frame.vc_stop_now_playing Frame.vc_stop_lock
  Frame.vc_stop_log Frame.vc_stop_idle_task Frame.vc_stop_tasks
  Frame.vc_stop_clock Frame.vc_stop_voice_client
  Frame.vc_disconnect_queue Frame.vc_disconnect_now_playing
  Frame.vc_disconnect_lock Frame.vc_disconnect_idle_task
  Frame.vc_disconnect_tasks Frame.vc_disconnect_clock
  Frame.vc_disconnect_voice_client
  : world.

(** projections of the setters compute; the rest is rewritten *)
Ltac world_simpl :=
  repeat (cbn [voice_client queue now_playing idle_task lock_locked tasks
               clock callbacks spotify_client log
               set_voice_client set_queue set_now_playing set_idle_task
               set_lock set_tasks set_clock set_callbacks set_spotify_client
               record world_of bind catch release] in *;
          autorewrite with world in *).

(** ** The playback driver without its recursion *)

Section DriverFacts.

Variable env : Env.

Lemma play_next_fuel_flat (fuel : nat) (w : World) :
  play_next_fuel env (S (S fuel)) w = play_next_flat env w.
Proof.
  unfold play_next_flat. cbn [play_next_fuel].
  destruct (voice_client w) as [vc|] eqn:Hvc; [|reflexivity].
  destruct (lock_locked w) eqn:Hl; [reflexivity|].
  destruct (is_playing vc || is_paused vc); [reflexivity|].
  cbn [queue set_lock].
  destruct (queue w) as [|song rest]; [reflexivity|].
  destruct (FFmpegPCMAudio env (stream_url song)); [reflexivity|].
  fold (dequeued song rest w).
  assert (Hv : voice_client (set_now_playing None (dequeued song rest w))
               = Some vc).
  { unfold dequeued. now world_simpl. }
  assert (Hk : lock_locked (set_now_playing None (dequeued song rest w))
               = true).
  { unfold dequeued. now world_simpl. }
  rewrite Hv, Hk. reflexivity.
Qed.

Lemma play_next_fuel_one (w : World) :
  queue w = [] -> play_next_fuel env 1 w = play_next_flat env w.
Proof.
  intros Hq. unfold play_next_flat. cbn [play_next_fuel].
  destruct (voice_client w) as [vc|]; [|reflexivity].
  destruct (lock_locked w); [reflexivity|].
  destruct (is_playing vc || is_paused vc); [reflexivity|].
  cbn [queue set_lock]. now rewrite Hq.
Qed.

(** [play_next] is total: the fuel it is given always suffices. *)
Lemma play_next_flat_eq (w : World) : play_next env w = play_next_flat env w.
Proof.
  unfold play_next. destruct (queue w) as [|s r] eqn:Hq.
  - now apply play_next_fuel_one.
  - apply play_next_fuel_flat.
Qed.

End DriverFacts.

(* ===================================================================== *)
(** * Catalog expansion *)
(* ===================================================================== *)

Section ExpansionFacts.
Import Spotify SpotifyFacts.

Variable sp_track : string -> result (option Track).
Variable sp_album_tracks : string -> nat -> nat -> result (Page (option Track)).
Variable client_id client_secret : option string.

Lemma collect_playlist (catalog : list (option Item)) (rid : string)
    (fuel : nat) :
  length catalog <= 100 * S fuel ->
  collect_queries sp_track sp_album_tracks (serve_playlist catalog)
                  (S fuel) KPlaylist rid
  = Some (Ok (firstn MAX_SPOTIFY_TRACKS (queries_of playlist_track catalog))).
Proof.
  intros Hfuel. unfold collect_queries, serve_playlist.
  rewrite page_loop_paged; [reflexivity|lia| |lia].
  unfold MAX_SPOTIFY_TRACKS. cbn [length]. lia.
Qed.

Lemma firstn_cap_nonempty (A : Type) (l : list A) :
  l <> [] -> firstn MAX_SPOTIFY_TRACKS l <> [].
Proof. destruct l; [congruence|]. discriminate. Qed.

(** C4, as amended: a playlist is expanded, whatever its length, to the
    queries of its first 25 entries with a usable title, in catalog order;
    entries without one are skipped; with no usable entry at all the
    expansion fails with [NoPlayableTracks]. A playlist of 29 usable
    entries therefore yields 25 queries. *)
Theorem playlist_expansion_capped
    (cached : bool) (url rid : string) (catalog : list (option Item))
    (fuel : nat) :
  fst (get_spotify_client client_id client_secret cached) = Ok tt ->
  parse_spotify_url url = Ok (KPlaylist, rid) ->
  length catalog <= 100 * S fuel ->
  let expansion :=
    fst (spotify_queries_from_url sp_track sp_album_tracks
           (serve_playlist catalog) client_id client_secret cached
           (S fuel) url) in
  let titled := queries_of playlist_track catalog in
  expansion = Some (match titled with
                    | [] => Raise NoPlayableTracks
                    | _ => Ok (firstn MAX_SPOTIFY_TRACKS titled)
                    end)
  /\ length titled = length (filter (usable playlist_track) catalog)
  /\ (length titled = 29 ->
      exists queries, expansion = Some (Ok queries) /\ length queries = 25).
Proof.
  intros Hclient Hparse Hfuel expansion titled.
  assert (Hexp : expansion
                 = Some (match titled with
                         | [] => Raise NoPlayableTracks
                         | _ => Ok (firstn MAX_SPOTIFY_TRACKS titled)
                         end)).
  { subst expansion. unfold spotify_queries_from_url.
    destruct (get_spotify_client client_id client_secret cached) as [[[]|e] c];
      cbn [fst] in *; [|discriminate].
    unfold queries_with_client. rewrite Hparse, collect_playlist by assumption.
    fold titled. destruct titled as [|q qs] eqn:Ht; [reflexivity|].
    destruct (firstn MAX_SPOTIFY_TRACKS (q :: qs)) eqn:Hf; [|reflexivity].
    exfalso. revert Hf. apply firstn_cap_nonempty. discriminate. }
  split; [exact Hexp|]. split; [apply queries_of_length|].
  intros H29. rewrite Hexp.
  destruct titled as [|q qs] eqn:Ht; [discriminate|].
  eexists. split; [reflexivity|].
  rewrite length_firstn, H29. reflexivity.
Qed.

End ExpansionFacts.

Lemma playlist_expansion_capped_witness :
  fst (Spotify.spotify_queries_from_url
         Spotify.no_track (Spotify.serve_album [])
         (Spotify.serve_playlist Demo.playlist30) (Some "id") (Some "secret")
         false 1 Demo.playlist_url)
  = Some (Ok (firstn MAX_SPOTIFY_TRACKS
                (Spotify.queries_of Spotify.playlist_track Demo.playlist30))).
Proof.
  destruct (@playlist_expansion_capped Spotify.no_track (Spotify.serve_album [])
              (Some "id") (Some "secret") false Demo.playlist_url
              "37i9dQZF1DXcBWIGoYBM5M" Demo.playlist30 0) as [H _].
  - reflexivity.
  - reflexivity.
  - vm_compute. lia.
  - exact H.
Defined.

(** C4, as stated, fails: the playlist has 30 entries, entry 10 is the only
    one without a title, and the expansion has 25 queries, not 29. *)
Lemma playlist30_yields_25_not_29 :
  length Demo.playlist30 = 30
  /\ filter (fun it => negb (Spotify.usable Spotify.playlist_track it))
            Demo.playlist30 = [Demo.entry 10]
  /\ nth_error Demo.playlist30 9 = Some (Demo.entry 10)
  /\ exists queries,
       fst (Spotify.spotify_queries_from_url
              (sp_track Demo.env_ok) (sp_album_tracks Demo.env_ok)
              (sp_playlist_items Demo.env_ok)
              (SPOTIFY_CLIENT_ID Demo.env_ok) (SPOTIFY_CLIENT_SECRET Demo.env_ok)
              false 1 Demo.playlist_url)
       = Some (Ok queries)
       /\ length queries = 25 /\ length queries <> 29.
Proof.
  split; [reflexivity|]. split; [reflexivity|]. split; [reflexivity|].
  eexists. split; [vm_compute; reflexivity|].
  split; [reflexivity|cbn [length]; lia].
Qed.

(* ===================================================================== *)
(** * Resolver fallback *)
(* ===================================================================== *)

Section ResolverFacts.
Import Resolver.

Variable extract_info : options -> string -> result (option YdlInfo).
Variable oembed_title_of : string -> result (option string).

(** C3: when the YouTube attempt fails and the SoundCloud attempt fails
    too, [extract_song] raises the exception of the YouTube attempt; if
    that was a [DownloadError] classified as [PlatformBlocked], then
    [PlatformBlocked] is what is raised. *)
Theorem fallback_surfaces_primary_failure (query : string) (e1 e2 : exn) :
  _extract_with_options extract_info query YDL_OPTIONS = Raise e1 ->
  _extract_with_options extract_info
    (sc_query_of oembed_title_of query) SC_YDL_OPTIONS = Raise e2 ->
  extract_song extract_info oembed_title_of query = Raise e1
  /\ (forall m,
        extract_info YDL_OPTIONS query = Raise (DownloadError m) ->
        classify m = PlatformBlocked ->
        extract_song extract_info oembed_title_of query
        = Raise PlatformBlocked).
Proof.
  intros H1 H2.
  assert (Hsong : extract_song extract_info oembed_title_of query = Raise e1).
  { unfold extract_song, _extract. now rewrite H1, H2. }
  split; [exact Hsong|].
  intros m Hm Hc. rewrite Hsong. f_equal.
  unfold _extract_with_options in H1. rewrite Hm, Hc in H1. congruence.
Qed.

End ResolverFacts.

Lemma fallback_surfaces_primary_failure_witness :
  Resolver.extract_song Demo.blocked_extract_info (fun _ => Ok None)
    "https://www.youtube.com/watch?v=dQw4w9WgXcQ"
  = Raise Resolver.PlatformBlocked
  /\ Resolver._extract_with_options Demo.blocked_extract_info
       "scsearch1:https://www.youtube.com/watch?v=dQw4w9WgXcQ"
       Resolver.SC_YDL_OPTIONS
     = Raise (ValueError "No results found.").
Proof.
  split; [|reflexivity].
  destruct (@fallback_surfaces_primary_failure Demo.blocked_extract_info
              (fun _ => Ok None) "https://www.youtube.com/watch?v=dQw4w9WgXcQ"
              Resolver.PlatformBlocked (ValueError "No results found."))
    as [H _]; [reflexivity|reflexivity|exact H].
Defined.

(* ===================================================================== *)
(** * Voice connection manager *)
(* ===================================================================== *)

Section VoiceFacts.

Variable env : Env.

(** C8, as amended: with an existing voice client that reports connected,
    [ensure_voice] for a member in another channel raises the conflict
    error naming the occupied channel and changes nothing when the client
    is playing or paused, moves the client when it is neither, and returns
    the client as it is when the member is in the client's channel. *)
Theorem ensure_voice_connected_client
    (i : Interaction) (user : User) (requested : Channel)
    (w : World) (vc : VoiceClient) :
  i_guild i = true ->
  i_user i = Some user ->
  user_is_member user = true ->
  user_voice user = Some requested ->
  voice_client w = Some vc ->
  is_connected vc = true ->
  (channel_eqb (vc_channel vc) requested = false ->
   is_playing vc || is_paused vc = true ->
   ensure_voice env i w
   = Raised (RuntimeError
               ("I'm already active in **" ++ channel_name (vc_channel vc)
                ++ "**. Join that channel or use /leave first.")) w)
  /\ (channel_eqb (vc_channel vc) requested = false ->
      is_playing vc || is_paused vc = false ->
      ensure_voice env i w
      = Returned (with_channel requested vc)
          (set_voice_client (Some (with_channel requested vc)) w))
  /\ (channel_eqb (vc_channel vc) requested = true ->
      ensure_voice env i w = Returned vc w).
Proof.
  intros Hg Hu Hm Hv Hvc Hc. unfold ensure_voice, ChannelConflict, vc_move_to.
  rewrite Hg, Hu, Hm, Hv, Hvc, Hc. cbn [negb].
  repeat split; intros Hch; try intros Hact;
    rewrite Hch; cbn [negb]; rewrite ?Hact; reflexivity.
Qed.

End VoiceFacts.

Lemma ensure_voice_connected_client_witness :
  ensure_voice Demo.env_ok (Demo.member_in Demo.lounge) Demo.streaming
  = Raised (RuntimeError
              "I'm already active in **General**. Join that channel or use /leave first.")
      Demo.streaming.
Proof.
  destruct (@ensure_voice_connected_client Demo.env_ok
              (Demo.member_in Demo.lounge)
              {| user_id := 7%Z; user_is_member := true;
                 user_voice := Some Demo.lounge |}
              Demo.lounge Demo.streaming
              {| vc_channel := Demo.general; vc_connected := true;
                 vc_audio := Streaming "https://cdn.example/a" |})
    as [H _];
    [reflexivity|reflexivity|reflexivity|reflexivity|reflexivity|reflexivity|].
  apply H; reflexivity.
Defined.

(** C8, as stated, fails: a song requested from General streams when the
    gateway reports the connection lost; the guild still has its voice
    client, in General, playing. A request from Lounge is then not refused:
    the client is disconnected, which ends the stream, and a new client
    joins Lounge. *)
Lemma dropped_client_is_replaced_not_refused :
  active Demo.streaming_dropped = true
  /\ option_map vc_channel (voice_client Demo.streaming_dropped)
     = Some Demo.general
  /\ option_map is_connected (voice_client Demo.streaming_dropped) = Some false
  /\ channel_eqb Demo.general Demo.lounge = false
  /\ (forall w, ensure_voice Demo.env_ok (Demo.member_in Demo.lounge)
                  Demo.streaming_dropped
                <> Raised (ChannelConflict Demo.general) w)
  /\ exists vc' w',
       ensure_voice Demo.env_ok (Demo.member_in Demo.lounge)
         Demo.streaming_dropped = Returned vc' w'
       /\ vc_channel vc' = Demo.lounge
       /\ vc_audio vc' = Silent
       /\ disconnects (log w') = 1.
Proof.
  split; [reflexivity|]. split; [reflexivity|]. split; [reflexivity|].
  split; [reflexivity|].
  split; [intros w; vm_compute; discriminate|].
  do 2 eexists. split; [vm_compute; reflexivity|].
  repeat split.
Qed.

(* ===================================================================== *)
(** * The skip command *)
(* ===================================================================== *)

(** What [skip] does itself, up to the await of its reply: it changes
    neither the queue nor [now_playing] (nor the idle timer, the lock or
    the log). When something plays or is paused it stops the voice client's
    player, whose callback is then pending; otherwise it leaves the whole
    state as it is. *)
Lemma skip_own_effect (i : Interaction) (w : World) :
  let w' := world_of (skip i w) in
  queue w' = queue w
  /\ now_playing w' = now_playing w
  /\ idle_task w' = idle_task w /\ tasks w' = tasks w
  /\ lock_locked w' = lock_locked w /\ log w' = log w
  /\ (i_guild i = true -> active w = true ->
      skip i w = Returned "Skipped." (vc_stop w)
      /\ voice_client w' = option_map (with_audio Silent) (voice_client w)
      /\ callbacks w' = S (callbacks w))
  /\ (active w = false -> w' = w).
Proof.
  unfold skip, active.
  destruct (i_guild i); cbn [negb];
    [destruct (voice_client w) as [vc|] eqn:Hvc;
     [destruct (is_playing vc || is_paused vc) eqn:Hact|]|];
    cbn [world_of]; autorewrite with world;
    repeat split; try congruence; try discriminate.
  unfold vc_stop. rewrite Hvc.
  unfold is_playing, is_paused in Hact.
  destruct (vc_audio vc); [discriminate|reflexivity|reflexivity].
Qed.

(* ===================================================================== *)
(** * Invariants of a guild's history *)
(* ===================================================================== *)

(** A property of worlds that the elementary operations preserve is
    preserved by every command and every event. *)
Section Lifting.

Variable env : Env.
Variable I : World -> Prop.

Hypothesis I_vc_stop : forall w, I w -> I (vc_stop w).
Hypothesis I_vc_disconnect : forall w, I w -> I (vc_disconnect w).
Hypothesis I_vc_move_to : forall c w, I w -> I (vc_move_to c w).
Hypothesis I_connect :
  forall c b w, I w -> I (set_voice_client (Some (fresh_client c b)) w).
Hypothesis I_cancel : forall w, I w -> I (cancel_idle_disconnect w).
Hypothesis I_schedule : forall w, I w -> I (schedule_idle_disconnect w).
Hypothesis I_append : forall s w, I w -> I (append_song s w).
Hypothesis I_spotify : forall b w, I w -> I (set_spotify_client b w).
Hypothesis I_pause : forall w, I w -> I (on_voice pause_audio w).
Hypothesis I_resume : forall w, I w -> I (on_voice resume_audio w).
Hypothesis I_gateway : forall b w, I w -> I (on_voice (with_connected b) w).
Hypothesis I_callbacks : forall n w, I w -> I (set_callbacks n w).
Hypothesis I_clock : forall t w, I w -> I (set_clock t w).
Hypothesis I_finish :
  forall id w,
    I w -> I (set_tasks (update_nth id (with_status Finished) (tasks w)) w).
Hypothesis I_now_playing_none : forall w, I w -> I (set_now_playing None w).
Hypothesis I_play_next : forall w, I w -> I (world_of (play_next env w)).

Lemma bind_keeps (A B : Type) (o : outcome A) (k : A -> World -> outcome B) :
  I (world_of o) ->
  (forall a w, I w -> I (world_of (k a w))) ->
  I (world_of (bind o k)).
Proof. destruct o; cbn; auto. Qed.

Lemma catch_keeps (A : Type) (o : outcome A) (h : exn -> World -> outcome A) :
  I (world_of o) ->
  (forall e w, I w -> I (world_of (h e w))) ->
  I (world_of (catch o h)).
Proof. destruct o; cbn; auto. Qed.

Lemma connect_rounds_keeps (n k : nat) (last : option exn) (c : Channel) :
  forall w, I w -> I (world_of (connect_rounds env n k last c w)).
Proof.
  revert k last. induction n as [|n IH]; intros k last w Hw; cbn; [exact Hw|].
  destruct (gateway_connect env c k) as [[|]|e]; cbn; auto.
Qed.

Lemma ensure_voice_keeps (i : Interaction) (w : World) :
  I w -> I (world_of (ensure_voice env i w)).
Proof.
  intros Hw. unfold ensure_voice.
  destruct (i_guild i); cbn [negb]; [|exact Hw].
  destruct (i_user i) as [user|]; [|exact Hw].
  destruct (user_is_member user); cbn [negb]; [|exact Hw].
  destruct (user_voice user) as [c|]; [|exact Hw].
  destruct (voice_client w) as [vc|].
  - destruct (is_connected vc); cbn [negb].
    + destruct (channel_eqb (vc_channel vc) c); cbn [negb]; [exact Hw|].
      destruct (is_playing vc || is_paused vc); cbn; auto.
    + apply bind_keeps.
      * apply connect_rounds_keeps. auto.
      * intros vc' w' Hw'. destruct (is_connected vc'); cbn; exact Hw'.
  - apply bind_keeps.
    + now apply connect_rounds_keeps.
    + intros vc' w' Hw'. destruct (is_connected vc'); cbn; exact Hw'.
Qed.

Lemma join_keeps (i : Interaction) (w : World) :
  I w -> I (world_of (join env i w)).
Proof.
  intros Hw. unfold join. apply catch_keeps; [|auto].
  apply bind_keeps; [now apply ensure_voice_keeps|].
  intros vc w' Hw'. destruct (is_connected vc); cbn; auto.
Qed.

Lemma enqueue_resolved_keeps (i : Interaction) (qs : list string) :
  forall b w, I w -> I (snd (fold_left (enqueue_resolved env i) qs (b, w))).
Proof.
  induction qs as [|q qs IH]; intros b w Hw; [exact Hw|].
  cbn [fold_left]. unfold enqueue_resolved at 2.
  destruct (extract_song env q); apply IH; auto.
Qed.

Lemma play_keeps (fuel : nat) (i : Interaction) (query : string) (w : World) :
  I w -> I (world_of (play env fuel i query w)).
Proof.
  intros Hw. unfold play. apply catch_keeps; [|auto].
  apply bind_keeps; [now apply ensure_voice_keeps|].
  intros vc w1 Hw1. destruct (is_connected vc); cbn [negb]; [|exact Hw1].
  destruct (PyStr.contains "open.spotify.com/" (PyStr.lower query)).
  - apply bind_keeps.
    + unfold spotify_queries_from_url.
      destruct (Spotify.spotify_queries_from_url _ _ _ _ _ _ _ _)
        as [[[qs|e]|] c]; cbn; auto.
    + intros qs w2 Hw2.
      pose proof (enqueue_resolved_keeps i qs empty_batch Hw2) as Hf.
      destruct (fold_left (enqueue_resolved env i) qs (empty_batch, w2))
        as [b w3]. cbn [snd] in Hf.
      destruct (added b =? 0); [exact Hf|].
      apply bind_keeps; auto.
  - destruct (extract_song env query) as [song|e]; [|cbn; auto].
    apply bind_keeps; auto.
Qed.

Lemma skip_keeps (i : Interaction) (w : World) :
  I w -> I (world_of (skip i w)).
Proof.
  intros Hw. unfold skip. destruct (i_guild i); cbn [negb]; [|exact Hw].
  destruct (voice_client w) as [vc|]; [|exact Hw].
  destruct (is_playing vc || is_paused vc); cbn; auto.
Qed.

Lemma idle_disconnect_keeps (w : World) : I w -> I (_idle_disconnect w).
Proof.
  intros Hw. unfold _idle_disconnect.
  destruct (voice_client w) as [vc|]; [|exact Hw].
  destruct (_ && _); auto.
Qed.

Lemma wake_keeps (id : nat) (w : World) : I w -> I (wake id w).
Proof.
  intros Hw. unfold wake. destruct (nth_error (tasks w) id) as [t|]; [|exact Hw].
  destruct (_ && _); [|exact Hw]. apply idle_disconnect_keeps. auto.
Qed.

Lemma elapse_keeps (dt : nat) (w : World) : I w -> I (elapse dt w).
Proof.
  intros Hw. unfold elapse.
  generalize (seq 0 (length (tasks (set_clock (clock w + dt) w)))).
  assert (H : I (set_clock (clock w + dt) w)) by auto.
  revert H. generalize (set_clock (clock w + dt) w).
  intros w0 H0 ids. revert w0 H0.
  induction ids as [|id ids IH]; intros w0 H0; [exact H0|].
  cbn [fold_left]. apply IH. now apply wake_keeps.
Qed.

Lemma stream_ended_keeps (w : World) : I w -> I (stream_ended w).
Proof.
  intros Hw. unfold stream_ended. destruct (voice_client w) as [vc|]; [|exact Hw].
  destruct (is_playing vc); auto.
Qed.

Lemma run_callback_keeps (w : World) : I w -> I (run_callback env w).
Proof.
  intros Hw. unfold run_callback. destruct (callbacks w); auto.
Qed.

(** [stop] and [leave] also empty the queue. *)
Section Clearing.

Hypothesis I_clear : forall w, I w -> I (set_queue [] w).

Lemma stop_keeps (i : Interaction) (w : World) :
  I w -> I (world_of (stop i w)).
Proof.
  intros Hw. unfold stop. destruct (i_guild i); cbn [negb]; [|exact Hw].
  cbn [world_of].
  assert (H1 : I (set_now_playing None (set_queue [] w))) by auto.
  revert H1. generalize (set_now_playing None (set_queue [] w)).
  intros w1 H1. destruct (voice_client w1) as [vc|]; [|exact H1].
  destruct (is_connected vc), (is_playing vc || is_paused vc); auto.
Qed.

Lemma leave_keeps (i : Interaction) (w : World) :
  I w -> I (world_of (leave i w)).
Proof.
  intros Hw. unfold leave. destruct (i_guild i); cbn [negb]; [|exact Hw].
  destruct (voice_client w); cbn; auto.
Qed.

End Clearing.

Lemma step_keeps (ev : event) (w : World) :
  (clears_queue ev = true -> forall w', I w' -> I (set_queue [] w')) ->
  I w -> I (step env w ev).
Proof.
  intros Hclear Hw. destruct ev; cbn [step].
  - now apply join_keeps.
  - now apply play_keeps.
  - now apply skip_keeps.
  - apply stop_keeps; auto.
  - unfold show_queue. now destruct (i_guild i).
  - apply leave_keeps; auto.
  - now apply stream_ended_keeps.
  - now apply run_callback_keeps.
  - auto.
  - auto.
  - auto.
  - auto.
  - now apply elapse_keeps.
Qed.

Lemma run_keeps (evs : list event) :
  (existsb clears_queue evs = true -> forall w', I w' -> I (set_queue [] w')) ->
  forall w, I w -> I (run env evs w).
Proof.
  unfold run. induction evs as [|ev evs IH]; intros Hclear w Hw; [exact Hw|].
  cbn [fold_left]. cbn [existsb] in Hclear. apply IH.
  - intros H. apply Hclear. rewrite H. apply orb_true_r.
  - apply step_keeps; [|exact Hw].
    intros H. apply Hclear. now rewrite H.
Qed.

End Lifting.

(** ** The log *)

Lemma played_app (l1 l2 : list LogEntry) :
  played (l1 ++ l2) = (played l1 ++ played l2)%list.
Proof.
  induction l1 as [|e l1 IH]; [reflexivity|].
  destruct e; cbn; now rewrite IH.
Qed.

Lemma enqueued_app (l1 l2 : list LogEntry) :
  enqueued (l1 ++ l2) = (enqueued l1 ++ enqueued l2)%list.
Proof.
  induction l1 as [|e l1 IH]; [reflexivity|].
  destruct e; cbn; now rewrite IH.
Qed.

Lemma disconnects_app (l1 l2 : list LogEntry) :
  disconnects (l1 ++ l2) = disconnects l1 + disconnects l2.
Proof.
  induction l1 as [|e l1 IH]; [reflexivity|].
  destruct e; cbn; now rewrite IH.
Qed.

Lemma vc_disconnect_played w :
  played (log (vc_disconnect w)) = played (log w).
Proof.
  unfold vc_disconnect. destruct (voice_client w); [|reflexivity].
  cbn. rewrite played_app, Frame.vc_stop_log. cbn. apply app_nil_r.
Qed.

Lemma vc_disconnect_enqueued w :
  enqueued (log (vc_disconnect w)) = enqueued (log w).
Proof.
  unfold vc_disconnect. destruct (voice_client w); [|reflexivity].
  cbn. rewrite enqueued_app, Frame.vc_stop_log. cbn. apply app_nil_r.
Qed.

#[export] Hint Rewrite vc_disconnect_played vc_disconnect_enqueued
  played_app enqueued_app disconnects_app app_nil_r : world.

(** ** What one [play_next] does to the queue and the log *)

Section DriverEffects.

Variable env : Env.

Lemma vc_play_frame (song : Song) (w : World) :
  let w' := world_of (vc_play song w) in
  queue w' = queue w /\ now_playing w' = now_playing w
  /\ idle_task w' = idle_task w /\ tasks w' = tasks w
  /\ lock_locked w' = lock_locked w /\ clock w' = clock w
  /\ played (log w') = played (log w)
  /\ enqueued (log w') = enqueued (log w)
  /\ disconnects (log w') = disconnects (log w).
Proof.
  unfold vc_play. destruct (voice_client w) as [vc|]; [|cbn; tauto].
  destruct (is_connected vc); cbn [negb]; [|cbn; tauto].
  destruct (is_playing vc); cbn; [tauto|].
  autorewrite with world. cbn. autorewrite with world. rewrite Nat.add_0_r.
  tauto.
Qed.

Lemma release_world (A : Type) (o : outcome A) :
  world_of (release o) = world_of o
  \/ world_of (release o) = set_lock false (world_of o).
Proof. destruct o; cbn; auto. Qed.

(** Either the queue and the songs played are as before, or the head of
    the queue was popped and became [now_playing]. *)
Lemma play_next_effect (w : World) :
  let w' := world_of (play_next env w) in
  enqueued (log w') = enqueued (log w)
  /\ ((queue w' = queue w /\ played (log w') = played (log w))
      \/ exists song rest,
           queue w = song :: rest /\ queue w' = rest
           /\ played (log w') = (played (log w) ++ [song])%list
           /\ lock_locked w = false /\ active w = false).
Proof.
  rewrite play_next_flat_eq. unfold play_next_flat, active.
  destruct (voice_client w) as [vc|] eqn:Hvc; [|cbn; auto].
  destruct (lock_locked w) eqn:Hl; [cbn; auto|].
  destruct (is_playing vc || is_paused vc) eqn:Hact.
  { cbn [world_of]. world_simpl. auto. }
  destruct (queue w) as [|song rest] eqn:Hq.
  { cbn [world_of]. world_simpl. auto. }
  assert (Hd : queue (dequeued song rest w) = rest
               /\ played (log (dequeued song rest w))
                  = (played (log w) ++ [song])%list
               /\ enqueued (log (dequeued song rest w)) = enqueued (log w)).
  { unfold dequeued. world_simpl. cbn. now autorewrite with world. }
  destruct Hd as (Hd1 & Hd2 & Hd3).
  destruct (FFmpegPCMAudio env (stream_url song)).
  - pose proof (vc_play_frame song (dequeued song rest w)) as Hp.
    cbn zeta in Hp. destruct Hp as (P1 & _ & _ & _ & _ & _ & P2 & P3 & _).
    destruct (release_world (vc_play song (dequeued song rest w))) as [E|E];
      rewrite E; world_simpl; rewrite ?P1, ?P2, ?P3, ?Hd1, ?Hd2, ?Hd3;
      (split; [reflexivity|]); right; exists song, rest; auto.
  - cbn [world_of]. world_simpl. rewrite Hd1, Hd2, Hd3.
    split; [reflexivity|]. right. exists song, rest. auto.
Qed.

End DriverEffects.

(** ** FIFO *)

Section FifoFacts.

Variable env : Env.

Ltac fifo_op op :=
  unfold fifo, op; intros;
  repeat match goal with
         | |- context [match ?x with _ => _ end] => destruct x
         end;
  world_simpl; cbn [played enqueued]; world_simpl; auto.

Lemma fifo_vc_stop w : fifo w -> fifo (vc_stop w).
Proof. unfold fifo. now autorewrite with world. Qed.

Lemma fifo_vc_disconnect w : fifo w -> fifo (vc_disconnect w).
Proof. unfold fifo. now autorewrite with world. Qed.

Lemma fifo_vc_move_to c w : fifo w -> fifo (vc_move_to c w).
Proof. fifo_op vc_move_to. Qed.

Lemma fifo_cancel w : fifo w -> fifo (cancel_idle_disconnect w).
Proof. unfold fifo. now autorewrite with world. Qed.

Lemma fifo_schedule w : fifo w -> fifo (schedule_idle_disconnect w).
Proof. unfold fifo. now autorewrite with world. Qed.

Lemma fifo_append s w : fifo w -> fifo (append_song s w).
Proof.
  unfold fifo, append_song. intros H. world_simpl. cbn [played enqueued].
  world_simpl. now rewrite app_assoc, H.
Qed.

Lemma fifo_on_voice f w : fifo w -> fifo (on_voice f w).
Proof. fifo_op on_voice. Qed.

Lemma fifo_play_next w : fifo w -> fifo (world_of (play_next env w)).
Proof.
  unfold fifo. intros H.
  destruct (play_next_effect env w) as [He [[Hq Hp]|(song & rest & Hq & Hq' & Hp & _)]].
  - now rewrite He, Hq, Hp.
  - rewrite He, Hq', Hp, <- H, Hq, <- app_assoc. reflexivity.
Qed.

(** FIFO holds after every history that neither stops nor leaves. *)
Lemma fifo_run (evs : list event) :
  existsb clears_queue evs = false -> fifo (run env evs init).
Proof.
  intros Hno. apply run_keeps; auto using fifo_vc_stop, fifo_vc_disconnect,
    fifo_vc_move_to, fifo_cancel, fifo_schedule, fifo_append, fifo_on_voice,
    fifo_play_next.
  - congruence.
  - reflexivity.
Qed.

End FifoFacts.

(** ** The lock *)

Section LockFacts.

Variable env : Env.

Lemma inactive_silent (vc : VoiceClient) :
  is_playing vc || is_paused vc = false -> vc_audio vc = Silent.
Proof.
  unfold is_playing, is_paused. now destruct (vc_audio vc).
Qed.

Lemma silent_inactive (w : World) : silent w -> active w = false.
Proof.
  unfold silent, active, is_playing, is_paused.
  destruct (voice_client w) as [vc|]; [|reflexivity].
  now intros ->.
Qed.

Lemma lock_vc_stop w : lock_inv w -> lock_inv (vc_stop w).
Proof.
  unfold lock_inv, silent. intros _ _. autorewrite with world.
  now destruct (voice_client w).
Qed.

Lemma lock_vc_disconnect w : lock_inv w -> lock_inv (vc_disconnect w).
Proof. unfold lock_inv, silent. intros _ _. now autorewrite with world. Qed.

Lemma lock_vc_move_to c w : lock_inv w -> lock_inv (vc_move_to c w).
Proof.
  unfold lock_inv, silent, vc_move_to.
  destruct (voice_client w) as [vc|] eqn:E; [|now rewrite E].
  cbn. auto.
Qed.

Lemma lock_connect c b w :
  lock_inv w -> lock_inv (set_voice_client (Some (fresh_client c b)) w).
Proof. unfold lock_inv, silent. reflexivity. Qed.

Lemma lock_cancel w : lock_inv w -> lock_inv (cancel_idle_disconnect w).
Proof. unfold lock_inv, silent. now autorewrite with world. Qed.

Lemma lock_schedule w : lock_inv w -> lock_inv (schedule_idle_disconnect w).
Proof. unfold lock_inv, silent. now autorewrite with world. Qed.

Lemma lock_pause w : lock_inv w -> lock_inv (on_voice pause_audio w).
Proof.
  unfold lock_inv, silent, on_voice, pause_audio.
  destruct (voice_client w) as [vc|] eqn:E; [|now rewrite E].
  cbn. intros H L. rewrite (H L). cbn. auto.
Qed.

Lemma lock_resume w : lock_inv w -> lock_inv (on_voice resume_audio w).
Proof.
  unfold lock_inv, silent, on_voice, resume_audio.
  destruct (voice_client w) as [vc|] eqn:E; [|now rewrite E].
  cbn. intros H L. rewrite (H L). cbn. auto.
Qed.

Lemma lock_gateway b w : lock_inv w -> lock_inv (on_voice (with_connected b) w).
Proof.
  unfold lock_inv, silent, on_voice.
  destruct (voice_client w) as [vc|] eqn:E; [|now rewrite E].
  cbn. auto.
Qed.

Lemma release_vc_play_unlocked (song : Song) (w : World) :
  lock_locked (world_of (release (vc_play song w))) = false.
Proof.
  unfold vc_play. destruct (voice_client w) as [vc|]; [|reflexivity].
  destruct (is_connected vc); [|reflexivity].
  destruct (is_playing vc); reflexivity.
Qed.

Lemma lock_play_next w : lock_inv w -> lock_inv (world_of (play_next env w)).
Proof.
  intros H. rewrite play_next_flat_eq. unfold play_next_flat.
  destruct (voice_client w) as [vc|] eqn:Hvc; [|exact H].
  destruct (lock_locked w) eqn:Hl; [exact H|].
  destruct (is_playing vc || is_paused vc) eqn:Hact;
    [cbn; unfold lock_inv; cbn; discriminate|].
  destruct (queue w) as [|song rest];
    [cbn [world_of]; unfold lock_inv; cbn; discriminate|].
  destruct (FFmpegPCMAudio env (stream_url song)).
  - unfold lock_inv. now rewrite release_vc_play_unlocked.
  - unfold lock_inv, silent, dequeued. intros _. world_simpl. rewrite Hvc.
    now apply inactive_silent.
Qed.

(** Whenever the lock is held, nothing plays. *)
Lemma lock_inv_run (evs : list event) : lock_inv (run env evs init).
Proof.
  apply run_keeps; auto using lock_vc_stop, lock_vc_disconnect,
    lock_vc_move_to, lock_connect, lock_cancel, lock_schedule, lock_pause, lock_resume,
    lock_gateway, lock_play_next.
  unfold lock_inv. discriminate.
Qed.

Lemma active_unlocked (evs : list event) :
  active (run env evs init) = true -> lock_locked (run env evs init) = false.
Proof.
  intros Hact. destruct (lock_locked (run env evs init)) eqn:Hl; [|reflexivity].
  pose proof (silent_inactive _ (lock_inv_run evs Hl)). congruence.
Qed.

(** *** Once stuck, stuck for good *)

Variable w0 : World.

Ltac stuck_op :=
  unfold stuck_since; intros [L P]; world_simpl; cbn [played];
  world_simpl; auto.

Lemma stuck_vc_stop w : stuck_since w0 w -> stuck_since w0 (vc_stop w).
Proof. stuck_op. Qed.

Lemma stuck_vc_disconnect w :
  stuck_since w0 w -> stuck_since w0 (vc_disconnect w).
Proof. stuck_op. Qed.

Lemma stuck_vc_move_to c w :
  stuck_since w0 w -> stuck_since w0 (vc_move_to c w).
Proof. unfold vc_move_to. destruct (voice_client w); stuck_op. Qed.

Lemma stuck_cancel w :
  stuck_since w0 w -> stuck_since w0 (cancel_idle_disconnect w).
Proof. stuck_op. Qed.

Lemma stuck_schedule w :
  stuck_since w0 w -> stuck_since w0 (schedule_idle_disconnect w).
Proof. stuck_op. Qed.

Lemma stuck_append s w : stuck_since w0 w -> stuck_since w0 (append_song s w).
Proof. unfold append_song. stuck_op. Qed.

Lemma stuck_on_voice f w : stuck_since w0 w -> stuck_since w0 (on_voice f w).
Proof. unfold on_voice. destruct (voice_client w); stuck_op. Qed.

Lemma stuck_play_next w :
  stuck_since w0 w -> stuck_since w0 (world_of (play_next env w)).
Proof.
  intros [L P]. rewrite play_next_flat_eq. unfold play_next_flat.
  destruct (voice_client w); rewrite ?L; cbn; now split.
Qed.

Lemma stuck_run (evs : list event) :
  lock_locked w0 = true -> stuck_since w0 (run env evs w0).
Proof.
  intros L. apply run_keeps; auto using stuck_vc_stop, stuck_vc_disconnect,
    stuck_vc_move_to, stuck_cancel, stuck_schedule, stuck_append,
    stuck_on_voice, stuck_play_next.
  now split.
Qed.

End LockFacts.

(* ===================================================================== *)
(** * The playback driver *)
(* ===================================================================== *)

Section DriverClaims.

Variable env : Env.

Lemma dequeued_voice_client song rest w :
  voice_client (dequeued song rest w) = voice_client w.
Proof. unfold dequeued. now world_simpl. Qed.

Lemma dequeued_queue song rest w : queue (dequeued song rest w) = rest.
Proof. unfold dequeued. now world_simpl. Qed.

Lemma dequeued_now_playing song rest w :
  now_playing (dequeued song rest w) = Some song.
Proof. unfold dequeued. now world_simpl. Qed.

Lemma dequeued_lock song rest w : lock_locked (dequeued song rest w) = true.
Proof. unfold dequeued. now world_simpl. Qed.

Lemma dequeued_played song rest w :
  played (log (dequeued song rest w)) = (played (log w) ++ [song])%list.
Proof. unfold dequeued. world_simpl. cbn. now autorewrite with world. Qed.

(** C1: in every history without [stop] and [leave], the songs that
    became [now_playing], followed by the queue, are the songs enqueued, in
    the order of enqueueing; a call of [play_next] either leaves the queue
    and the played songs alone or pops the head of the queue and makes
    exactly it the next played song; and when nothing plays, the lock is
    free and the stream attaches, the head is [now_playing] on return. *)
Theorem now_playing_order_is_enqueue_order :
  (forall evs,
      existsb clears_queue evs = false ->
      let w := run env evs init in
      (played (log w) ++ queue w)%list = enqueued (log w))
  /\ (forall w,
        let w' := world_of (play_next env w) in
        (queue w' = queue w /\ played (log w') = played (log w))
        \/ exists song rest,
             queue w = song :: rest /\ queue w' = rest
             /\ played (log w') = (played (log w) ++ [song])%list)
  /\ (forall w vc song rest,
        voice_client w = Some vc ->
        is_connected vc = true ->
        is_playing vc || is_paused vc = false ->
        lock_locked w = false ->
        queue w = song :: rest ->
        FFmpegPCMAudio env (stream_url song) = Ok tt ->
        exists w',
          play_next env w = Returned tt w'
          /\ queue w' = rest
          /\ now_playing w' = Some song
          /\ voice_client w'
             = Some (with_audio (Streaming (stream_url song)) vc)).
Proof.
  split; [|split].
  - intros evs Hno. now apply fifo_run.
  - intros w. destruct (play_next_effect env w) as [_ [H|H]]; [now left|].
    right. destruct H as (song & rest & H1 & H2 & H3 & _).
    now exists song, rest.
  - intros w vc song rest Hvc Hc Hact Hl Hq Hff.
    rewrite play_next_flat_eq. unfold play_next_flat.
    rewrite Hvc, Hl, Hact, Hq, Hff.
    unfold vc_play. rewrite dequeued_voice_client, Hvc, Hc.
    apply orb_false_elim in Hact as [Hp _]. rewrite Hp. cbn [negb release].
    eexists. split; [reflexivity|].
    world_simpl.
    now rewrite dequeued_queue, dequeued_now_playing.
Qed.

(** *** Calling [play_next] while something plays *)

Lemma cancel_twice w :
  cancel_idle_disconnect (cancel_idle_disconnect w) = cancel_idle_disconnect w.
Proof. reflexivity. Qed.

Lemma relock_cancel w :
  lock_locked w = false ->
  set_lock false (cancel_idle_disconnect (set_lock true w))
  = cancel_idle_disconnect w.
Proof.
  destruct w as [v q np it l ts c cb sc lg]. cbn. intros ->.
  unfold cancel_idle_disconnect. cbn. now destruct it.
Qed.

Lemma play_next_active w :
  active w = true ->
  play_next env w
  = if lock_locked w then Suspended w
    else Returned tt (cancel_idle_disconnect w).
Proof.
  unfold active. intros Hact. rewrite play_next_flat_eq. unfold play_next_flat.
  destruct (voice_client w) as [vc|]; [|discriminate].
  destruct (lock_locked w) eqn:Hl; [reflexivity|].
  rewrite Hact. now rewrite relock_cancel.
Qed.

Lemma cancel_active w : active (cancel_idle_disconnect w) = active w.
Proof. unfold active. now autorewrite with world. Qed.

Lemma repeat_play_next_active (n : nat) :
  forall w,
    active w = true ->
    repeat_play_next env (S n) w
    = if lock_locked w then Suspended w
      else Returned tt (cancel_idle_disconnect w).
Proof.
  induction n as [|n IH]; intros w Hact.
  - cbn [repeat_play_next]. rewrite play_next_active by assumption.
    now destruct (lock_locked w).
  - change (repeat_play_next env (S (S n)) w)
      with (bind (play_next env w)
              (fun _ w' => repeat_play_next env (S n) w')).
    rewrite play_next_active by assumption.
    destruct (lock_locked w) eqn:Hl; [reflexivity|].
    cbn [bind]. rewrite IH by now rewrite cancel_active.
    now rewrite Frame.cancel_lock, Hl, cancel_twice.
Qed.

(** C2: while the voice client plays or is paused, any number of calls
    of [play_next] leaves [now_playing], the queue, the log and the voice
    client as they are; with the lock free, which it is in every state a
    history leads to, each call returns and the calls together only cancel
    the idle timer. *)
Theorem play_next_idempotent_while_active (w : World) (n : nat) :
  active w = true ->
  let w' := world_of (repeat_play_next env n w) in
  now_playing w' = now_playing w
  /\ queue w' = queue w
  /\ log w' = log w
  /\ voice_client w' = voice_client w
  /\ (lock_locked w = false ->
      repeat_play_next env (S n) w = Returned tt (cancel_idle_disconnect w)
      /\ idle_task (cancel_idle_disconnect w) = None)
  /\ (forall evs, w = run env evs init -> lock_locked w = false).
Proof.
  intros Hact w'.
  assert (Hw' : w' = w \/ w' = cancel_idle_disconnect w).
  { subst w'. destruct n as [|n]; [now left|].
    rewrite repeat_play_next_active by assumption.
    destruct (lock_locked w); cbn; auto. }
  repeat split.
  1-4: destruct Hw' as [->| ->]; now autorewrite with world.
  - rewrite repeat_play_next_active by assumption. now rewrite H.
  - intros evs ->. now apply active_unlocked.
Qed.

(** C9, what the code does: when the stream of the head of the queue
    cannot be attached, [play_next] clears [now_playing] and calls itself
    with [player.lock] still held; the inner call waits for the lock, so
    the call never returns, the lock stays held whatever happens next, no
    queued song becomes [now_playing] any more and every later
    [play_next] of a connected guild waits as well. *)
Theorem attach_failure_blocks_forever
    (w : World) (vc : VoiceClient) (song : Song) (rest : list Song)
    (e : exn) :
  voice_client w = Some vc ->
  is_playing vc || is_paused vc = false ->
  lock_locked w = false ->
  queue w = song :: rest ->
  FFmpegPCMAudio env (stream_url song) = Raise e ->
  exists w',
    play_next env w = Suspended w'
    /\ lock_locked w' = true
    /\ queue w' = rest
    /\ now_playing w' = None
    /\ played (log w') = (played (log w) ++ [song])%list
    /\ forall evs,
         let w'' := run env evs w' in
         lock_locked w'' = true
         /\ played (log w'') = played (log w')
         /\ (voice_client w'' <> None -> play_next env w'' = Suspended w'').
Proof.
  intros Hvc Hact Hl Hq Hff.
  rewrite play_next_flat_eq. unfold play_next_flat.
  rewrite Hvc, Hl, Hact, Hq, Hff.
  eexists. split; [reflexivity|].
  cbn [lock_locked queue now_playing log set_now_playing].
  rewrite dequeued_lock, dequeued_queue, dequeued_played.
  repeat split; try reflexivity.
  - apply (stuck_run env). cbn. apply dequeued_lock.
  - assert (Hs := @stuck_run env (set_now_playing None (dequeued song rest w))
                    evs (dequeued_lock song rest w)).
    destruct Hs as [_ Hs]. rewrite Hs. cbn. apply dequeued_played.
  - intros Hv.
    assert (Hs := @stuck_run env (set_now_playing None (dequeued song rest w))
                    evs (dequeued_lock song rest w)).
    destruct Hs as [Hs _].
    rewrite play_next_flat_eq. unfold play_next_flat.
    destruct (voice_client (run env evs _)); [|congruence].
    now rewrite Hs.
Qed.

End DriverClaims.

Lemma now_playing_order_is_enqueue_order_witness :
  (let w := run Demo.env_ok Demo.two_plays init in
   (played (log w) ++ queue w)%list = enqueued (log w))
  /\ exists w',
       play_next Demo.env_ok Demo.two_queued = Returned tt w'
       /\ queue w' = [Demo.song "b"]
       /\ now_playing w' = Some (Demo.song "a")
       /\ voice_client w'
          = Some (with_audio (Streaming (stream_url (Demo.song "a")))
                    Demo.idle_client).
Proof.
  destruct (now_playing_order_is_enqueue_order Demo.env_ok) as (H1 & _ & H3).
  split.
  - apply (H1 Demo.two_plays). reflexivity.
  - apply (H3 Demo.two_queued Demo.idle_client (Demo.song "a") [Demo.song "b"]);
      reflexivity.
Defined.

Lemma play_next_idempotent_while_active_witness :
  repeat_play_next Demo.env_ok 3 Demo.streaming
  = Returned tt (cancel_idle_disconnect Demo.streaming)
  /\ now_playing (world_of (repeat_play_next Demo.env_ok 2 Demo.streaming))
     = Some (Demo.song "a").
Proof.
  destruct (@play_next_idempotent_while_active Demo.env_ok Demo.streaming 2)
    as (Hnp & _ & _ & _ & Hret & _); [reflexivity|].
  split; [apply Hret; reflexivity|exact Hnp].
Defined.

Lemma attach_failure_blocks_forever_witness :
  exists w',
    play_next Demo.env_no_ffmpeg Demo.two_queued = Suspended w'
    /\ lock_locked w' = true
    /\ queue w' = [Demo.song "b"]
    /\ now_playing w' = None
    /\ played (log w') = [Demo.song "a"]
    /\ forall evs,
         let w'' := run Demo.env_no_ffmpeg evs w' in
         lock_locked w'' = true
         /\ played (log w'') = played (log w')
         /\ (voice_client w'' <> None ->
             play_next Demo.env_no_ffmpeg w'' = Suspended w'').
Proof.
  apply (@attach_failure_blocks_forever Demo.env_no_ffmpeg Demo.two_queued
           Demo.idle_client (Demo.song "a") [Demo.song "b"]
           (OtherException "ffmpeg was not found.")); reflexivity.
Defined.

(* ===================================================================== *)
(** * The stop command *)
(* ===================================================================== *)

Section StopClaims.

Variable env : Env.

Lemma schedule_armed w :
  armed_for (clock w + IDLE_TIMEOUT_SECONDS) (schedule_idle_disconnect w).
Proof.
  unfold armed_for, schedule_idle_disconnect.
  exists (length (tasks (cancel_idle_disconnect w))). split; [reflexivity|].
  cbn [tasks set_tasks set_idle_task].
  rewrite nth_error_app2, Nat.sub_diag by lia.
  now rewrite Frame.cancel_clock.
Qed.

Lemma silenced_inactive (vc : VoiceClient) :
  is_playing (with_audio Silent vc) || is_paused (with_audio Silent vc) = false.
Proof. reflexivity. Qed.

Lemma with_audio_silent (vc : VoiceClient) :
  vc_audio vc = Silent -> with_audio Silent vc = vc.
Proof. destruct vc as [c k a]. cbn. now intros ->. Qed.

Lemma stop_world (i : Interaction) (w : World) :
  i_guild i = true ->
  let w1 := world_of (stop i w) in
  queue w1 = [] /\ now_playing w1 = None
  /\ lock_locked w1 = lock_locked w /\ clock w1 = clock w
  /\ voice_client w1 = option_map (with_audio Silent) (voice_client w)
  /\ (voice_client w = None -> idle_task w1 = idle_task w /\ tasks w1 = tasks w).
Proof.
  intros Hg. unfold stop. rewrite Hg. cbn [negb world_of].
  cbn [voice_client set_now_playing set_queue].
  destruct (voice_client w) as [vc|] eqn:Hvc.
  - destruct (is_playing vc || is_paused vc) eqn:Hact, (is_connected vc);
      world_simpl; rewrite ?Hvc; cbn [option_map];
      repeat split; try discriminate; auto;
      now rewrite with_audio_silent by now apply inactive_silent.
  - cbn. rewrite Hvc. repeat split.
Qed.

(** C7, as amended: [stop] empties the queue and clears [now_playing];
    if the guild has a voice client and [player.lock] is free, the next
    [play_next] returns with the idle timer armed for
    [IDLE_TIMEOUT_SECONDS] later; if the guild has no voice client, the
    next [play_next] returns at once and arms nothing. *)
Theorem stop_then_play_next (i : Interaction) (w : World) :
  i_guild i = true ->
  let w1 := world_of (stop i w) in
  queue w1 = [] /\ now_playing w1 = None
  /\ (forall vc,
        voice_client w = Some vc ->
        lock_locked w = false ->
        exists w2,
          play_next env w1 = Returned tt w2
          /\ armed_for (clock w + IDLE_TIMEOUT_SECONDS) w2
          /\ queue w2 = [] /\ now_playing w2 = None)
  /\ (voice_client w = None ->
      play_next env w1 = Returned tt w1
      /\ idle_task w1 = idle_task w /\ tasks w1 = tasks w).
Proof.
  intros Hg w1.
  destruct (stop_world i w Hg) as (Hq & Hnp & Hl & Hc & Hv & Hnone).
  fold w1 in Hq, Hnp, Hl, Hc, Hv, Hnone.
  split; [exact Hq|]. split; [exact Hnp|]. split.
  - intros vc Hvc Hfree. rewrite Hvc in Hv. cbn in Hv.
    rewrite play_next_flat_eq. unfold play_next_flat.
    rewrite Hv, Hl, Hfree, silenced_inactive, Hq.
    eexists. split; [reflexivity|].
    split; [|split; now world_simpl].
    destruct (schedule_armed (set_now_playing None (set_lock true w1)))
      as (id & H1 & H2).
    exists id. cbn in H2. rewrite Hc in H2. now split.
  - intros Hvc. rewrite Hvc in Hv. cbn in Hv.
    rewrite play_next_flat_eq. unfold play_next_flat. rewrite Hv.
    split; [reflexivity|]. now apply Hnone.
Qed.

End StopClaims.

Lemma stop_then_play_next_witness :
  exists w2,
    play_next Demo.env_ok
      (world_of (stop (Demo.member_in Demo.general) Demo.streaming))
    = Returned tt w2
    /\ armed_for (clock Demo.streaming + IDLE_TIMEOUT_SECONDS) w2
    /\ queue w2 = [] /\ now_playing w2 = None.
Proof.
  destruct (@stop_then_play_next Demo.env_ok (Demo.member_in Demo.general)
              Demo.streaming) as (_ & _ & H & _); [reflexivity|].
  apply (H {| vc_channel := Demo.general; vc_connected := true;
              vc_audio := Streaming "https://cdn.example/a" |});
    reflexivity.
Defined.

(** C7, as stated, fails: a guild without voice client is stopped; the
    queue and [now_playing] are empty, and the next [play_next] returns
    without arming the idle timer. *)
Lemma stop_without_voice_client_arms_nothing :
  let w1 := world_of (stop (Demo.member_in Demo.general) init) in
  voice_client init = None
  /\ queue w1 = [] /\ now_playing w1 = None
  /\ play_next Demo.env_ok w1 = Returned tt w1
  /\ idle_task w1 = None /\ tasks w1 = []
  /\ ~ exists deadline, armed_for deadline (world_of (play_next Demo.env_ok w1)).
Proof.
  cbv zeta. repeat split.
  intros (d & id & H & _). discriminate H.
Qed.

(* ===================================================================== *)
(** * The lock and the queue *)
(* ===================================================================== *)

Section LockDiscipline.

Variable env : Env.

(** ** The observed run is the run *)

Lemma play_next_observed_fuel_fst (fuel : nat) :
  forall w, fst (play_next_observed_fuel env fuel w) = play_next_fuel env fuel w.
Proof.
  induction fuel as [|fuel IH]; intros w; [reflexivity|].
  cbn [play_next_observed_fuel play_next_fuel].
  destruct (voice_client w) as [vc|]; [|reflexivity].
  destruct (lock_locked w); [reflexivity|].
  destruct (is_playing vc || is_paused vc); [reflexivity|].
  destruct (queue (set_lock true w)) as [|song rest]; [reflexivity|].
  destruct (FFmpegPCMAudio env (stream_url song)); [reflexivity|].
  cbn [fst]. now rewrite IH.
Qed.

(** [play_next] pops at most once, and with the lock held. *)
Lemma play_next_observed_pops (w : World) :
  snd (play_next_observed env w)
  = match voice_client w with
    | None => []
    | Some vc =>
        if lock_locked w then []
        else if is_playing vc || is_paused vc then []
        else match queue w with
             | [] => []
             | song :: _ => [(song, true)]
             end
    end.
Proof.
  unfold play_next_observed. cbn [play_next_observed_fuel].
  destruct (voice_client w) as [vc|] eqn:Hvc; [|reflexivity].
  destruct (lock_locked w) eqn:Hl; [reflexivity|].
  destruct (is_playing vc || is_paused vc); [reflexivity|].
  cbn [queue set_lock lock_locked].
  destruct (queue w) as [|song rest] eqn:Hq; [reflexivity|].
  destruct (FFmpegPCMAudio env (stream_url song)); [reflexivity|].
  cbn [snd length play_next_observed_fuel].
  fold (dequeued song rest w).
  assert (Hv : voice_client (set_now_playing None (dequeued song rest w))
               = Some vc).
  { unfold dequeued. now world_simpl. }
  assert (Hk : lock_locked (set_now_playing None (dequeued song rest w))
               = true).
  { unfold dequeued. now world_simpl. }
  rewrite Hv, Hk. reflexivity.
Qed.

Lemma play_next_observed_spec (w : World) :
  let w' := world_of (play_next env w) in
  let pops := snd (play_next_observed env w) in
  Forall (fun p => snd p = true) pops
  /\ queue w = (map fst pops ++ queue w')%list
  /\ played (log w') = (played (log w) ++ map fst pops)%list.
Proof.
  cbv zeta. rewrite play_next_observed_pops, play_next_flat_eq.
  unfold play_next_flat.
  destruct (voice_client w) as [vc|] eqn:Hvc;
    [|cbn; rewrite app_nil_r; auto].
  destruct (lock_locked w) eqn:Hl; [cbn; rewrite app_nil_r; auto|].
  destruct (is_playing vc || is_paused vc) eqn:Hact.
  { cbn [world_of map app]. world_simpl. auto. }
  destruct (queue w) as [|song rest] eqn:Hq.
  { cbn [world_of map app]. world_simpl. auto. }
  assert (Hd : queue (dequeued song rest w) = rest
               /\ played (log (dequeued song rest w))
                  = (played (log w) ++ [song])%list).
  { unfold dequeued. world_simpl. cbn. now autorewrite with world. }
  destruct Hd as (Hd1 & Hd2). cbn [map fst app].
  split; [repeat constructor|].
  destruct (FFmpegPCMAudio env (stream_url song)).
  - pose proof (vc_play_frame song (dequeued song rest w)) as Hp.
    cbn zeta in Hp. destruct Hp as (P1 & _ & _ & _ & _ & _ & P2 & _).
    destruct (release_world (vc_play song (dequeued song rest w))) as [E|E];
      rewrite E; world_simpl; rewrite ?P1, ?P2, ?Hd1, ?Hd2; auto.
  - cbn [world_of]. world_simpl. rewrite Hd1, Hd2. auto.
Qed.

(** ** Who else writes the queue, and who touches the lock *)

Ltac frame_side :=
  intros;
  repeat match goal with H : _ /\ _ |- _ => destruct H end;
  unfold vc_move_to, on_voice, append_song;
  try match goal with
      | |- context [match voice_client ?w with _ => _ end] =>
          destruct (voice_client w)
      end;
  world_simpl; cbn [played]; world_simpl; auto.

(** An event in which [play_next] is not called pops nothing and leaves
    the lock as it is; it leaves the queue as it is or, for [stop] and
    [leave], empties it. *)
Lemma quiet_step (ev : event) (w : World) :
  advances ev = false ->
  played (log (step env w ev)) = played (log w)
  /\ lock_locked (step env w ev) = lock_locked w
  /\ (queue (step env w ev) = queue w
      \/ (clears_queue ev = true /\ queue (step env w ev) = [])).
Proof.
  intros Hev.
  set (I := fun w' : World =>
              played (log w') = played (log w)
              /\ lock_locked w' = lock_locked w /\ queue w' = queue w).
  set (J := fun w' : World =>
              played (log w') = played (log w)
              /\ lock_locked w' = lock_locked w).
  assert (HI : I w) by (unfold I; auto).
  assert (HJ : J w) by (unfold J; auto).
  assert (keep : forall w', I w' ->
                   played (log w') = played (log w)
                   /\ lock_locked w' = lock_locked w
                   /\ (queue w' = queue w
                       \/ (clears_queue ev = true /\ queue w' = []))).
  { intros w' (A & B & C). auto. }
  destruct ev; try discriminate Hev; cbn [step].
  - apply keep. apply (@join_keeps env I); unfold I; try exact HI; frame_side.
  - apply keep. apply (@skip_keeps I); unfold I; try exact HI; frame_side.
  - assert (Hs : J (world_of (stop i w)))
      by (apply (@stop_keeps J); unfold J; try exact HJ; frame_side).
    destruct Hs as (A & B). split; [exact A|]. split; [exact B|].
    destruct (i_guild i) eqn:Hg.
    + right. split; [reflexivity|]. now destruct (stop_world i w Hg).
    + left. unfold stop. now rewrite Hg.
  - apply keep. unfold show_queue. now destruct (i_guild i).
  - assert (Hs : J (world_of (leave i w)))
      by (apply (@leave_keeps J); unfold J; try exact HJ; frame_side).
    destruct Hs as (A & B). split; [exact A|]. split; [exact B|].
    unfold leave. destruct (i_guild i) eqn:Hg; cbn [negb]; [|now left].
    right. split; [reflexivity|].
    destruct (voice_client w); cbn [world_of]; now world_simpl.
  - apply keep. apply (@stream_ended_keeps I); unfold I; try exact HI; frame_side.
  - apply keep. unfold I. frame_side.
  - apply keep. unfold I. frame_side.
  - apply keep. unfold I. frame_side.
  - apply keep. unfold I. frame_side.
  - apply keep. apply (@elapse_keeps I); unfold I; try exact HI; frame_side.
Qed.

Lemma world_of_reported (A B : Type) (o : outcome A)
    (k : A -> World -> outcome B) :
  (forall a w, world_of (k a w) = w) ->
  world_of (bind o k) = world_of o.
Proof. intros H. destruct o; cbn; auto. Qed.

Lemma world_of_caught (A : Type) (o : outcome A)
    (h : exn -> World -> outcome A) :
  (forall e w, world_of (h e w) = w) ->
  world_of (catch o h) = world_of o.
Proof. intros H. destruct o; cbn; auto. Qed.

(** What [play] writes itself is appended, whatever the lock's state, and
    the lock stays as it is; after that it calls [play_next] or gives up. *)
Lemma play_accounting (fuel : nat) (i : Interaction) (query : string)
    (w : World) :
  exists songs w_mid,
    queue w_mid = (queue w ++ songs)%list
    /\ played (log w_mid) = played (log w)
    /\ lock_locked w_mid = lock_locked w
    /\ (world_of (play env fuel i query w) = w_mid
        \/ world_of (play env fuel i query w) = world_of (play_next env w_mid)).
Proof.
  set (I := fun w' : World =>
              queue w' = queue w
              /\ played (log w') = played (log w)
              /\ lock_locked w' = lock_locked w).
  set (P := fun wf : World =>
              exists songs w_mid,
                queue w_mid = (queue w ++ songs)%list
                /\ played (log w_mid) = played (log w)
                /\ lock_locked w_mid = lock_locked w
                /\ (wf = w_mid \/ wf = world_of (play_next env w_mid))).
  change (P (world_of (play env fuel i query w))).
  assert (H1 : I (world_of (ensure_voice env i w)))
    by (apply (@ensure_voice_keeps env I); unfold I; auto; frame_side).
  assert (no_append : forall w', I w' -> P w').
  { intros w' (A & B & C). exists [], w'. rewrite app_nil_r. auto. }
  unfold play. rewrite world_of_caught by reflexivity.
  destruct (ensure_voice env i w) as [vc w1|e w1|w1|w1];
    cbn [bind world_of] in H1 |- *; try (apply no_append; exact H1).
  destruct (is_connected vc); cbn [negb]; [|apply no_append; exact H1].
  assert (H2 : I (cancel_idle_disconnect w1)) by (unfold I in *; frame_side).
  revert H2. generalize (cancel_idle_disconnect w1). intros w2 H2.
  destruct (PyStr.contains "open.spotify.com/" (PyStr.lower query)).
  - unfold spotify_queries_from_url.
    destruct (Spotify.spotify_queries_from_url _ _ _ _ _ _ _ _)
      as [[[qs|e]|] c]; cbn [bind world_of].
    + assert (H3 : exists songs,
                 queue (snd (fold_left (enqueue_resolved env i) qs
                               (empty_batch, set_spotify_client c w2)))
                 = (queue w ++ songs)%list
                 /\ played (log (snd (fold_left (enqueue_resolved env i) qs
                                        (empty_batch, set_spotify_client c w2))))
                    = played (log w)
                 /\ lock_locked (snd (fold_left (enqueue_resolved env i) qs
                                        (empty_batch, set_spotify_client c w2)))
                    = lock_locked w).
      { apply (@enqueue_resolved_keeps env
                 (fun w' => exists songs,
                      queue w' = (queue w ++ songs)%list
                      /\ played (log w') = played (log w)
                      /\ lock_locked w' = lock_locked w)).
        - intros s w' (songs & A & B & C). exists (songs ++ [s])%list.
          unfold append_song. world_simpl. cbn [played]. world_simpl.
          rewrite A, app_assoc. auto.
        - destruct H2 as (A & B & C). exists []. rewrite app_nil_r.
          world_simpl. auto. }
      destruct (fold_left (enqueue_resolved env i) qs
                  (empty_batch, set_spotify_client c w2)) as [b w3].
      cbn [snd] in H3. destruct H3 as (songs & A & B & C).
      destruct (added b =? 0).
      * exists songs, w3. cbn [world_of]. auto.
      * rewrite world_of_reported by reflexivity. exists songs, w3. auto.
    + apply no_append. unfold I in *. frame_side.
    + apply no_append. unfold I in *. frame_side.
  - destruct (extract_song env query) as [song|e];
      [|apply no_append; exact H2].
    rewrite world_of_reported by reflexivity.
    exists [with_requester i song], (append_song (with_requester i song) w2).
    destruct H2 as (A & B & C). unfold append_song at 1 2 3.
    world_simpl. cbn [played]. world_simpl.
    split; [now rewrite A|]. split; [exact B|]. split; [exact C|].
    now right.
Qed.

(** C5, as amended: [play_next] pops the queue only inside
    [player.lock]: the run that lists its pops is the run itself, every pop
    it lists is made with the lock held, and the songs it lists are what
    [play_next] takes off the head of the queue and makes [now_playing];
    finding the lock held, it waits and changes nothing. Nothing else pops
    and nothing else touches the lock: an event in which [play_next] is not
    called leaves the songs played and the lock as they are, and the queue
    too unless it is [stop] or [leave], which empty it; the callback is a
    call of [play_next]; and [play] only appends before it calls
    [play_next]. These appends, for one song and for each song of a Spotify
    batch, and the clears of [stop] and [leave] neither wait for the lock
    nor take it: they are done whatever its state and leave it as it is. *)
Theorem queue_writes_and_the_lock :
  (forall w, fst (play_next_observed env w) = play_next env w)
  /\ (forall w,
        let w' := world_of (play_next env w) in
        let pops := snd (play_next_observed env w) in
        Forall (fun p => snd p = true) pops
        /\ queue w = (map fst pops ++ queue w')%list
        /\ played (log w') = (played (log w) ++ map fst pops)%list)
  /\ (forall w,
        voice_client w <> None -> lock_locked w = true ->
        play_next env w = Suspended w
        /\ snd (play_next_observed env w) = [])
  /\ (forall ev w,
        advances ev = false ->
        played (log (step env w ev)) = played (log w)
        /\ lock_locked (step env w ev) = lock_locked w
        /\ (queue (step env w ev) = queue w
            \/ (clears_queue ev = true /\ queue (step env w ev) = [])))
  /\ (forall w,
        step env w RunCallback = w
        \/ exists n,
             step env w RunCallback
             = world_of (play_next env (set_callbacks n w)))
  /\ (forall fuel i query w,
        exists songs w_mid,
          queue w_mid = (queue w ++ songs)%list
          /\ played (log w_mid) = played (log w)
          /\ lock_locked w_mid = lock_locked w
          /\ (step env w (CmdPlay fuel i query) = w_mid
              \/ step env w (CmdPlay fuel i query)
                 = world_of (play_next env w_mid)))
  /\ (forall i b w q,
        let st := enqueue_resolved env i (b, w) q in
        lock_locked (snd st) = lock_locked w
        /\ forall song,
             extract_song env q = Ok song ->
             queue (snd st) = (queue w ++ [with_requester i song])%list)
  /\ (forall i w,
        i_guild i = true ->
        queue (world_of (stop i w)) = []
        /\ lock_locked (world_of (stop i w)) = lock_locked w
        /\ queue (world_of (leave i w)) = []
        /\ lock_locked (world_of (leave i w)) = lock_locked w).
Proof.
  split; [|split; [|split; [|split; [|split; [|split; [|split]]]]]].
  - intros w. apply play_next_observed_fuel_fst.
  - intros w. apply play_next_observed_spec.
  - intros w Hv Hl. split.
    + rewrite play_next_flat_eq. unfold play_next_flat.
      destruct (voice_client w); [|congruence]. now rewrite Hl.
    + rewrite play_next_observed_pops.
      destruct (voice_client w); [|congruence]. now rewrite Hl.
  - apply quiet_step.
  - intros w. cbn [step]. unfold run_callback.
    destruct (callbacks w) as [|n]; [now left|]. right. now exists n.
  - intros fuel i query w. cbn [step]. apply play_accounting.
  - intros i b w q. unfold enqueue_resolved.
    destruct (extract_song env q) as [song|e]; cbn.
    + split; [reflexivity|]. now intros s [= ->].
    + split; [reflexivity|]. discriminate.
  - intros i w Hg.
    destruct (stop_world i w Hg) as (Hq & _ & Hl & _).
    split; [exact Hq|]. split; [exact Hl|].
    unfold leave. rewrite Hg. cbn [negb].
    destruct (voice_client w); cbn [world_of]; world_simpl; now split.
Qed.

End LockDiscipline.

Lemma queue_writes_and_the_lock_witness :
  play_next Demo.env_no_ffmpeg Demo.wedged = Suspended Demo.wedged
  /\ queue (world_of (stop (Demo.member_in Demo.general) Demo.two_queued)) = []
  /\ played (log (step Demo.env_ok Demo.two_queued StreamEnded)) = [].
Proof.
  destruct (queue_writes_and_the_lock Demo.env_no_ffmpeg)
    as (_ & _ & H3 & _ & _ & _ & _ & H8).
  destruct (queue_writes_and_the_lock Demo.env_ok)
    as (_ & _ & _ & H4 & _).
  split; [|split].
  - apply H3; [discriminate|reflexivity].
  - apply (H8 (Demo.member_in Demo.general) Demo.two_queued). reflexivity.
  - apply (H4 StreamEnded Demo.two_queued). reflexivity.
Defined.

(** C5, as stated, fails. In the middle of a Spotify batch of two, after
    the first song is appended, the lock is free: a [play_next] run by
    another task at that point returns, having popped the first song, and
    the second song is appended afterwards. And in a guild whose lock is
    held by a waiting [play_next], a round of the batch appends its song all
    the same. *)
Lemma batch_is_appended_without_the_lock :
  let i := Demo.member_in Demo.general in
  let st1 := enqueue_resolved Demo.env_ok i (empty_batch, Demo.connected_idle)
               "x" in
  lock_locked (snd st1) = false
  /\ queue (snd st1) = [Demo.song "x"]
  /\ (exists w2,
        play_next Demo.env_ok (snd st1) = Returned tt w2
        /\ now_playing w2 = Some (Demo.song "x")
        /\ queue w2 = []
        /\ queue (snd (enqueue_resolved Demo.env_ok i (fst st1, w2) "y"))
           = [Demo.song "y"])
  /\ lock_locked Demo.wedged = true
  /\ queue Demo.wedged = []
  /\ queue (snd (enqueue_resolved Demo.env_ok i (empty_batch, Demo.wedged) "x"))
     = [Demo.song "x"].
Proof.
  cbv zeta. split; [reflexivity|]. split; [reflexivity|].
  split; [|repeat split].
  eexists. split; [vm_compute; reflexivity|]. repeat split.
Qed.

(* ===================================================================== *)
(** * The skip command, to its return *)
(* ===================================================================== *)

Section SkipAwait.

Variable env : Env.

(** An event that is no request, no callback, no [stop], no [leave] and no
    passing of time writes neither the queue nor [now_playing]. *)
Lemma calm_step (ev : event) (w : World) :
  leaves_player_alone ev = true ->
  queue (step env w ev) = queue w
  /\ now_playing (step env w ev) = now_playing w.
Proof.
  intros Hev.
  set (I := fun w' : World =>
              queue w' = queue w /\ now_playing w' = now_playing w).
  assert (HI : I w) by (unfold I; auto).
  assert (side : forall f w', I w' -> I (on_voice f w')).
  { intros f w' (A & B). unfold I, on_voice.
    now destruct (voice_client w'). }
  change (I (step env w ev)).
  destruct ev; try discriminate Hev; cbn [step]; auto.
  - apply (@join_keeps env I); try exact HI; unfold I; intros;
      repeat match goal with H : _ /\ _ |- _ => destruct H end;
      unfold vc_move_to;
      try match goal with
          | |- context [match voice_client ?w with _ => _ end] =>
              destruct (voice_client w)
          end;
      world_simpl; auto.
  - apply (@skip_keeps I); try exact HI; unfold I; intros;
      repeat match goal with H : _ /\ _ |- _ => destruct H end;
      world_simpl; auto.
  - unfold show_queue. now destruct (i_guild i).
  - apply (@stream_ended_keeps I); try exact HI; unfold I; intros;
      repeat match goal with H : _ /\ _ |- _ => destruct H end;
      world_simpl; auto.
Qed.

Lemma calm_run (evs : list event) :
  forall w,
    forallb leaves_player_alone evs = true ->
    queue (run env evs w) = queue w
    /\ now_playing (run env evs w) = now_playing w.
Proof.
  unfold run. induction evs as [|ev evs IH]; intros w H; [now split|].
  cbn [forallb] in H. apply andb_prop in H as [Hev Hevs].
  cbn [fold_left]. destruct (IH (step env w ev) Hevs) as (A & B).
  destruct (@calm_step ev w Hev) as (C & D). rewrite A, B. now split.
Qed.

(** C10, as amended: [skip] itself changes neither the queue nor
    [now_playing] (nor the idle timer, the lock or the log): when something
    plays or is paused it only stops the voice client's player, whose
    callback is then pending, and otherwise it leaves the whole state as it
    is. It returns after the await of its reply, in the state that the
    events run by the loop meanwhile lead to: the queue and [now_playing]
    are as before when [skip] returns if none of these events is a request,
    a callback, a [stop], a [leave] or a passing of time. *)
Theorem skip_stops_only_the_player
    (during : list event) (i : Interaction) (w : World) :
  let w1 := world_of (skip i w) in
  let w' := world_of (skip_until_return env during i w) in
  queue w1 = queue w
  /\ now_playing w1 = now_playing w
  /\ idle_task w1 = idle_task w /\ tasks w1 = tasks w
  /\ lock_locked w1 = lock_locked w /\ log w1 = log w
  /\ (i_guild i = true -> active w = true ->
      skip i w = Returned "Skipped." (vc_stop w)
      /\ voice_client w1 = option_map (with_audio Silent) (voice_client w)
      /\ callbacks w1 = S (callbacks w))
  /\ (active w = false -> w1 = w)
  /\ (exists reply,
        skip i w = Returned reply w1
        /\ skip_until_return env during i w
           = Returned reply (run env during w1))
  /\ (forallb leaves_player_alone during = true ->
      queue w' = queue w /\ now_playing w' = now_playing w).
Proof.
  cbv zeta.
  destruct (skip_own_effect i w) as (A & B & C & D & E & F & G & H).
  assert (R : exists reply,
            skip i w = Returned reply (world_of (skip i w))
            /\ skip_until_return env during i w
               = Returned reply (run env during (world_of (skip i w)))).
  { unfold skip_until_return, skip.
    destruct (i_guild i); cbn [negb]; [|eexists; split; reflexivity].
    destruct (voice_client w) as [vc|]; [|eexists; split; reflexivity].
    destruct (is_playing vc || is_paused vc); eexists; split; reflexivity. }
  split; [exact A|]. split; [exact B|]. split; [exact C|]. split; [exact D|].
  split; [exact E|]. split; [exact F|]. split; [exact G|]. split; [exact H|].
  split; [exact R|].
  intros Hcalm. destruct R as (reply & _ & ->). cbn [world_of].
  destruct (@calm_run during (world_of (skip i w)) Hcalm) as (Q & N).
  rewrite Q, N. now split.
Qed.

End SkipAwait.

Lemma skip_stops_only_the_player_witness :
  let i := Demo.member_in Demo.general in
  let w := set_queue [Demo.song "b"] Demo.streaming in
  let w' := world_of (skip_until_return Demo.env_ok [CmdQueue i; StreamEnded]
                        i w) in
  queue w' = [Demo.song "b"] /\ now_playing w' = Some (Demo.song "a").
Proof.
  apply (proj2 (proj2 (proj2 (proj2 (proj2 (proj2 (proj2 (proj2 (proj2
           (@skip_stops_only_the_player Demo.env_ok
              [CmdQueue (Demo.member_in Demo.general); StreamEnded]
              (Demo.member_in Demo.general)
              (set_queue [Demo.song "b"] Demo.streaming))))))))))).
  reflexivity.
Defined.

(** C10, as stated, fails. A song is streaming and another one is queued.
    [skip] stops the player and awaits the sending of its reply; the loop
    runs the [play_next] that the player's callback posted; when [skip]
    returns, the queued song has left the queue and is [now_playing]. *)
Lemma skip_returns_after_the_advance :
  let i := Demo.member_in Demo.general in
  let w := set_queue [Demo.song "b"] Demo.streaming in
  exists w',
    skip_until_return Demo.env_ok [RunCallback] i w = Returned "Skipped." w'
    /\ queue w = [Demo.song "b"] /\ queue w' = []
    /\ now_playing w = Some (Demo.song "a")
    /\ now_playing w' = Some (Demo.song "b").
Proof.
  cbv zeta. eexists. split; [vm_compute; reflexivity|]. repeat split.
Qed.

(* ===================================================================== *)
(** * The idle-disconnect scheduler *)
(* ===================================================================== *)

Section TaskFacts.

Lemma nth_error_update_nth (A : Type) (f : A -> A) (l : list A) :
  forall n m,
    nth_error (update_nth n f l) m
    = if m =? n then option_map f (nth_error l m) else nth_error l m.
Proof.
  induction l as [|x l IH]; intros n m.
  - destruct n, m; cbn; try reflexivity. now destruct (m =? n).
  - destruct n as [|n], m as [|m]; cbn; try reflexivity. apply IH.
Qed.

Lemma update_nth_length (A : Type) (f : A -> A) (l : list A) :
  forall n, length (update_nth n f l) = length l.
Proof.
  induction l as [|x l IH]; intros [|n]; cbn; auto.
Qed.

Lemma cancel_task_done (t : IdleTask) : done (cancel_task t) = true.
Proof. unfold cancel_task. destruct (done t) eqn:E; [exact E|reflexivity]. Qed.

Lemma wf_ext (w w' : World) :
  tasks w' = tasks w -> idle_task w' = idle_task w ->
  tasks_wf w -> tasks_wf w'.
Proof. unfold tasks_wf. intros -> ->. auto. Qed.

(** after a cancel every task is done *)
Lemma cancel_all_done (w : World) :
  tasks_wf w ->
  forall id t,
    nth_error (tasks (cancel_idle_disconnect w)) id = Some t -> done t = true.
Proof.
  unfold tasks_wf, cancel_idle_disconnect. intros Hwf id t.
  cbn [tasks set_idle_task].
  destruct (idle_task w) as [id0|] eqn:Hid; cbn [tasks set_tasks].
  - rewrite nth_error_update_nth.
    destruct (id =? id0) eqn:E.
    + destruct (nth_error (tasks w) id); cbn; [|discriminate].
      intros [= <-]. apply cancel_task_done.
    + intros Hn. destruct (done t) eqn:Hd; [reflexivity|].
      specialize (Hwf id t Hn Hd). injection Hwf as <-.
      now rewrite Nat.eqb_refl in E.
  - intros Hn. destruct (done t) eqn:Hd; [reflexivity|].
    now specialize (Hwf id t Hn Hd).
Qed.

Lemma wf_cancel w : tasks_wf w -> tasks_wf (cancel_idle_disconnect w).
Proof.
  intros Hwf id t Hn Hd.
  rewrite (cancel_all_done Hwf _ Hn) in Hd. discriminate.
Qed.

Lemma wf_schedule w : tasks_wf w -> tasks_wf (schedule_idle_disconnect w).
Proof.
  intros Hwf id t. unfold schedule_idle_disconnect.
  cbn [tasks idle_task set_tasks set_idle_task].
  destruct (Nat.lt_ge_cases id (length (tasks (cancel_idle_disconnect w))))
    as [Hlt|Hge].
  - rewrite nth_error_app1 by assumption. intros Hn Hd.
    rewrite (cancel_all_done Hwf _ Hn) in Hd. discriminate.
  - rewrite nth_error_app2 by assumption. intros Hn _.
    destruct (id - length (tasks (cancel_idle_disconnect w))) as [|k] eqn:E.
    + f_equal. lia.
    + destruct k; discriminate.
Qed.

Lemma wf_finish id w :
  tasks_wf w ->
  tasks_wf (set_tasks (update_nth id (with_status Finished) (tasks w)) w).
Proof.
  unfold tasks_wf. cbn [tasks idle_task set_tasks]. intros Hwf id' t.
  rewrite nth_error_update_nth. destruct (id' =? id).
  - destruct (nth_error (tasks w) id'); cbn; [|discriminate].
    intros [= <-]. discriminate.
  - apply Hwf.
Qed.

Lemma wf_vc_stop w : tasks_wf w -> tasks_wf (vc_stop w).
Proof. apply wf_ext; now autorewrite with world. Qed.

Lemma wf_vc_disconnect w : tasks_wf w -> tasks_wf (vc_disconnect w).
Proof. apply wf_ext; now autorewrite with world. Qed.

Lemma wf_vc_move_to c w : tasks_wf w -> tasks_wf (vc_move_to c w).
Proof. unfold vc_move_to. now destruct (voice_client w). Qed.

Lemma wf_on_voice f w : tasks_wf w -> tasks_wf (on_voice f w).
Proof. unfold on_voice. now destruct (voice_client w). Qed.

Variable env : Env.

Lemma wf_play_next w : tasks_wf w -> tasks_wf (world_of (play_next env w)).
Proof.
  intros Hwf. rewrite play_next_flat_eq. unfold play_next_flat.
  destruct (voice_client w) as [vc|]; [|exact Hwf].
  destruct (lock_locked w); [exact Hwf|].
  destruct (is_playing vc || is_paused vc).
  { cbn [world_of]. apply (wf_cancel (w := set_lock true w)). exact Hwf. }
  destruct (queue w) as [|song rest].
  { cbn [world_of].
    apply (wf_schedule (w := set_now_playing None (set_lock true w))).
    exact Hwf. }
  assert (Hd : tasks_wf (dequeued song rest w)).
  { unfold dequeued. apply wf_cancel. exact Hwf. }
  destruct (FFmpegPCMAudio env (stream_url song)); [|exact Hd].
  pose proof (vc_play_frame song (dequeued song rest w)) as Hp.
  cbn zeta in Hp. destruct Hp as (_ & _ & P1 & P2 & _).
  destruct (release_world (vc_play song (dequeued song rest w))) as [E|E];
    rewrite E; revert Hd; apply wf_ext; cbn; auto.
Qed.

(** In every state a history leads to, the only task that can still
    fire is the one [player.idle_task] holds. *)
Lemma tasks_wf_run (evs : list event) : tasks_wf (run env evs init).
Proof.
  apply run_keeps; auto using wf_vc_stop, wf_vc_disconnect, wf_vc_move_to,
    wf_cancel, wf_schedule, wf_finish, wf_on_voice, wf_play_next.
  intros id t. destruct id; discriminate.
Qed.

End TaskFacts.

Section ElapseFacts.

Lemma idle_disconnect_tasks w : tasks (_idle_disconnect w) = tasks w.
Proof.
  unfold _idle_disconnect. destruct (voice_client w) as [vc|]; [|reflexivity].
  destruct (_ && _); [|reflexivity]. cbn. now autorewrite with world.
Qed.

Lemma idle_disconnect_idle_task w :
  idle_task (_idle_disconnect w) = idle_task w.
Proof.
  unfold _idle_disconnect. destruct (voice_client w) as [vc|]; [|reflexivity].
  destruct (_ && _); [|reflexivity]. cbn. now autorewrite with world.
Qed.

Lemma wake_pending (id : nat) (w : World) (t : IdleTask) :
  nth_error (tasks w) id = Some t ->
  task_status t = Pending ->
  wake id w
  = if task_deadline t <=? clock w
    then _idle_disconnect
           (set_tasks (update_nth id (with_status Finished) (tasks w)) w)
    else w.
Proof.
  intros Hn Hp. unfold wake, done. now rewrite Hn, Hp.
Qed.

Lemma wake_done (id : nat) (w : World) :
  (forall t, nth_error (tasks w) id = Some t -> done t = true) ->
  wake id w = w.
Proof.
  intros H. unfold wake. destruct (nth_error (tasks w) id) as [t|]; [|reflexivity].
  now rewrite (H t eq_refl).
Qed.

Lemma wake_other (id0 id : nat) (w : World) :
  quiet_except id0 w -> id <> id0 -> wake id w = w.
Proof.
  intros Hq Hne. apply wake_done. intros t Hn.
  destruct (done t) eqn:Hd; [reflexivity|]. now specialize (Hq id t Hn Hd).
Qed.

Lemma wake_quiet (id0 id : nat) (w : World) :
  quiet_except id0 w -> quiet_except id0 (wake id w).
Proof.
  intros Hq. unfold wake.
  destruct (nth_error (tasks w) id) as [t|]; [|exact Hq].
  destruct (_ && _); [|exact Hq].
  intros id' t'. rewrite idle_disconnect_tasks. cbn [tasks set_tasks].
  rewrite nth_error_update_nth. destruct (id' =? id).
  - destruct (nth_error (tasks w) id'); cbn; [|discriminate].
    intros [= <-]. discriminate.
  - apply Hq.
Qed.

Lemma fold_wake_skip (id0 : nat) (ids : list nat) :
  forall w,
    quiet_except id0 w -> ~ In id0 ids ->
    fold_left (fun w id => wake id w) ids w = w.
Proof.
  induction ids as [|id ids IH]; intros w Hq Hni; [reflexivity|].
  cbn [fold_left]. rewrite (wake_other (id0 := id0)); [|exact Hq|].
  - apply IH; [exact Hq|]. intros Hin. apply Hni. now right.
  - intros ->. apply Hni. now left.
Qed.

Lemma fold_wake_hit (id0 : nat) (ids : list nat) :
  forall w,
    quiet_except id0 w -> NoDup ids -> In id0 ids ->
    fold_left (fun w id => wake id w) ids w = wake id0 w.
Proof.
  induction ids as [|id ids IH]; intros w Hq Hnd Hin; [destruct Hin|].
  cbn [fold_left]. inversion Hnd as [|? ? Hni Hnd']; subst.
  destruct (Nat.eq_dec id id0) as [->|Hne].
  - apply fold_wake_skip with (id0 := id0); [|exact Hni].
    now apply wake_quiet.
  - rewrite (wake_other (id0 := id0)) by assumption.
    apply IH; try assumption. destruct Hin; [congruence|assumption].
Qed.

(** With at most the idle task pending, time passing wakes that task and
    nothing else. *)
Lemma elapse_wf (dt : nat) (w : World) :
  tasks_wf w ->
  elapse dt w
  = match idle_task w with
    | Some id0 => wake id0 (set_clock (clock w + dt) w)
    | None => set_clock (clock w + dt) w
    end.
Proof.
  intros Hwf. unfold elapse. cbn [tasks set_clock].
  destruct (idle_task w) as [id0|] eqn:Hid.
  - assert (Hq : quiet_except id0 (set_clock (clock w + dt) w)).
    { intros id t Hn Hd. specialize (Hwf id t Hn Hd). congruence. }
    destruct (Nat.lt_ge_cases id0 (length (tasks w))) as [Hlt|Hge].
    + apply fold_wake_hit; [exact Hq|apply seq_NoDup|].
      apply in_seq. lia.
    + rewrite fold_wake_skip with (id0 := id0); [|exact Hq|].
      * symmetry. apply wake_done. intros t Hn. cbn in Hn.
        apply nth_error_None in Hge. congruence.
      * rewrite in_seq. lia.
  - apply fold_wake_skip with (id0 := length (tasks w)).
    + intros id t Hn Hd. specialize (Hwf id t Hn Hd). congruence.
    + rewrite in_seq. lia.
Qed.

Lemma wf_elapse (dt : nat) (w : World) : tasks_wf w -> tasks_wf (elapse dt w).
Proof.
  intros Hwf. apply elapse_keeps; auto using wf_vc_disconnect, wf_finish.
Qed.

End ElapseFacts.

Section IdleClaims.

Lemma idle_disconnect_when_idle (w : World) :
  idle w = true -> _idle_disconnect w = set_now_playing None (vc_disconnect w).
Proof.
  unfold idle, _idle_disconnect. destruct (voice_client w); [|discriminate].
  now intros ->.
Qed.

Lemma idle_disconnect_when_busy (w : World) :
  idle w = false -> _idle_disconnect w = w.
Proof.
  unfold idle, _idle_disconnect. destruct (voice_client w); [|reflexivity].
  now intros ->.
Qed.

Lemma vc_disconnect_counts (w : World) :
  voice_client w <> None ->
  disconnects (log (vc_disconnect w)) = S (disconnects (log w)).
Proof.
  unfold vc_disconnect. destruct (voice_client w); [|congruence]. intros _.
  cbn [log record set_voice_client]. rewrite disconnects_app, Frame.vc_stop_log.
  cbn. lia.
Qed.

Lemma playing_not_idle (w : World) (vc : VoiceClient) :
  voice_client w = Some vc -> is_playing vc = true -> idle w = false.
Proof.
  unfold idle. intros -> ->. cbn. now rewrite andb_false_r.
Qed.

(** the armed timer, looked at [dt] seconds later *)
Lemma armed_elapse (w : World) (dt : nat) :
  tasks_wf w ->
  exists id t,
    idle_task (schedule_idle_disconnect w) = Some id
    /\ nth_error (tasks (schedule_idle_disconnect w)) id = Some t
    /\ task_status t = Pending
    /\ forall w1,
         tasks w1 = tasks (schedule_idle_disconnect w) ->
         idle_task w1 = idle_task (schedule_idle_disconnect w) ->
         clock w1 = clock w ->
         elapse dt w1
         = if IDLE_TIMEOUT_SECONDS <=? dt
           then _idle_disconnect
                  (set_tasks (update_nth id (with_status Finished) (tasks w1))
                     (set_clock (clock w1 + dt) w1))
           else set_clock (clock w1 + dt) w1.
Proof.
  intros Hwf. destruct (schedule_armed w) as (id & Hid & Hn).
  exists id, {| task_deadline := clock w + IDLE_TIMEOUT_SECONDS;
                task_status := Pending |}.
  split; [exact Hid|]. split; [exact Hn|]. split; [reflexivity|].
  intros w1 Ht Hi Hc.
  assert (Hwf1 : tasks_wf w1).
  { apply wf_ext with (w := schedule_idle_disconnect w); auto.
    now apply wf_schedule. }
  rewrite (elapse_wf dt Hwf1), Hi, Hid.
  rewrite wake_pending
    with (t := {| task_deadline := clock w + IDLE_TIMEOUT_SECONDS;
                  task_status := Pending |});
    [|cbn [tasks set_clock]; now rewrite Ht|reflexivity].
  cbn [task_deadline clock set_clock]. rewrite Hc.
  destruct (IDLE_TIMEOUT_SECONDS <=? dt) eqn:E.
  - apply Nat.leb_le in E.
    assert (E' : (clock w + IDLE_TIMEOUT_SECONDS <=? clock w + dt) = true)
      by (apply Nat.leb_le; lia).
    now rewrite E'.
  - apply Nat.leb_gt in E.
    assert (E' : (clock w + IDLE_TIMEOUT_SECONDS <=? clock w + dt) = false)
      by (apply Nat.leb_gt; lia).
    now rewrite E'.
Qed.

Lemma idle_timer_wf (w : World) :
  tasks_wf w ->
  let armed := schedule_idle_disconnect w in
  armed_for (clock w + IDLE_TIMEOUT_SECONDS) armed
  /\ (forall dt,
        dt < IDLE_TIMEOUT_SECONDS ->
        voice_client (elapse dt armed) = voice_client w
        /\ disconnects (log (elapse dt armed)) = disconnects (log w))
  /\ (forall dt1 dt2,
        dt1 < IDLE_TIMEOUT_SECONDS ->
        let w' := elapse dt2 (cancel_idle_disconnect (elapse dt1 armed)) in
        disconnects (log w') = disconnects (log w)
        /\ voice_client w' = voice_client w
        /\ now_playing w' = now_playing w)
  /\ (forall dt,
        IDLE_TIMEOUT_SECONDS <= dt ->
        idle w = true ->
        let w' := elapse dt armed in
        voice_client w' = None
        /\ now_playing w' = None
        /\ disconnects (log w') = S (disconnects (log w))
        /\ forall dt', disconnects (log (elapse dt' w')) = S (disconnects (log w)))
  /\ (forall dt vc,
        is_playing vc = true ->
        let w' := elapse dt (set_voice_client (Some vc) armed) in
        voice_client w' = Some vc
        /\ disconnects (log w') = disconnects (log w)
        /\ now_playing w' = now_playing w).
Proof.
  intros Hwf armed.
  assert (Hwfa : tasks_wf armed) by now apply wf_schedule.
  split; [apply schedule_armed|].
  assert (Hearly : forall dt, dt < IDLE_TIMEOUT_SECONDS ->
            elapse dt armed = set_clock (clock armed + dt) armed).
  { intros dt Hdt. destruct (armed_elapse dt Hwf) as (id & t & _ & _ & _ & H).
    rewrite (H armed) by (subst armed; now autorewrite with world).
    apply Nat.leb_gt in Hdt. now rewrite Hdt. }
  split; [|split; [|split]].
  - intros dt Hdt. rewrite Hearly by assumption. subst armed.
    world_simpl. now split.
  - intros dt1 dt2 Hdt w'. subst w'. rewrite Hearly by assumption.
    rewrite elapse_wf.
    + cbn [idle_task cancel_idle_disconnect set_idle_task].
      subst armed. world_simpl. repeat split.
    + apply wf_cancel. revert Hwfa. now apply wf_ext.
  - intros dt Hdt Hidle w'.
    destruct (armed_elapse dt Hwf) as (id & t & Hid & Hn & Hp & H).
    fold armed in Hid, Hn, H.
    assert (Ew' : w' = set_now_playing None
                        (vc_disconnect
                           (set_tasks
                              (update_nth id (with_status Finished) (tasks armed))
                              (set_clock (clock armed + dt) armed)))).
    { subst w'. rewrite (H armed) by (subst armed; now autorewrite with world).
      apply Nat.leb_le in Hdt. rewrite Hdt.
      apply idle_disconnect_when_idle.
      unfold idle in *. cbn [voice_client queue set_tasks set_clock].
      subst armed. now autorewrite with world. }
    assert (Hv : voice_client w <> None).
    { unfold idle in Hidle. destruct (voice_client w); [discriminate|congruence]. }
    assert (Hd : disconnects (log w') = S (disconnects (log w))).
    { rewrite Ew'. cbn [log set_now_playing]. rewrite vc_disconnect_counts.
      - cbn [log set_tasks set_clock]. subst armed. now autorewrite with world.
      - cbn [voice_client set_tasks set_clock]. subst armed.
        now autorewrite with world. }
    split; [rewrite Ew'; now world_simpl|].
    split; [rewrite Ew'; reflexivity|]. split; [exact Hd|].
    intros dt'. rewrite <- Hd.
    assert (Hwf' : tasks_wf w') by (subst w'; now apply wf_elapse).
    rewrite (elapse_wf dt' Hwf').
    assert (Hi' : idle_task w' = Some id).
    { rewrite Ew'. world_simpl. exact Hid. }
    rewrite Hi', wake_done; [reflexivity|].
    intros t'. rewrite Ew'. world_simpl.
    rewrite nth_error_update_nth, Nat.eqb_refl, Hn. cbn.
    now intros [= <-].
  - intros dt vc Hplay w'.
    destruct (armed_elapse dt Hwf) as (id & t & Hid & Hn & Hp & H).
    fold armed in Hid, Hn, H. subst w'.
    rewrite (H (set_voice_client (Some vc) armed))
      by (subst armed; cbn [tasks idle_task clock set_voice_client];
          now autorewrite with world).
    destruct (IDLE_TIMEOUT_SECONDS <=? dt).
    + rewrite idle_disconnect_when_busy
        by (now apply playing_not_idle with (vc := vc)).
      subst armed. world_simpl. repeat split.
    + subst armed. world_simpl. repeat split.
Qed.

Variable env : Env.

(** C6: from any state a history leads to, arm the idle timer. If it is
    cancelled before [IDLE_TIMEOUT_SECONDS] have passed, no disconnect
    happens, however much time passes then. If the time passes and the
    guild is still idle (voice client connected, not playing, not paused,
    queue empty) when the timer fires, the voice client is disconnected,
    once, and [now_playing] is cleared. If the voice client plays by then,
    though nobody cancelled the timer, no disconnect happens. *)
Theorem idle_timer_disconnects_once_if_still_idle (evs : list event) :
  let w := run env evs init in
  let armed := schedule_idle_disconnect w in
  armed_for (clock w + IDLE_TIMEOUT_SECONDS) armed
  /\ (forall dt,
        dt < IDLE_TIMEOUT_SECONDS ->
        voice_client (elapse dt armed) = voice_client w
        /\ disconnects (log (elapse dt armed)) = disconnects (log w))
  /\ (forall dt1 dt2,
        dt1 < IDLE_TIMEOUT_SECONDS ->
        let w' := elapse dt2 (cancel_idle_disconnect (elapse dt1 armed)) in
        disconnects (log w') = disconnects (log w)
        /\ voice_client w' = voice_client w
        /\ now_playing w' = now_playing w)
  /\ (forall dt,
        IDLE_TIMEOUT_SECONDS <= dt ->
        idle w = true ->
        let w' := elapse dt armed in
        voice_client w' = None
        /\ now_playing w' = None
        /\ disconnects (log w') = S (disconnects (log w))
        /\ forall dt', disconnects (log (elapse dt' w')) = S (disconnects (log w)))
  /\ (forall dt vc,
        is_playing vc = true ->
        let w' := elapse dt (set_voice_client (Some vc) armed) in
        voice_client w' = Some vc
        /\ disconnects (log w') = disconnects (log w)
        /\ now_playing w' = now_playing w).
Proof.
  apply idle_timer_wf. apply tasks_wf_run.
Qed.

End IdleClaims.

Lemma idle_timer_disconnects_once_if_still_idle_witness :
  let w := run Demo.env_ok Demo.joined init in
  let armed := schedule_idle_disconnect w in
  disconnects (log (elapse 4500 (cancel_idle_disconnect (elapse 100 armed))))
  = disconnects (log w)
  /\ voice_client (elapse 3600 armed) = None
  /\ disconnects (log (elapse 3600 armed)) = S (disconnects (log w))
  /\ disconnects (log (elapse 4321 (elapse 3600 armed))) = S (disconnects (log w))
  /\ voice_client (elapse 4000 (set_voice_client (Some Demo.streaming_client) armed))
     = Some Demo.streaming_client.
Proof.
  destruct (idle_timer_disconnects_once_if_still_idle Demo.env_ok Demo.joined)
    as (_ & _ & Ha & Hb & Hc).
  split; [|split; [|split; [|split]]].
  - apply (Ha 100 4500). unfold IDLE_TIMEOUT_SECONDS. lia.
  - apply (Hb 3600); [unfold IDLE_TIMEOUT_SECONDS; lia|reflexivity].
  - apply (Hb 3600); [unfold IDLE_TIMEOUT_SECONDS; lia|reflexivity].
  - apply (Hb 3600); [unfold IDLE_TIMEOUT_SECONDS; lia|reflexivity].
  - apply (Hc 4000 Demo.streaming_client). reflexivity.
Defined.

(* ===================================================================== *)
(** * Spotify links and expansion, for every catalog API *)
(* ===================================================================== *)

Section LinkFacts.
Import Spotify SpotifyFacts.

Lemma take_while_id (id rest : string) :
  all_alnum id = true -> ends_id rest = true ->
  PyStr.take_while PyStr.is_alnum (id ++ rest) = id.
Proof.
  induction id as [|c id IH]; cbn [all_alnum append PyStr.take_while].
  - intros _. destruct rest as [|c r]; [reflexivity|].
    cbn [ends_id PyStr.take_while]. now intros ->%negb_true_iff.
  - intros [Hc Hid]%andb_prop Hrest. rewrite Hc. now rewrite IH.
Qed.

Lemma take_while_all_alnum (s : string) :
  all_alnum (PyStr.take_while PyStr.is_alnum s) = true.
Proof.
  induction s as [|c s IH]; [reflexivity|].
  cbn [PyStr.take_while]. destruct (PyStr.is_alnum c) eqn:E; [|reflexivity].
  cbn [all_alnum]. now rewrite E.
Qed.

Lemma drop_prefix_startswith (p s r : string) :
  PyStr.drop_prefix p s = Some r -> PyStr.startswith p s = true.
Proof.
  revert s. induction p as [|a p IH]; intros [|b s]; cbn; try discriminate;
    [reflexivity|reflexivity|].
  destruct (Ascii.eqb a b); [|discriminate]. apply IH.
Qed.

Lemma match_kind_id (k k' : kind) (s id : string) :
  match_kind k s = Some (k', id) ->
  PyStr.truthy id = true /\ all_alnum id = true.
Proof.
  unfold match_kind. destruct (PyStr.drop_prefix _ s) as [r|]; [|discriminate].
  destruct (PyStr.truthy (PyStr.take_while PyStr.is_alnum r)) eqn:E;
    [|discriminate].
  intros [= _ <-]. split; [exact E|apply take_while_all_alnum].
Qed.

Lemma re_search_sound (url : string) (k : kind) (id : string) :
  re_search url = Some (k, id) ->
  PyStr.contains "open.spotify.com/" url = true
  /\ PyStr.truthy id = true /\ all_alnum id = true.
Proof.
  induction url as [|c url IH]; cbn [re_search PyStr.contains].
  - cbn. discriminate.
  - destruct (match_here (String c url)) as [m|] eqn:Hm.
    + intros [= ->]. unfold match_here in Hm.
      destruct (PyStr.drop_prefix "open.spotify.com/" (String c url)) as [r|] eqn:Hd;
        [|discriminate].
      rewrite (drop_prefix_startswith _ _ Hd). split; [reflexivity|].
      destruct (match_kind KTrack r) as [m1|] eqn:H1.
      { injection Hm as ->. eapply match_kind_id; eauto. }
      destruct (match_kind KAlbum r) as [m2|] eqn:H2.
      { injection Hm as ->. eapply match_kind_id; eauto. }
      eapply match_kind_id; eauto.
    + intros H. destruct (IH H) as (H1 & H2 & H3).
      rewrite H1. now rewrite orb_true_r.
Qed.

(** X1: a link as Spotify shares it, [https://open.spotify.com/<kind>/<id>]
    followed by nothing or by something that does not start with a letter
    or digit (such as [?si=...]), parses to its kind and its id. *)
Theorem parse_spotify_link (k : kind) (id rest : string) :
  PyStr.truthy id = true ->
  all_alnum id = true ->
  ends_id rest = true ->
  parse_spotify_url (spotify_link k id rest) = Ok (k, id).
Proof.
  intros Ht Ha Hr. unfold parse_spotify_url, spotify_link.
  destruct k; cbn; rewrite take_while_id by assumption; now rewrite Ht.
Qed.

(** X2: [parse_spotify_url] accepts nothing that lacks
    [open.spotify.com/]: such a text raises the unsupported-link error; and
    an id it returns is never empty and has only letters and digits. *)
Theorem parse_spotify_url_sound (url : string) :
  (PyStr.contains "open.spotify.com/" url = false ->
   parse_spotify_url url
   = Raise (RuntimeError
              "Unsupported Spotify URL. Use track, album, or playlist links."))
  /\ (forall k id,
        parse_spotify_url url = Ok (k, id) ->
        PyStr.contains "open.spotify.com/" url = true
        /\ PyStr.truthy id = true /\ all_alnum id = true).
Proof.
  unfold parse_spotify_url. split.
  - intros Hc. destruct (re_search url) as [[k id]|] eqn:E; [|reflexivity].
    destruct (@re_search_sound url k id E) as [H _]. congruence.
  - intros k id. destruct (re_search url) as [m|] eqn:E; [|discriminate].
    intros [= ->]. exact (@re_search_sound url k id E).
Qed.

End LinkFacts.

Lemma parse_spotify_link_witness :
  Spotify.parse_spotify_url
    (spotify_link Spotify.KAlbum "4aawyAB9vmqN3uQ7FjRGTy" "?si=Qx1")
  = Ok (Spotify.KAlbum, "4aawyAB9vmqN3uQ7FjRGTy").
Proof.
  apply (@parse_spotify_link Spotify.KAlbum "4aawyAB9vmqN3uQ7FjRGTy" "?si=Qx1");
    reflexivity.
Defined.

Lemma parse_spotify_url_sound_witness :
  Spotify.parse_spotify_url "https://example.com/playlist/abc"
  = Raise (RuntimeError
             "Unsupported Spotify URL. Use track, album, or playlist links.")
  /\ PyStr.truthy "37i9dQZF1DXcBWIGoYBM5M" = true.
Proof.
  split.
  - apply (proj1 (parse_spotify_url_sound "https://example.com/playlist/abc")).
    reflexivity.
  - apply (proj2 (parse_spotify_url_sound Demo.playlist_url)
             Spotify.KPlaylist "37i9dQZF1DXcBWIGoYBM5M").
    reflexivity.
Defined.

Section ExpansionBounds.
Import Spotify SpotifyFacts.

Variable sp_track : string -> result (option Track).
Variable sp_album_tracks : string -> nat -> nat -> result (Page (option Track)).
Variable sp_playlist_items : string -> nat -> nat -> result (Page (option Item)).

Lemma add_query_nonempty (q : option string) (qs : list string) :
  Forall nonempty_query qs -> Forall nonempty_query (add_query q qs).
Proof.
  intros H. unfold add_query. destruct q as [s|]; [|exact H].
  destruct (PyStr.truthy s) eqn:E; [|exact H].
  apply Forall_app. split; [exact H|]. now constructor.
Qed.

Lemma scan_items_nonempty (A : Type) (f : A -> option Track) (items : list A) :
  forall qs,
    Forall nonempty_query qs -> Forall nonempty_query (scan_items f items qs).
Proof.
  induction items as [|it items IH]; intros qs H; [exact H|].
  cbn [scan_items].
  destruct (MAX_SPOTIFY_TRACKS <=? _); [|apply IH]; now apply add_query_nonempty.
Qed.

Lemma page_loop_bounds (A : Type) (fetch : nat -> result (Page A))
    (f : A -> option Track) (step : nat) :
  forall fuel offset qs r,
    length qs <= MAX_SPOTIFY_TRACKS ->
    Forall nonempty_query qs ->
    page_loop fetch f step fuel offset qs = Some (Ok r) ->
    length r <= MAX_SPOTIFY_TRACKS /\ Forall nonempty_query r.
Proof.
  induction fuel as [|fuel IH]; intros offset qs r Hlen Hne; [discriminate|].
  rewrite page_loop_unfold.
  destruct (length qs <? MAX_SPOTIFY_TRACKS) eqn:Hlt;
    [|intros [= <-]; now split].
  apply Nat.ltb_lt in Hlt.
  destruct (fetch offset) as [page|e]; [|discriminate].
  destruct (page_items page) as [|it items] eqn:Hitems;
    [intros [= <-]; now split|].
  assert (H1 : length (scan_items f (it :: items) qs) <= MAX_SPOTIFY_TRACKS)
    by now apply scan_items_length.
  assert (H2 : Forall nonempty_query (scan_items f (it :: items) qs))
    by now apply scan_items_nonempty.
  destruct (PyStr.otruthy (page_next page)).
  - now apply IH.
  - intros [= <-]. now split.
Qed.

(** X3: whatever the catalog API answers (any pages, any [next] markers)
    and for any kind of link, an expansion that returns has at least one
    query and at most [MAX_SPOTIFY_TRACKS], none of them empty. *)
Theorem expansion_bounds (client_id client_secret : option string)
    (cached : bool) (fuel : nat) (url : string) (queries : list string) :
  fst (spotify_queries_from_url sp_track sp_album_tracks sp_playlist_items
         client_id client_secret cached fuel url) = Some (Ok queries) ->
  1 <= length queries <= MAX_SPOTIFY_TRACKS
  /\ Forall (fun q => PyStr.truthy q = true) queries.
Proof.
  unfold spotify_queries_from_url.
  destruct (get_spotify_client client_id client_secret cached) as [[[]|e] c];
    cbn [fst]; [|discriminate].
  unfold queries_with_client.
  destruct (parse_spotify_url url) as [[k rid]|e]; [|discriminate].
  destruct (collect_queries sp_track sp_album_tracks sp_playlist_items fuel k rid)
    as [[qs|e]|] eqn:Hc; try discriminate.
  destruct qs as [|q qs]; [discriminate|]. intros [= <-].
  assert (H : length (q :: qs) <= MAX_SPOTIFY_TRACKS
              /\ Forall nonempty_query (q :: qs)).
  { destruct k; cbn [collect_queries] in Hc.
    - destruct (sp_track rid) as [track|e]; [|discriminate].
      injection Hc as Hc. rewrite <- Hc. split.
      + rewrite add_query_length. unfold MAX_SPOTIFY_TRACKS.
        destruct (PyStr.otruthy _); lia.
      + apply add_query_nonempty. constructor.
    - eapply page_loop_bounds; [| |exact Hc]; [cbn|constructor].
      unfold MAX_SPOTIFY_TRACKS. lia.
    - eapply page_loop_bounds; [| |exact Hc]; [cbn|constructor].
      unfold MAX_SPOTIFY_TRACKS. lia. }
  destruct H as [H1 H2]. split; [|exact H2].
  split; [cbn [length]; lia|exact H1].
Qed.

(** X4: an album is expanded like a playlist, in pages of 50: to the
    queries of its first 25 tracks with a usable title, in album order, and
    with no usable track at all the expansion fails with
    [NoPlayableTracks]. *)
Theorem album_expansion_capped (client_id client_secret : option string)
    (cached : bool) (url rid : string) (catalog : list (option Track))
    (fuel : nat) :
  fst (get_spotify_client client_id client_secret cached) = Ok tt ->
  parse_spotify_url url = Ok (KAlbum, rid) ->
  length catalog <= 50 * S fuel ->
  fst (spotify_queries_from_url sp_track (serve_album catalog)
         sp_playlist_items client_id client_secret cached (S fuel) url)
  = Some (match queries_of album_track catalog with
          | [] => Raise NoPlayableTracks
          | titled => Ok (firstn MAX_SPOTIFY_TRACKS titled)
          end).
Proof.
  intros Hclient Hparse Hfuel. unfold spotify_queries_from_url.
  destruct (get_spotify_client client_id client_secret cached) as [[[]|e] c];
    cbn [fst] in *; [|discriminate].
  unfold queries_with_client. rewrite Hparse.
  cbn [collect_queries]. unfold serve_album.
  rewrite page_loop_paged; [|lia|unfold MAX_SPOTIFY_TRACKS; cbn [length]; lia|lia].
  cbn [skipn app].
  destruct (queries_of album_track catalog) as [|q qs] eqn:Ht; [reflexivity|].
  destruct (firstn MAX_SPOTIFY_TRACKS (q :: qs)) eqn:Hf; [|reflexivity].
  discriminate Hf.
Qed.

(** X5: the credentials are looked at before the link and only when no
    client is cached: without a cached client and with an id or secret
    missing, every call fails with the not-configured error, whatever the
    link, and caches nothing; with a cached client the credentials do not
    matter. *)
Theorem credentials_checked_first_and_once
    (client_id client_secret : option string) (fuel : nat) (url : string) :
  (PyStr.otruthy client_id = false \/ PyStr.otruthy client_secret = false ->
   spotify_queries_from_url sp_track sp_album_tracks sp_playlist_items
     client_id client_secret false fuel url
   = (Some (Raise MissingCredentials), false))
  /\ (forall id' secret',
        spotify_queries_from_url sp_track sp_album_tracks sp_playlist_items
          client_id client_secret true fuel url
        = spotify_queries_from_url sp_track sp_album_tracks sp_playlist_items
            id' secret' true fuel url)
  /\ snd (spotify_queries_from_url sp_track sp_album_tracks sp_playlist_items
            client_id client_secret true fuel url) = true.
Proof.
  unfold spotify_queries_from_url, get_spotify_client. split; [|split].
  - intros [H|H]; rewrite H; cbn [negb orb]; [reflexivity|].
    now rewrite orb_true_r.
  - reflexivity.
  - reflexivity.
Qed.

End ExpansionBounds.

Lemma expansion_bounds_witness :
  1 <= length (firstn MAX_SPOTIFY_TRACKS
                 (Spotify.queries_of Spotify.playlist_track Demo.playlist30))
    <= MAX_SPOTIFY_TRACKS.
Proof.
  apply (@expansion_bounds
           (sp_track Demo.env_ok) (sp_album_tracks Demo.env_ok)
           (sp_playlist_items Demo.env_ok) (Some "id") (Some "secret")
           false 1 Demo.playlist_url
           (firstn MAX_SPOTIFY_TRACKS
              (Spotify.queries_of Spotify.playlist_track Demo.playlist30))).
  vm_compute. reflexivity.
Defined.

Lemma album_expansion_capped_witness :
  fst (Spotify.spotify_queries_from_url Spotify.no_track
         (Spotify.serve_album Samples.album60) (Spotify.serve_playlist [])
         (Some "id") (Some "secret") false 2 Samples.album_url)
  = Some (Ok (firstn MAX_SPOTIFY_TRACKS
                (Spotify.queries_of Spotify.album_track Samples.album60))).
Proof.
  apply (@album_expansion_capped Spotify.no_track (Spotify.serve_playlist [])
           (Some "id") (Some "secret") false Samples.album_url
           "4aawyAB9vmqN3uQ7FjRGTy" Samples.album60 1).
  - reflexivity.
  - reflexivity.
  - vm_compute. lia.
Defined.

Lemma credentials_checked_first_and_once_witness :
  Spotify.spotify_queries_from_url Spotify.no_track (Spotify.serve_album [])
    (Spotify.serve_playlist Demo.playlist30) (Some "id") None false 1 "no link"
  = (Some (Raise Spotify.MissingCredentials), false).
Proof.
  apply (proj1 (credentials_checked_first_and_once Spotify.no_track
                  (Spotify.serve_album []) (Spotify.serve_playlist Demo.playlist30)
                  (Some "id") None 1 "no link")).
  right. reflexivity.
Defined.

(* ===================================================================== *)
(** * More on the resolver *)
(* ===================================================================== *)

Section ResolverMore.
Import Resolver.

Variable extract_info : options -> string -> result (option YdlInfo).
Variable oembed_title_of : string -> result (option string).

Lemma extract_with_options_no_download_error (q : string) (o : options)
    (m : string) :
  _extract_with_options extract_info q o <> Raise (DownloadError m).
Proof.
  unfold _extract_with_options, classify.
  destruct (extract_info o q) as [[[info|entries]|]|[]]; try discriminate.
  - destruct (truthy_entries entries); discriminate.
  - destruct (PyStr.contains "drm" _); [discriminate|].
    destruct (PyStr.contains "sign in to confirm" _); discriminate.
Qed.

(** X6: when the YouTube attempt succeeds, nothing else is consulted: the
    result is the same whatever SoundCloud and the oEmbed endpoint would
    have answered. *)
Theorem primary_success_ignores_fallback
    (extract_info' : options -> string -> result (option YdlInfo))
    (oembed' : string -> result (option string))
    (query : string) (info : Info) :
  _extract_with_options extract_info query YDL_OPTIONS = Ok info ->
  extract_info' YDL_OPTIONS query = extract_info YDL_OPTIONS query ->
  extract_song extract_info' oembed' query
  = extract_song extract_info oembed_title_of query.
Proof.
  intros H Heq.
  assert (H' : _extract_with_options extract_info' query YDL_OPTIONS = Ok info).
  { unfold _extract_with_options in *. now rewrite Heq. }
  unfold extract_song, _extract. now rewrite H, H'.
Qed.


Lemma classify_cases (m : string) :
  (PyStr.contains "drm" (PyStr.lower m) = true -> classify m = DrmProtected)
  /\ (PyStr.contains "drm" (PyStr.lower m) = false ->
      PyStr.contains "sign in to confirm" (PyStr.lower m) = true ->
      classify m = PlatformBlocked)
  /\ (PyStr.contains "drm" (PyStr.lower m) = false ->
      PyStr.contains "sign in to confirm" (PyStr.lower m) = false ->
      classify m = ExtractionFailed).
Proof.
  unfold classify. split; [|split].
  - now intros ->.
  - now intros -> ->.
  - now intros -> ->.
Qed.

(** X8: a [DownloadError] of yt-dlp never leaves [extract_song]. An
    attempt in which yt-dlp raises [DownloadError] raises one of three
    [RuntimeError]s instead: the DRM message when the error text, in lower
    case, contains [drm]; else the blocked message when it contains
    [sign in to confirm]; else the general one. When that happens in the
    YouTube attempt and the SoundCloud attempt gives no result,
    [extract_song] raises that [RuntimeError]. *)
Theorem extract_song_hides_download_error (query m : string) :
  (forall m',
      extract_song extract_info oembed_title_of query <> Raise (DownloadError m'))
  /\ (forall local_query opts,
        extract_info opts local_query = Raise (DownloadError m) ->
        _extract_with_options extract_info local_query opts = Raise (classify m))
  /\ (extract_info YDL_OPTIONS query = Raise (DownloadError m) ->
      (forall info,
          _extract_with_options extract_info
            (sc_query_of oembed_title_of query) SC_YDL_OPTIONS <> Ok info) ->
      extract_song extract_info oembed_title_of query = Raise (classify m))
  /\ In (classify m) [DrmProtected; PlatformBlocked; ExtractionFailed]
  /\ (PyStr.contains "drm" (PyStr.lower m) = true -> classify m = DrmProtected)
  /\ (PyStr.contains "drm" (PyStr.lower m) = false ->
      PyStr.contains "sign in to confirm" (PyStr.lower m) = true ->
      classify m = PlatformBlocked)
  /\ (PyStr.contains "drm" (PyStr.lower m) = false ->
      PyStr.contains "sign in to confirm" (PyStr.lower m) = false ->
      classify m = ExtractionFailed).
Proof.
  split; [|split; [|split; [|split]]].
  - intros m'. unfold extract_song, _extract.
    destruct (_extract_with_options extract_info query YDL_OPTIONS)
      as [info|e] eqn:H1.
    + destruct (PyStr.otruthy (info_url info)); discriminate.
    + destruct (_extract_with_options extract_info
                  (sc_query_of oembed_title_of query) SC_YDL_OPTIONS)
        as [info|e'].
      * destruct (PyStr.otruthy (info_url info)); discriminate.
      * intros [= ->]. now apply (@extract_with_options_no_download_error
                                    query YDL_OPTIONS m').
  - intros local_query opts H. unfold _extract_with_options. now rewrite H.
  - intros H Hsc. unfold extract_song, _extract.
    assert (H1 : _extract_with_options extract_info query YDL_OPTIONS
                 = Raise (classify m)).
    { unfold _extract_with_options. now rewrite H. }
    rewrite H1.
    destruct (_extract_with_options extract_info
                (sc_query_of oembed_title_of query) SC_YDL_OPTIONS)
      as [info|e'] eqn:H2; [|reflexivity].
    now destruct (Hsc info).
  - destruct (classify_cases m) as (C1 & C2 & C3).
    destruct (PyStr.contains "drm" (PyStr.lower m)) eqn:E1.
    + rewrite C1 by reflexivity. now left.
    + destruct (PyStr.contains "sign in to confirm" (PyStr.lower m)) eqn:E2.
      * rewrite C2 by reflexivity. right. now left.
      * rewrite C3 by reflexivity. right. right. now left.
  - apply classify_cases.
Qed.

(** X9: the SoundCloud query is always a single-result search,
    [scsearch1:...]. The oEmbed endpoint is asked for a title only for a
    query that starts with [http] (in any case) and contains [youtube.com]
    or [youtu.be]; for any other query, and whenever the request fails, the
    search term is the query as typed. *)
Theorem sc_query_shape (query : string) :
  PyStr.startswith "scsearch1:" (sc_query_of oembed_title_of query) = true
  /\ (PyStr.startswith "http" (PyStr.lower query) = false
      \/ (PyStr.contains "youtube.com" query = false
          /\ PyStr.contains "youtu.be" query = false) ->
      sc_query_of oembed_title_of query = "scsearch1:" ++ query)
  /\ (forall e,
        oembed_title_of query = Raise e ->
        sc_query_of oembed_title_of query = "scsearch1:" ++ query).
Proof.
  unfold sc_query_of, _youtube_oembed_title. split; [|split].
  - destruct (PyStr.startswith "http" _); [|reflexivity].
    destruct (negb _ && negb _); [reflexivity|].
    destruct (oembed_title_of query) as [[t|]|e]; try reflexivity.
    destruct (PyStr.truthy (PyStr.strip t)) eqn:E; [|reflexivity].
    now rewrite E.
  - intros [H|[H1 H2]].
    + now rewrite H.
    + rewrite H1, H2. cbn [negb andb].
      now destruct (PyStr.startswith "http" _).
  - intros e He. rewrite He.
    destruct (PyStr.startswith "http" _); [|reflexivity].
    now destruct (negb _ && negb _).
Qed.

End ResolverMore.

Lemma primary_success_ignores_fallback_witness :
  Resolver.extract_song (extract_info Demo.env_ok) (fun _ => Raise (OtherException "down")) "a"
  = Resolver.extract_song (extract_info Demo.env_ok) (oembed_title_of Demo.env_ok) "a".
Proof.
  apply (@primary_success_ignores_fallback
           (extract_info Demo.env_ok) (oembed_title_of Demo.env_ok)
           (extract_info Demo.env_ok) (fun _ => Raise (OtherException "down")) "a"
           {| Resolver.info_url := Some "https://cdn.example/a";
              Resolver.info_title := Some "a";
              Resolver.info_webpage_url := Some "a" |});
    reflexivity.
Defined.


Lemma extract_song_hides_download_error_witness :
  Resolver.extract_song Demo.blocked_extract_info (fun _ => Ok None) "rickroll"
  = Raise Resolver.PlatformBlocked.
Proof.
  apply (proj1 (proj2 (proj2 (@extract_song_hides_download_error
           Demo.blocked_extract_info (fun _ => Ok None) "rickroll"
           "ERROR: [youtube] dQw4w9WgXcQ: Sign in to confirm you're not a bot.")))).
  - reflexivity.
  - intros info. vm_compute. discriminate.
Defined.

Lemma sc_query_shape_witness :
  Resolver.sc_query_of (fun _ => Ok (Some "Never Gonna Give You Up"))
    "https://soundcloud.com/rick/never"
  = "scsearch1:https://soundcloud.com/rick/never".
Proof.
  apply (proj1 (proj2 (sc_query_shape
                         (fun _ => Ok (Some "Never Gonna Give You Up"))
                         "https://soundcloud.com/rick/never"))).
  right. split; reflexivity.
Defined.

(* ===================================================================== *)
(** * More on the voice connection manager *)
(* ===================================================================== *)

Section VoiceMore.

Variable env : Env.

Lemma connect_rounds_returned (n k : nat) (last : option exn) (c : Channel) :
  forall w vc w',
    connect_rounds env n k last c w = Returned vc w' ->
    vc = fresh_client c true /\ voice_client w' = Some vc.
Proof.
  revert k last. induction n as [|n IH]; intros k last w vc w'; cbn;
    [discriminate|].
  destruct (gateway_connect env c k) as [[|]|e]; cbn.
  - intros [= <- <-]. now split.
  - apply IH.
  - apply IH.
Qed.

Lemma connect_rounds_completes (n k : nat) (last : option exn) (c : Channel) :
  forall w,
    (exists vc w', connect_rounds env n k last c w = Returned vc w')
    \/ (exists e w', connect_rounds env n k last c w = Raised e w').
Proof.
  revert k last. induction n as [|n IH]; intros k last w; cbn; [right; eauto|].
  destruct (gateway_connect env c k) as [[|]|e]; cbn; eauto.
Qed.

Lemma ensure_voice_returned
    (i : Interaction) (w w' : World) (vc : VoiceClient) :
  ensure_voice env i w = Returned vc w' ->
  is_connected vc = true
  /\ voice_client w' = Some vc
  /\ exists c, requester_in c i /\ channel_eqb (vc_channel vc) c = true.
Proof.
  unfold ensure_voice, requester_in.
  destruct (i_guild i); cbn [negb]; [|discriminate].
  destruct (i_user i) as [user|]; [|discriminate].
  destruct (user_is_member user) eqn:Hm; cbn [negb]; [|discriminate].
  destruct (user_voice user) as [c|] eqn:Hv; [|discriminate].
  assert (Hreq : true = true
                 /\ exists u, Some user = Some u /\ user_is_member u = true
                              /\ user_voice u = Some c)
    by (split; [reflexivity|]; now exists user).
  assert (Hfresh : forall w0 w1 vc1,
             bind (_connect_with_retry env c w0)
               (fun vc0 w2 => if negb (is_connected vc0)
                              then Raised (RuntimeError
                                             "I could not stay connected to voice.") w2
                              else Returned vc0 w2) = Returned vc1 w1
             \/ bind (_connect_with_retry env c w0)
                  (fun vc0 w2 => if negb (is_connected vc0)
                                 then Raised (RuntimeError "Voice connection failed.") w2
                                 else Returned vc0 w2) = Returned vc1 w1 ->
             is_connected vc1 = true /\ voice_client w1 = Some vc1
             /\ channel_eqb (vc_channel vc1) c = true).
  { intros w0 w1 vc1 H. unfold _connect_with_retry in H.
    destruct (connect_rounds env 3 0 None c w0) as [vc0 w2| | |] eqn:Hc;
      cbn in H; try (destruct H; discriminate).
    destruct (connect_rounds_returned _ _ _ _ _ Hc) as [-> Hw2].
    cbn in H. destruct H as [H|H]; injection H as <- <-;
      (split; [reflexivity|]); (split; [exact Hw2|]);
      unfold channel_eqb; cbn; apply Nat.eqb_refl. }
  destruct (voice_client w) as [vc0|] eqn:Hvc.
  - destruct (is_connected vc0) eqn:Hc; cbn [negb].
    + destruct (channel_eqb (vc_channel vc0) c) eqn:Hch; cbn [negb].
      * intros [= <- <-]. repeat split; auto. exists c. now split.
      * destruct (is_playing vc0 || is_paused vc0); [discriminate|].
        intros [= <- <-]. split; [exact Hc|]. split.
        -- unfold vc_move_to. now rewrite Hvc.
        -- exists c. split; [exact Hreq|]. unfold channel_eqb. cbn.
           apply Nat.eqb_refl.
    + intros H. destruct (Hfresh _ _ _ (or_intror H)) as (H1 & H2 & H3).
      split; [exact H1|]. split; [exact H2|]. exists c. now split.
  - intros H. destruct (Hfresh _ _ _ (or_introl H)) as (H1 & H2 & H3).
    split; [exact H1|]. split; [exact H2|]. exists c. now split.
Qed.

Lemma ensure_voice_frame (i : Interaction) (w : World) :
  let w' := world_of (ensure_voice env i w) in
  ((exists vc, ensure_voice env i w = Returned vc w')
   \/ (exists e, ensure_voice env i w = Raised e w'))
  /\ queue w' = queue w /\ now_playing w' = now_playing w
  /\ idle_task w' = idle_task w /\ tasks w' = tasks w
  /\ lock_locked w' = lock_locked w /\ clock w' = clock w
  /\ played (log w') = played (log w)
  /\ enqueued (log w') = enqueued (log w).
Proof.
  cbv zeta. split.
  - unfold ensure_voice.
    destruct (i_guild i); cbn [negb]; [|right; eexists; reflexivity].
    destruct (i_user i) as [user|]; [|right; eexists; reflexivity].
    destruct (user_is_member user); cbn [negb]; [|right; eexists; reflexivity].
    destruct (user_voice user) as [c|]; [|right; eexists; reflexivity].
    assert (Hb : forall w0 msg,
               let o := bind (_connect_with_retry env c w0)
                          (fun vc0 w2 => if negb (is_connected vc0)
                                         then Raised (RuntimeError msg) w2
                                         else Returned vc0 w2) in
               (exists vc, o = Returned vc (world_of o))
               \/ (exists e, o = Raised e (world_of o))).
    { intros w0 msg. unfold _connect_with_retry.
      destruct (connect_rounds_completes 3 0 None c w0)
        as [(vc & w1 & ->)|(e & w1 & ->)]; cbn.
      - destruct (is_connected vc); cbn; eauto.
      - eauto. }
    destruct (voice_client w) as [vc|]; [|apply Hb].
    destruct (is_connected vc); cbn [negb]; [|apply Hb].
    destruct (channel_eqb (vc_channel vc) c); cbn [negb];
      [left; eexists; reflexivity|].
    destruct (is_playing vc || is_paused vc); cbn; eauto.
  - apply (@ensure_voice_keeps env
             (fun w' => queue w' = queue w /\ now_playing w' = now_playing w
                        /\ idle_task w' = idle_task w /\ tasks w' = tasks w
                        /\ lock_locked w' = lock_locked w /\ clock w' = clock w
                        /\ played (log w') = played (log w)
                        /\ enqueued (log w') = enqueued (log w))).
    + intros w0 H. now autorewrite with world.
    + intros c w0 H. unfold vc_move_to. now destruct (voice_client w0).
    + intros c b w0 H. exact H.
    + repeat split.
Qed.

(** X10: a voice client that [ensure_voice] returns is connected, is the
    guild's voice client, and is in the voice channel of the member who
    asked. *)
Theorem ensure_voice_returns_usable_client
    (i : Interaction) (w w' : World) (vc : VoiceClient) :
  ensure_voice env i w = Returned vc w' ->
  is_connected vc = true
  /\ voice_client w' = Some vc
  /\ exists c, requester_in c i /\ channel_eqb (vc_channel vc) c = true.
Proof. apply ensure_voice_returned. Qed.

(** X12: the gateway is asked at most three times. If all three attempts
    raise, the error is [Voice connection failed:] with the text of the last
    exception and no client is registered; if all three give a client that
    is not connected, the error text ends in [None] and that client stays
    registered; and what the gateway would answer to a fourth attempt never
    matters. *)
Theorem connect_retries_three_times (c : Channel) (w : World) :
  (forall e0 e1 e2,
      gateway_connect env c 0 = Raise e0 ->
      gateway_connect env c 1 = Raise e1 ->
      gateway_connect env c 2 = Raise e2 ->
      _connect_with_retry env c w
      = Raised (RuntimeError ("Voice connection failed: " ++ exn_str e2)) w)
  /\ (gateway_connect env c 0 = Ok false ->
      gateway_connect env c 1 = Ok false ->
      gateway_connect env c 2 = Ok false ->
      _connect_with_retry env c w
      = Raised (RuntimeError "Voice connection failed: None")
          (set_voice_client (Some (fresh_client c false)) w))
  /\ (forall env',
        (forall k, k < 3 -> gateway_connect env' c k = gateway_connect env c k) ->
        _connect_with_retry env' c w = _connect_with_retry env c w).
Proof.
  unfold _connect_with_retry. split; [|split].
  - intros e0 e1 e2 H0 H1 H2. cbn. now rewrite H0, H1, H2.
  - intros H0 H1 H2. cbn. now rewrite H0, H1, H2.
  - intros env' H. cbn. rewrite !H by lia. reflexivity.
Qed.

End VoiceMore.

Lemma ensure_voice_returns_usable_client_witness :
  is_connected (fresh_client Demo.lounge true) = true
  /\ voice_client
       (world_of (ensure_voice Demo.env_ok (Demo.member_in Demo.lounge) init))
     = Some (fresh_client Demo.lounge true).
Proof.
  destruct (@ensure_voice_returns_usable_client Demo.env_ok
              (Demo.member_in Demo.lounge) init
              (world_of (ensure_voice Demo.env_ok (Demo.member_in Demo.lounge) init))
              (fresh_client Demo.lounge true)) as (H1 & H2 & _).
  - reflexivity.
  - split; [exact H1|exact H2].
Defined.

Lemma connect_retries_three_times_witness :
  _connect_with_retry Samples.env_gateway_down Demo.general init
  = Raised (RuntimeError "Voice connection failed: timeout 2") init.
Proof.
  apply (proj1 (connect_retries_three_times Samples.env_gateway_down
                  Demo.general init)
           (OtherException "timeout 0") (OtherException "timeout 1")
           (OtherException "timeout 2")); reflexivity.
Defined.

(* ===================================================================== *)
(** * The join and play commands *)
(* ===================================================================== *)

Section CommandFacts.

Variable env : Env.

Lemma with_requester_fields (i : Interaction) (song : Song) :
  title (with_requester i song) = title song
  /\ stream_url (with_requester i song) = stream_url song
  /\ webpage_url (with_requester i song) = webpage_url song.
Proof. unfold with_requester. now destruct (i_user i). Qed.

Lemma ensure_voice_in_place (i : Interaction) (c : Channel) (w : World)
    (vc : VoiceClient) :
  requester_in c i ->
  voice_client w = Some vc ->
  is_connected vc = true ->
  channel_eqb (vc_channel vc) c = true ->
  ensure_voice env i w = Returned vc w.
Proof.
  intros (Hg & user & Hu & Hm & Hv) Hvc Hc Hch. unfold ensure_voice.
  now rewrite Hg, Hu, Hm, Hv, Hvc, Hc, Hch.
Qed.

Lemma play_next_starts (w : World) (vc : VoiceClient) (song : Song)
    (rest : list Song) :
  voice_client w = Some vc ->
  is_connected vc = true ->
  is_playing vc || is_paused vc = false ->
  lock_locked w = false ->
  queue w = song :: rest ->
  FFmpegPCMAudio env (stream_url song) = Ok tt ->
  play_next env w
  = Returned tt
      (set_lock false
         (record (Started song)
            (set_voice_client
               (Some (with_audio (Streaming (stream_url song)) vc))
               (dequeued song rest w)))).
Proof.
  intros Hvc Hc Hact Hl Hq Hff.
  rewrite play_next_flat_eq. unfold play_next_flat.
  rewrite Hvc, Hl, Hact, Hq, Hff.
  unfold vc_play. rewrite dequeued_voice_client, Hvc, Hc.
  apply orb_false_elim in Hact as [Hp _]. now rewrite Hp.
Qed.

Lemma play_next_idles (w : World) (vc : VoiceClient) :
  voice_client w = Some vc ->
  is_playing vc || is_paused vc = false ->
  lock_locked w = false ->
  queue w = [] ->
  play_next env w
  = Returned tt
      (set_lock false
         (schedule_idle_disconnect (set_now_playing None (set_lock true w)))).
Proof.
  intros Hvc Hact Hl Hq. rewrite play_next_flat_eq. unfold play_next_flat.
  now rewrite Hvc, Hl, Hact, Hq.
Qed.

(** X14: a request on a guild whose connected voice client sits silent in
    the member's channel, with an empty queue and the lock free, starts the
    resolved song at once: the answer is the now-playing message with the
    song's title and page, [now_playing] is the song with the member as
    requester, the queue is empty again, the client streams the song's URL
    and the idle timer is cancelled. *)
Theorem play_starts_on_idle_guild
    (fuel : nat) (i : Interaction) (c : Channel) (query : string)
    (w : World) (vc : VoiceClient) (song : Song) :
  requester_in c i ->
  voice_client w = Some vc ->
  is_connected vc = true ->
  channel_eqb (vc_channel vc) c = true ->
  is_playing vc || is_paused vc = false ->
  lock_locked w = false ->
  queue w = [] ->
  plain_query query ->
  extract_song env query = Ok song ->
  FFmpegPCMAudio env (stream_url song) = Ok tt ->
  exists w',
    play env fuel i query w
    = Returned ("Now playing: **" ++ title song ++ "**" ++ PyStr.newline
                ++ webpage_url song) w'
    /\ now_playing w' = Some (with_requester i song)
    /\ queue w' = []
    /\ voice_client w' = Some (with_audio (Streaming (stream_url song)) vc)
    /\ idle_task w' = None
    /\ lock_locked w' = false.
Proof.
  intros Hreq Hvc Hc Hch Hact Hl Hq Hplain Hsong Hff.
  destruct (with_requester_fields i song) as (Ht & Hs & Hp).
  unfold play. rewrite (@ensure_voice_in_place i c w vc Hreq Hvc Hc Hch).
  cbn [bind]. rewrite Hc. cbn [negb]. rewrite Hplain, Hsong.
  rewrite (@play_next_starts _ vc (with_requester i song) []).
  - cbn [bind catch]. eexists. split.
    + cbn [now_playing set_lock record set_voice_client].
      rewrite dequeued_now_playing, Ht, Hp, String.eqb_refl. reflexivity.
    + cbn [now_playing queue voice_client idle_task lock_locked
             set_lock record set_voice_client].
      rewrite dequeued_now_playing, dequeued_queue, Hs.
      repeat split.
  - unfold append_song. now world_simpl.
  - exact Hc.
  - exact Hact.
  - unfold append_song. now world_simpl.
  - unfold append_song. world_simpl. now rewrite Hq.
  - now rewrite Hs.
Qed.

(** X15: a request while the client in the member's channel plays or is
    paused only appends: the resolved song, with the member as requester,
    goes to the end of the queue, [now_playing] and the client are as
    before, and the idle timer is cancelled. The answer is the queued
    message, unless the song playing has the same title as the new one:
    then it is the now-playing message. *)
Theorem play_queues_while_active
    (fuel : nat) (i : Interaction) (c : Channel) (query : string)
    (w : World) (vc : VoiceClient) (song : Song) :
  requester_in c i ->
  voice_client w = Some vc ->
  is_connected vc = true ->
  channel_eqb (vc_channel vc) c = true ->
  is_playing vc || is_paused vc = true ->
  lock_locked w = false ->
  plain_query query ->
  extract_song env query = Ok song ->
  exists w',
    play env fuel i query w
    = Returned
        (match now_playing w with
         | Some np =>
             if String.eqb (title np) (title song)
             then "Now playing: **" ++ title song ++ "**" ++ PyStr.newline
                  ++ webpage_url song
             else "Queued: **" ++ title song ++ "**"
         | None => "Queued: **" ++ title song ++ "**"
         end) w'
    /\ queue w' = (queue w ++ [with_requester i song])%list
    /\ now_playing w' = now_playing w
    /\ voice_client w' = Some vc
    /\ idle_task w' = None.
Proof.
  intros Hreq Hvc Hc Hch Hact Hl Hplain Hsong.
  destruct (with_requester_fields i song) as (Ht & Hs & Hp).
  unfold play. rewrite (@ensure_voice_in_place i c w vc Hreq Hvc Hc Hch).
  cbn [bind]. rewrite Hc. cbn [negb]. rewrite Hplain, Hsong.
  rewrite play_next_active.
  - unfold append_song. world_simpl. rewrite Hl. cbn [bind catch].
    eexists. split.
    + world_simpl. rewrite Ht, Hp. reflexivity.
    + world_simpl. now rewrite Hvc.
  - unfold active, append_song. world_simpl. now rewrite Hvc.
Qed.

(** X16: when the query cannot be resolved, nothing is enqueued and the
    answer is [Error:] with the error's text; but the idle timer, cancelled
    before the resolution started, stays cancelled: in a state that a
    history leads to, no idle task is pending afterwards. *)
Theorem failed_play_leaves_timer_cancelled
    (evs : list event) (fuel : nat) (i : Interaction) (query : string)
    (vc : VoiceClient) (w1 : World) (e : exn) :
  let w := run env evs init in
  ensure_voice env i w = Returned vc w1 ->
  plain_query query ->
  extract_song env query = Raise e ->
  play env fuel i query w
  = Returned ("Error: " ++ exn_str e) (cancel_idle_disconnect w1)
  /\ queue (cancel_idle_disconnect w1) = queue w
  /\ now_playing (cancel_idle_disconnect w1) = now_playing w
  /\ idle_task (cancel_idle_disconnect w1) = None
  /\ pending_count (cancel_idle_disconnect w1) = 0.
Proof.
  intros w Hev Hplain Hsong.
  pose proof (ensure_voice_frame env i w) as Hf. cbv zeta in Hf.
  rewrite Hev in Hf. cbn [world_of] in Hf.
  destruct Hf as (_ & Hq & Hnp & Hit & Hts & _).
  destruct (ensure_voice_returned env _ _ Hev) as (Hc & _).
  split.
  - unfold play. rewrite Hev. cbn [bind]. rewrite Hc. cbn [negb].
    now rewrite Hplain, Hsong.
  - autorewrite with world. repeat split; auto.
    assert (Hwf : tasks_wf w1).
    { apply wf_ext with (w := w); auto. apply tasks_wf_run. }
    unfold pending_count.
    assert (Hall : Forall (fun t => done t = true)
                     (tasks (cancel_idle_disconnect w1))).
    { apply Forall_forall. intros t Hin.
      destruct (In_nth_error _ _ Hin) as [id Hid].
      exact (cancel_all_done Hwf _ Hid). }
    induction Hall as [|t ts Ht _ IH]; [reflexivity|].
    cbn [filter]. now rewrite Ht.
Qed.

End CommandFacts.

Lemma play_starts_on_idle_guild_witness :
  exists w',
    play Demo.env_ok 1 (Demo.member_in Demo.general) "rickroll"
      Demo.connected_idle
    = Returned ("Now playing: **rickroll**" ++ PyStr.newline ++ "rickroll") w'
    /\ now_playing w' = Some (Demo.song "rickroll")
    /\ queue w' = []
    /\ voice_client w'
       = Some (with_audio (Streaming "https://cdn.example/rickroll")
                 Demo.idle_client)
    /\ idle_task w' = None
    /\ lock_locked w' = false.
Proof.
  apply (@play_starts_on_idle_guild Demo.env_ok 1 (Demo.member_in Demo.general)
           Demo.general "rickroll" Demo.connected_idle Demo.idle_client
           (Samples.resolved "rickroll")); try reflexivity.
  split; [reflexivity|]. eexists. repeat split.
Defined.

Lemma play_queues_while_active_witness :
  exists w',
    play Demo.env_ok 1 (Demo.member_in Demo.general) "b" Demo.streaming
    = Returned "Queued: **b**" w'
    /\ queue w' = [Demo.song "b"]
    /\ now_playing w' = Some (Demo.song "a")
    /\ voice_client w' = Some Demo.streaming_client
    /\ idle_task w' = None.
Proof.
  apply (@play_queues_while_active Demo.env_ok 1 (Demo.member_in Demo.general)
           Demo.general "b" Demo.streaming Demo.streaming_client
           (Samples.resolved "b")); try reflexivity.
  split; [reflexivity|]. eexists. repeat split.
Defined.

Lemma failed_play_leaves_timer_cancelled_witness :
  let w := run Samples.env_unresolvable Demo.joined init in
  idle_task w = Some 0
  /\ play Samples.env_unresolvable 1 (Demo.member_in Demo.general) "a" w
     = Returned "Error: YouTube blocked this request. Try another video."
         (cancel_idle_disconnect w)
  /\ pending_count (cancel_idle_disconnect w) = 0.
Proof.
  cbv zeta. split; [reflexivity|].
  destruct (@failed_play_leaves_timer_cancelled Samples.env_unresolvable
              Demo.joined 1 (Demo.member_in Demo.general) "a"
              (fresh_client Demo.general true)
              (run Samples.env_unresolvable Demo.joined init)
              Resolver.PlatformBlocked) as (H1 & _ & _ & _ & H2);
    [reflexivity|reflexivity|reflexivity|].
  split; [exact H1|exact H2].
Defined.

(* ===================================================================== *)
(** * The Spotify batch, leave, and what histories keep *)
(* ===================================================================== *)

Section BatchFacts.

Variable env : Env.

Lemma enqueue_resolved_round (i : Interaction) (user : User) (b : Batch)
    (w : World) (q : string) :
  i_user i = Some user ->
  let st := enqueue_resolved env i (b, w) q in
  added (fst st) + failed (fst st) = S (added b + failed b)
  /\ (exists songs,
        queue (snd st) = (queue w ++ songs)%list
        /\ length songs + added b = added (fst st)
        /\ Forall (fun s => requester_id s = user_id user) songs
        /\ enqueued (log (snd st)) = (enqueued (log w) ++ songs)%list)
  /\ voice_client (snd st) = voice_client w
  /\ now_playing (snd st) = now_playing w
  /\ lock_locked (snd st) = lock_locked w.
Proof.
  intros Hu. unfold enqueue_resolved.
  destruct (extract_song env q) as [song|e]; cbn [fst snd added failed].
  - split; [lia|]. split; [|auto].
    exists [with_requester i song]. unfold append_song. world_simpl.
    cbn [enqueued]. world_simpl. cbn [length].
    split; [reflexivity|]. split; [lia|]. split; [|reflexivity].
    constructor; [|constructor]. unfold with_requester. now rewrite Hu.
  - split; [lia|]. split; [|auto]. exists []. rewrite !app_nil_r. auto.
Qed.

(** X18: the rounds of a Spotify batch account for every query. The
    songs appended to the queue are exactly the songs that the queries
    resolve to, in the order of the queries, each with the member as
    requester; [added] grows by their number and [failed] by the number of
    queries that do not resolve, so that together they count every query;
    and nothing else of the guild changes (voice client, [now_playing],
    lock). *)
Theorem batch_accounts_for_every_query
    (i : Interaction) (user : User) (queries : list string) :
  i_user i = Some user ->
  forall b w,
    let st := fold_left (enqueue_resolved env i) queries (b, w) in
    queue (snd st) = (queue w ++ resolved_songs env i queries)%list
    /\ enqueued (log (snd st))
       = (enqueued (log w) ++ resolved_songs env i queries)%list
    /\ added (fst st) = added b + length (resolved_songs env i queries)
    /\ failed (fst st) = failed b + unresolved env queries
    /\ length (resolved_songs env i queries) + unresolved env queries
       = length queries
    /\ Forall (fun s => requester_id s = user_id user)
              (resolved_songs env i queries)
    /\ voice_client (snd st) = voice_client w
    /\ now_playing (snd st) = now_playing w
    /\ lock_locked (snd st) = lock_locked w.
Proof.
  intros Hu. induction queries as [|q qs IH]; intros b w.
  - cbn. rewrite !app_nil_r. repeat split; auto. 
  - cbn [fold_left]. specialize (IH (fst (enqueue_resolved env i (b, w) q))
                                    (snd (enqueue_resolved env i (b, w) q))).
    rewrite <- surjective_pairing in IH. cbv zeta in IH |- *.
    destruct IH as (H1 & H2 & H3 & H4 & H5 & H6 & H7 & H8 & H9).
    rewrite H1, H2, H3, H4, H7, H8, H9.
    unfold resolved_songs, unresolved in *. cbn [flat_map filter].
    unfold enqueue_resolved.
    destruct (extract_song env q) as [song|e]; cbn [fst snd added failed length app].
    + unfold append_song. world_simpl. cbn [enqueued]. world_simpl.
      rewrite <- !app_assoc. cbn [app].
      repeat split; try lia.
      constructor; [|exact H6]. unfold with_requester. now rewrite Hu.
    + repeat split; try lia. exact H6.
Qed.

End BatchFacts.

Section LeaveFacts.

Variable env : Env.

(** X19: [leave] in a guild empties the queue, clears [now_playing],
    cancels the idle timer and leaves the guild without voice client,
    disconnecting the client if there was one; a [play_next] that comes
    afterwards, such as the callback of the stream that [leave] cut, returns
    at once and changes nothing. *)
Theorem leave_resets_the_guild (i : Interaction) (w : World) :
  i_guild i = true ->
  let w' := world_of (leave i w) in
  queue w' = [] /\ now_playing w' = None /\ idle_task w' = None
  /\ voice_client w' = None
  /\ disconnects (log w')
     = match voice_client w with
       | Some _ => S (disconnects (log w))
       | None => disconnects (log w)
       end
  /\ play_next env w' = Returned tt w'
  /\ (forall n, play_next env (set_callbacks n w') = Returned tt (set_callbacks n w')).
Proof.
  intros Hg. unfold leave. rewrite Hg. cbn [negb].
  destruct (voice_client w) as [vc|] eqn:Hvc; cbn [world_of].
  - assert (Hv : voice_client
                   (vc_disconnect
                      (cancel_idle_disconnect
                         (set_now_playing None (set_queue [] w)))) = None)
      by now autorewrite with world.
    split; [now world_simpl|]. split; [now world_simpl|].
    split; [now world_simpl|]. split; [exact Hv|]. split.
    + rewrite vc_disconnect_counts; [now world_simpl|].
      world_simpl. now rewrite Hvc.
    + split; [|intros n]; rewrite play_next_flat_eq; unfold play_next_flat;
        cbn [voice_client set_callbacks]; now rewrite Hv.
  - assert (Hv : voice_client
                   (cancel_idle_disconnect
                      (set_now_playing None (set_queue [] w))) = None)
      by (world_simpl; exact Hvc).
    split; [now world_simpl|]. split; [now world_simpl|].
    split; [now world_simpl|]. split; [exact Hv|]. split.
    + now world_simpl.
    + split; [|intros n]; rewrite play_next_flat_eq; unfold play_next_flat;
        cbn [voice_client set_callbacks]; now rewrite Hv.
Qed.

End LeaveFacts.

Section HistoryFacts.

Variable env : Env.

Lemma quiet_list_count (l : list IdleTask) :
  forall k,
    (forall id t, nth_error l id = Some t -> done t = false -> id = k) ->
    length (filter (fun t => negb (done t)) l) <= 1.
Proof.
  induction l as [|t l IH]; intros k H; [cbn; lia|].
  cbn [filter]. destruct (done t) eqn:Hd; cbn [negb].
  - apply (IH (pred k)). intros id t' Hn Hd'.
    specialize (H (S id) t' Hn Hd'). lia.
  - assert (Hk : 0 = k) by exact (H 0 t eq_refl Hd).
    assert (Hall : filter (fun t => negb (done t)) l = []).
    { clear IH. assert (Hl : forall id t', nth_error l id = Some t' ->
                               done t' = true).
      { intros id t' Hn. destruct (done t') eqn:Hd'; [reflexivity|].
        specialize (H (S id) t' Hn Hd'). lia. }
      clear H. induction l as [|t' l IHl]; [reflexivity|].
      cbn [filter]. rewrite (Hl 0 t' eq_refl). cbn [negb].
      apply IHl. intros id t'' Hn. exact (Hl (S id) t'' Hn). }
    rewrite Hall. cbn. lia.
Qed.

(** X20: at any point of any history at most one idle-disconnect task is
    pending: arming the timer again replaces the task that was armed. *)
Theorem at_most_one_idle_task_pending (evs : list event) :
  pending_count (run env evs init) <= 1.
Proof.
  pose proof (tasks_wf_run env evs) as Hwf. unfold pending_count.
  destruct (idle_task (run env evs init)) as [id0|] eqn:Hid.
  - apply (@quiet_list_count _ id0). intros id t Hn Hd.
    specialize (Hwf id t Hn Hd). congruence.
  - apply (@quiet_list_count _ 0). intros id t Hn Hd.
    specialize (Hwf id t Hn Hd). congruence.
Qed.

(** *** With an ffmpeg that always starts *)

Hypothesis ffmpeg_works : forall url, FFmpegPCMAudio env url = Ok tt.

Lemma unlocked_play_next (w : World) :
  lock_locked w = false ->
  lock_locked (world_of (play_next env w)) = false
  /\ forall w', play_next env w <> Suspended w'.
Proof.
  intros Hl. rewrite play_next_flat_eq. unfold play_next_flat.
  destruct (voice_client w) as [vc|] eqn:Hvc; [|split; [exact Hl|discriminate]].
  rewrite Hl.
  destruct (is_playing vc || is_paused vc); [split; [reflexivity|discriminate]|].
  destruct (queue w) as [|song rest]; [split; [reflexivity|discriminate]|].
  rewrite ffmpeg_works. split; [apply release_vc_play_unlocked|].
  intros w'. unfold vc_play. rewrite dequeued_voice_client, Hvc.
  destruct (is_connected vc); [|discriminate].
  destruct (is_playing vc); discriminate.
Qed.

Lemma lock_free_run (evs : list event) : lock_locked (run env evs init) = false.
Proof.
  apply (@run_keeps env (fun w => lock_locked w = false));
    try (intros; now autorewrite with world); auto.
  - intros c w. unfold vc_move_to. now destruct (voice_client w).
  - intros w. unfold on_voice. now destruct (voice_client w).
  - intros w. unfold on_voice. now destruct (voice_client w).
  - intros b w. unfold on_voice. now destruct (voice_client w).
  - intros w Hw. now apply unlocked_play_next.
Qed.

Lemma play_next_completes (w : World) :
  lock_locked w = false ->
  (exists w', play_next env w = Returned tt w')
  \/ (exists e w', play_next env w = Raised e w').
Proof.
  intros Hl. rewrite play_next_flat_eq. unfold play_next_flat.
  destruct (voice_client w) as [vc|] eqn:Hvc; [|eauto].
  rewrite Hl. destruct (is_playing vc || is_paused vc); [eauto|].
  destruct (queue w) as [|song rest]; [eauto|].
  rewrite ffmpeg_works. unfold vc_play. rewrite dequeued_voice_client, Hvc.
  destruct (is_connected vc); cbn [negb]; [|cbn; eauto].
  destruct (is_playing vc); cbn; eauto.
Qed.

(** X21: if constructing the ffmpeg source never fails, [player.lock] is
    free between any two events of any history, and no [play_next] ever
    waits for it. *)
Theorem lock_is_free_between_events (evs : list event) :
  lock_locked (run env evs init) = false
  /\ forall w', play_next env (run env evs init) <> Suspended w'.
Proof.
  split; [apply lock_free_run|].
  apply unlocked_play_next. apply lock_free_run.
Qed.

End HistoryFacts.

Section AdvanceFacts.

Variable env : Env.

(** X22: when the stream of a connected client ends and the loop runs the
    callback, the head of the queue, if its stream attaches, becomes
    [now_playing] and is streamed, and the rest of the queue stays; with an
    empty queue [now_playing] is cleared and the idle timer is armed. *)
Theorem stream_end_advances_the_queue (w : World) (vc : VoiceClient) :
  voice_client w = Some vc ->
  is_playing vc = true ->
  is_connected vc = true ->
  lock_locked w = false ->
  let w' := run env [StreamEnded; RunCallback] w in
  (forall song rest,
      queue w = song :: rest ->
      FFmpegPCMAudio env (stream_url song) = Ok tt ->
      now_playing w' = Some song
      /\ queue w' = rest
      /\ voice_client w' = Some (with_audio (Streaming (stream_url song)) vc)
      /\ callbacks w' = callbacks w)
  /\ (queue w = [] ->
      now_playing w' = None
      /\ armed_for (clock w + IDLE_TIMEOUT_SECONDS) w'
      /\ voice_client w' = Some (with_audio Silent vc)).
Proof.
  intros Hvc Hp Hc Hl w'.
  assert (Hw' : w' = world_of
                       (play_next env
                          (set_callbacks (callbacks w)
                             (set_voice_client (Some (with_audio Silent vc)) w)))).
  { subst w'. cbn [run fold_left step]. unfold stream_ended, run_callback.
    rewrite Hvc, Hp. unfold vc_stop. rewrite Hvc.
    unfold is_playing in Hp. destruct (vc_audio vc); try discriminate.
    reflexivity. }
  split.
  - intros song rest Hq Hff. rewrite Hw'.
    rewrite (@play_next_starts env _ (with_audio Silent vc) song rest);
      try reflexivity; try assumption.
    cbn [world_of now_playing queue voice_client callbacks
           set_lock record set_voice_client].
    rewrite dequeued_now_playing, dequeued_queue.
    unfold dequeued. world_simpl. repeat split.
  - intros Hq. rewrite Hw'.
    rewrite (@play_next_idles env _ (with_audio Silent vc));
      try reflexivity; try assumption.
    cbn [world_of]. split; [now world_simpl|]. split; [|now world_simpl].
    destruct (schedule_armed
                (set_now_playing None
                   (set_lock true
                      (set_callbacks (callbacks w)
                         (set_voice_client (Some (with_audio Silent vc)) w)))))
      as (id & H1 & H2).
    exists id. now split.
Qed.

End AdvanceFacts.

Lemma batch_accounts_for_every_query_witness :
  let st := fold_left (enqueue_resolved Demo.env_ok (Demo.member_in Demo.general))
              ["x"; "y"] (empty_batch, Demo.streaming) in
  queue (snd st) = [Demo.song "x"; Demo.song "y"]
  /\ added (fst st) = 2
  /\ now_playing (snd st) = Some (Demo.song "a").
Proof.
  destruct (@batch_accounts_for_every_query Demo.env_ok
              (Demo.member_in Demo.general)
              {| user_id := 7%Z; user_is_member := true;
                 user_voice := Some Demo.general |}
              ["x"; "y"] eq_refl empty_batch Demo.streaming)
    as (H1 & _ & H2 & _ & _ & _ & _ & H3 & _).
  split; [exact H1|]. split; [exact H2|exact H3].
Defined.

Lemma leave_resets_the_guild_witness :
  let w' := world_of (leave (Demo.member_in Demo.general) Demo.streaming) in
  queue w' = [] /\ now_playing w' = None /\ voice_client w' = None
  /\ disconnects (log w') = 1
  /\ play_next Demo.env_ok w' = Returned tt w'.
Proof.
  destruct (@leave_resets_the_guild Demo.env_ok (Demo.member_in Demo.general)
              Demo.streaming eq_refl) as (H1 & H2 & _ & H3 & H4 & H5 & _).
  cbv zeta. split; [exact H1|]. split; [exact H2|]. split; [exact H3|].
  split; [exact H4|exact H5].
Defined.

Lemma lock_is_free_between_events_witness :
  lock_locked (run Demo.env_ok Demo.two_plays init) = false.
Proof.
  apply (@lock_is_free_between_events Demo.env_ok (fun _ => eq_refl)
           Demo.two_plays).
Defined.

Lemma stream_end_advances_the_queue_witness :
  let w := set_queue [Demo.song "b"] Demo.streaming in
  let w' := run Demo.env_ok [StreamEnded; RunCallback] w in
  now_playing w' = Some (Demo.song "b") /\ queue w' = [].
Proof.
  destruct (@stream_end_advances_the_queue Demo.env_ok
              (set_queue [Demo.song "b"] Demo.streaming)
              Demo.streaming_client eq_refl eq_refl eq_refl eq_refl)
    as (H & _).
  destruct (H (Demo.song "b") [] eq_refl eq_refl) as (H1 & H2 & _).
  cbv zeta. split; [exact H1|exact H2].
Defined.

(* ===================================================================== *)
(** * Startup *)
(* ===================================================================== *)

Section StartupFacts.
Import Startup.

Lemma str_app_assoc (a b c : string) : ((a ++ b) ++ c = a ++ (b ++ c))%string.
Proof. induction a as [|x a IH]; cbn; [reflexivity|now rewrite IH]. Qed.

Lemma all_digits_app (a b : string) :
  all_digits (a ++ b) = all_digits a && all_digits b.
Proof.
  induction a as [|x a IH]; cbn [append all_digits]; [reflexivity|].
  now rewrite IH, andb_assoc.
Qed.

Lemma digit_char (m : nat) :
  m < 10 -> digit_of (ascii_of_nat (48 + m)) = Some (Z.of_nat m).
Proof.
  intros H. do 10 (destruct m as [|m]; [reflexivity|]). lia.
Qed.

(** a digit is no space, no comma and no sign *)
Lemma digit_is_plain (c : ascii) :
  is_digit c = true ->
  PyStr.is_space c = false /\ Ascii.eqb c "," = false
  /\ Ascii.eqb c "+" = false /\ Ascii.eqb c "-" = false.
Proof.
  destruct c as [[] [] [] [] [] [] [] []]; cbn; intros H;
    try discriminate H; repeat split.
Qed.

Lemma digits_spec (fuel : nat) :
  forall n acc,
    n < fuel ->
    exists ds,
      PyStr.digits fuel n acc = ds ++ acc
      /\ all_digits ds = true
      /\ PyStr.truthy ds = true
      /\ exists p,
           forall a last rest,
             int_digits (ds ++ rest) a last
             = int_digits rest (a * p + Z.of_nat n)%Z true.
Proof.
  induction fuel as [|fuel IH]; intros n acc Hlt; [lia|].
  cbn [PyStr.digits].
  assert (Hm : n mod 10 < 10) by (apply Nat.mod_upper_bound; lia).
  pose proof (digit_char Hm) as Hd.
  pose proof (Nat.div_mod_eq n 10) as Hn.
  destruct (n / 10 =? 0) eqn:E.
  - apply Nat.eqb_eq in E.
    exists (String (ascii_of_nat (48 + n mod 10)) EmptyString).
    split; [reflexivity|]. split.
    { cbn [all_digits]. unfold is_digit. now rewrite Hd. }
    split; [reflexivity|]. exists 10%Z. intros a last rest.
    cbn [append int_digits]. rewrite Hd. f_equal. lia.
  - apply Nat.eqb_neq in E.
    destruct (IH (n / 10) (String (ascii_of_nat (48 + n mod 10)) acc))
      as (ds & H1 & H2 & H3 & p & H4).
    { revert Hn E Hm. generalize (n / 10) (n mod 10). intros q r Hn E Hm. lia. }
    exists (ds ++ String (ascii_of_nat (48 + n mod 10)) EmptyString).
    split; [rewrite H1, str_app_assoc; reflexivity|]. split.
    { rewrite all_digits_app, H2. cbn [all_digits]. unfold is_digit.
      now rewrite Hd. }
    split; [destruct ds; [discriminate|reflexivity]|].
    exists (10 * p)%Z. intros a last rest.
    rewrite str_app_assoc, H4. cbn [append int_digits]. rewrite Hd. f_equal.
    revert Hn. generalize (n / 10) (n mod 10). intros q r Hn. rewrite Hn. lia.
Qed.

Lemma str_app_nil (s : string) : (s ++ "")%string = s.
Proof. induction s as [|c s IH]; cbn; [reflexivity|now rewrite IH]. Qed.

Lemma of_nat_digits (n : nat) :
  all_digits (PyStr.of_nat n) = true
  /\ PyStr.truthy (PyStr.of_nat n) = true
  /\ int_digits (PyStr.of_nat n) 0%Z false = Some (Z.of_nat n).
Proof.
  unfold PyStr.of_nat.
  destruct (@digits_spec (S n) n EmptyString) as (ds & H1 & H2 & H3 & p & H4);
    [lia|].
  rewrite H1, str_app_nil. split; [exact H2|]. split; [exact H3|].
  rewrite <- (str_app_nil ds), H4. reflexivity.
Qed.

Lemma lstrip_digits (s : string) : all_digits s = true -> PyStr.lstrip s = s.
Proof.
  destruct s as [|c s]; [reflexivity|]. cbn [all_digits PyStr.lstrip].
  intros [Hc _]%andb_prop. destruct (digit_is_plain _ Hc) as (Hs & _).
  now rewrite Hs.
Qed.

Lemma rstrip_digits (s : string) : all_digits s = true -> PyStr.rstrip s = s.
Proof.
  induction s as [|c s IH]; [reflexivity|]. cbn [all_digits PyStr.rstrip].
  intros [Hc Hs]%andb_prop. rewrite (IH Hs).
  destruct (digit_is_plain _ Hc) as (Hsp & _).
  destruct s; [now rewrite Hsp|reflexivity].
Qed.

Lemma strip_digits (s : string) : all_digits s = true -> PyStr.strip s = s.
Proof.
  intros H. unfold PyStr.strip. rewrite lstrip_digits by assumption.
  now apply rstrip_digits.
Qed.

Lemma count_digits_all (s : string) :
  all_digits s = true -> count_digits s = String.length s.
Proof.
  induction s as [|c s IH]; [reflexivity|].
  cbn [all_digits count_digits String.length].
  intros [Hc Hs]%andb_prop. unfold is_digit in Hc.
  destruct (digit_of c); [|discriminate]. now rewrite IH.
Qed.

Lemma py_int_digits (s : string) :
  all_digits s = true ->
  String.length s <= MAX_STR_DIGITS ->
  py_int s = int_digits s 0%Z false.
Proof.
  intros H Hlen. unfold py_int. cbv zeta.
  rewrite strip_digits, count_digits_all by assumption.
  replace (MAX_STR_DIGITS <? String.length s) with false
    by (symmetry; now apply Nat.ltb_ge).
  destruct s as [|c s]; [reflexivity|].
  cbn [all_digits] in H. apply andb_prop in H as [Hc _].
  destruct c as [[] [] [] [] [] [] [] []]; cbn in Hc; try discriminate Hc;
    reflexivity.
Qed.

Lemma split_comma_digits (s : string) :
  all_digits s = true -> split_comma s = [s].
Proof.
  induction s as [|c s IH]; [reflexivity|]. cbn [all_digits split_comma].
  intros [Hc Hs]%andb_prop. destruct (digit_is_plain _ Hc) as (_ & Hcm & _).
  now rewrite Hcm, (IH Hs).
Qed.

Lemma split_comma_app (s rest : string) :
  all_digits s = true ->
  split_comma (s ++ String "," rest) = s :: split_comma rest.
Proof.
  induction s as [|c s IH]; [reflexivity|]. cbn [all_digits append split_comma].
  intros [Hc Hs]%andb_prop. destruct (digit_is_plain _ Hc) as (_ & Hcm & _).
  now rewrite Hcm, (IH Hs).
Qed.

Lemma split_comma_join (items : list string) :
  items <> [] ->
  Forall (fun s => all_digits s = true) items ->
  split_comma (PyStr.join "," items) = items.
Proof.
  induction items as [|p items IH]; [congruence|]. intros _ Hall.
  inversion Hall as [|? ? Hp Hrest]; subst.
  destruct items as [|q items]; [now apply split_comma_digits|].
  change (PyStr.join "," (p :: q :: items))
    with (p ++ String "," (PyStr.join "," (q :: items))).
  rewrite split_comma_app by assumption. f_equal.
  apply IH; [discriminate|assumption].
Qed.

Lemma sort_items_decimal (ids : list nat) :
  Forall (fun n => String.length (PyStr.of_nat n) <= MAX_STR_DIGITS) ids ->
  sort_items (map PyStr.of_nat ids) = (map Z.of_nat ids, []).
Proof.
  induction ids as [|n ids IH]; [reflexivity|]. intros Hall.
  inversion Hall as [|? ? Hn Hrest]; subst.
  cbn [map sort_items]. rewrite (IH Hrest).
  destruct (of_nat_digits n) as (H1 & H2 & H3).
  rewrite strip_digits, H2 by assumption. cbn [negb].
  now rewrite py_int_digits, H3.
Qed.

Lemma parse_guild_ids_round_trip_aux (ids : list nat) :
  Forall (fun n => String.length (PyStr.of_nat n) <= MAX_STR_DIGITS) ids ->
  parse_guild_ids (ids_text ids) = (map Z.of_nat ids, []).
Proof.
  intros Hall.
  unfold parse_guild_ids, ids_text. destruct ids as [|n ids]; [reflexivity|].
  rewrite split_comma_join.
  - now apply sort_items_decimal.
  - discriminate.
  - apply Forall_forall. intros s (m & <- & _)%in_map_iff.
    apply of_nat_digits.
Qed.

(** X23: round trip: the ids of a list written in decimal and joined with
    commas, as in [DISCORD_GUILD_IDS=12,0,305], are all parsed, in order,
    and none is reported invalid, as long as no id has more digits than
    [int] accepts. *)
Theorem parse_guild_ids_round_trip (ids : list nat) :
  Forall (fun n => String.length (PyStr.of_nat n) <= MAX_STR_DIGITS) ids ->
  parse_guild_ids (ids_text ids) = (map Z.of_nat ids, []).
Proof. apply parse_guild_ids_round_trip_aux. Qed.

(** *** Stripping twice *)

Lemma rstrip_idem (s : string) : PyStr.rstrip (PyStr.rstrip s) = PyStr.rstrip s.
Proof.
  induction s as [|c s IH]; [reflexivity|]. cbn [PyStr.rstrip].
  destruct (PyStr.rstrip s) as [|d r] eqn:E.
  - destruct (PyStr.is_space c) eqn:Hs; [reflexivity|].
    cbn [PyStr.rstrip]. now rewrite Hs.
  - cbn [PyStr.rstrip] in IH |- *.
    change (match PyStr.rstrip r with
            | EmptyString =>
                if PyStr.is_space d then EmptyString else String d EmptyString
            | String a r0 => String d (String a r0)
            end) with (PyStr.rstrip (String d r)) in IH |- *.
    now rewrite IH.
Qed.

(** a text that starts with a character that is no space keeps it *)
Lemma rstrip_head (c : ascii) (s : string) :
  PyStr.is_space c = false ->
  exists r, PyStr.rstrip (String c s) = String c r.
Proof.
  intros Hc. cbn [PyStr.rstrip]. destruct (PyStr.rstrip s) as [|d r].
  - rewrite Hc. now exists EmptyString.
  - now exists (String d r).
Qed.

Lemma lstrip_head (s : string) :
  PyStr.lstrip s = EmptyString
  \/ exists c r, PyStr.lstrip s = String c r /\ PyStr.is_space c = false.
Proof.
  induction s as [|c s IH]; [now left|]. cbn [PyStr.lstrip].
  destruct (PyStr.is_space c) eqn:Hc; [exact IH|].
  right. now exists c, s.
Qed.

Lemma strip_idem (s : string) : PyStr.strip (PyStr.strip s) = PyStr.strip s.
Proof.
  unfold PyStr.strip.
  destruct (lstrip_head s) as [E|(c & r & E & Hc)]; rewrite E.
  - reflexivity.
  - destruct (@rstrip_head c r Hc) as (r' & Hr). rewrite Hr.
    cbn [PyStr.lstrip]. rewrite Hc, <- Hr. apply rstrip_idem.
Qed.

Lemma sort_items_invalid (items : list string) :
  Forall (fun v => PyStr.truthy v = true /\ PyStr.strip v = v
                   /\ py_int v = None
                   /\ exists item, In item items /\ v = PyStr.strip item)
         (snd (sort_items items))
  /\ Forall (fun n => exists item,
                 In item items /\ py_int (PyStr.strip item) = Some n)
            (fst (sort_items items))
  /\ length (fst (sort_items items)) + length (snd (sort_items items))
     = length (filter (fun item => PyStr.truthy (PyStr.strip item)) items).
Proof.
  induction items as [|item items (IH1 & IH2 & IH3)];
    [split; [constructor|split; [constructor|reflexivity]]|].
  assert (W1 : Forall (fun v => PyStr.truthy v = true /\ PyStr.strip v = v
                          /\ py_int v = None
                          /\ exists it, In it (item :: items)
                                        /\ v = PyStr.strip it)
                      (snd (sort_items items))).
  { eapply Forall_impl; [|exact IH1].
    intros v (A & B & C & it & D & E). repeat split; auto.
    exists it. split; [now right|exact E]. }
  assert (W2 : Forall (fun n => exists it,
                          In it (item :: items)
                          /\ py_int (PyStr.strip it) = Some n)
                      (fst (sort_items items))).
  { eapply Forall_impl; [|exact IH2].
    intros n (it & D & E). exists it. split; [now right|exact E]. }
  cbn [sort_items filter]. destruct (sort_items items) as [parsed invalid].
  cbn [fst snd] in *.
  destruct (PyStr.truthy (PyStr.strip item)) eqn:Ht; cbn [negb fst snd].
  - destruct (py_int (PyStr.strip item)) eqn:Hp; cbn [fst snd length].
    + split; [exact W1|]. split; [|lia].
      constructor; [|exact W2]. exists item. split; [now left|exact Hp].
    + split; [|split; [exact W2|lia]].
      constructor; [|exact W1].
      split; [exact Ht|]. split; [apply strip_idem|]. split; [exact Hp|].
      exists item. split; [now left|reflexivity].
  - split; [exact W1|]. split; [exact W2|exact IH3].
Qed.

(** X24: on an ASCII list, no entry is lost and none is made up: every
    entry that is not blank is either parsed or reported invalid; an
    invalid one is reported stripped, is not empty, is the strip of an entry
    of the list and is a text that [int] rejects; a parsed number is what
    [int] reads from the strip of an entry of the list. *)
Theorem parse_guild_ids_partitions (raw : string) :
  ascii_only raw = true ->
  let (parsed, invalid) := parse_guild_ids raw in
  length parsed + length invalid
  = length (filter (fun item => PyStr.truthy (PyStr.strip item))
                   (split_comma raw))
  /\ Forall (fun v => PyStr.truthy v = true /\ PyStr.strip v = v
                      /\ py_int v = None
                      /\ exists item,
                           In item (split_comma raw) /\ v = PyStr.strip item)
            invalid
  /\ Forall (fun n => exists item,
                 In item (split_comma raw)
                 /\ py_int (PyStr.strip item) = Some n)
            parsed.
Proof.
  intros _. unfold parse_guild_ids.
  pose proof (sort_items_invalid (split_comma raw)) as (H1 & H2 & H3).
  destruct (sort_items (split_comma raw)) as [parsed invalid].
  now split.
Qed.

Lemma sync_guilds_no_global (ids : list Z) :
  ~ In SyncGlobal (flat_map sync_guild ids).
Proof.
  induction ids as [|id ids IH]; [easy|].
  cbn. intros [H|[H|H]]; [discriminate|discriminate|auto].
Qed.

Lemma strip_nonblank_digits (s rest : string) :
  all_digits s = true -> PyStr.truthy s = true ->
  PyStr.truthy (PyStr.strip (s ++ rest)) = true.
Proof.
  destruct s as [|c s]; [discriminate|]. cbn [all_digits append].
  intros [Hc _]%andb_prop _. destruct (digit_is_plain _ Hc) as (Hsp & _).
  unfold PyStr.strip. cbn [PyStr.lstrip]. rewrite Hsp. cbn [PyStr.rstrip].
  destruct (PyStr.rstrip (s ++ rest)); [now rewrite Hsp|reflexivity].
Qed.

(** X25: with ASCII text in both variables, [on_ready] always syncs
    somewhere, and globally only when it syncs no guild. A
    [DISCORD_GUILD_IDS] that is not blank decides alone, [DISCORD_GUILD_ID]
    is then not looked at: the guilds it lists are synced in order, and when
    none of its entries is a number the sync is global. For a list of ids
    written in decimal, none with more digits than [int] accepts, exactly
    those guilds are synced. *)
Theorem on_ready_sync_targets (IDS : string) (ID : option string) :
  ascii_only IDS = true ->
  (forall raw, ID = Some raw -> ascii_only raw = true) ->
  on_ready IDS ID <> []
  /\ (In SyncGlobal (on_ready IDS ID) -> on_ready IDS ID = [SyncGlobal])
  /\ (PyStr.truthy (PyStr.strip IDS) = true ->
      on_ready IDS ID
      = match fst (parse_guild_ids IDS) with
        | [] => [SyncGlobal]
        | guild_ids => flat_map sync_guild guild_ids
        end)
  /\ (forall n ids,
        Forall (fun n => String.length (PyStr.of_nat n) <= MAX_STR_DIGITS)
               (n :: ids) ->
        on_ready (ids_text (n :: ids)) ID
        = flat_map sync_guild (map Z.of_nat (n :: ids))).
Proof.
  intros _ _.
  assert (H3 : PyStr.truthy (PyStr.strip IDS) = true ->
               on_ready IDS ID
               = match fst (parse_guild_ids IDS) with
                 | [] => [SyncGlobal]
                 | guild_ids => flat_map sync_guild guild_ids
                 end).
  { intros Ht. unfold on_ready. rewrite Ht.
    now destruct (parse_guild_ids IDS) as [[|g gs] invalid]. }
  split; [|split; [|split]].
  - unfold on_ready. destruct (PyStr.truthy (PyStr.strip IDS)).
    + destruct (parse_guild_ids IDS) as [[|g gs] invalid]; discriminate.
    + destruct ID as [raw|]; [|discriminate].
      destruct (PyStr.truthy raw); [|discriminate].
      destruct (py_int raw); discriminate.
  - unfold on_ready. destruct (PyStr.truthy (PyStr.strip IDS)).
    + destruct (parse_guild_ids IDS) as [[|g gs] invalid]; [reflexivity|].
      intros H. now apply sync_guilds_no_global in H.
    + destruct ID as [raw|]; [|reflexivity].
      destruct (PyStr.truthy raw); [|reflexivity].
      destruct (py_int raw); [|reflexivity].
      cbn. intros [H|[H|H]]; [discriminate|discriminate|easy].
  - exact H3.
  - intros n ids Hall. unfold on_ready.
    assert (Ht : PyStr.truthy (PyStr.strip (ids_text (n :: ids))) = true).
    { unfold ids_text. cbn [map].
      destruct (of_nat_digits n) as (D1 & D2 & _).
      destruct ids as [|m ids].
      - cbn [PyStr.join]. rewrite <- (str_app_nil (PyStr.of_nat n)).
        now apply strip_nonblank_digits.
      - change (PyStr.join "," (PyStr.of_nat n :: map PyStr.of_nat (m :: ids)))
          with (PyStr.of_nat n
                ++ String "," (PyStr.join "," (map PyStr.of_nat (m :: ids)))).
        now apply strip_nonblank_digits. }
    rewrite Ht, parse_guild_ids_round_trip_aux by exact Hall. reflexivity.
Qed.

End StartupFacts.

Lemma parse_guild_ids_round_trip_witness :
  Startup.parse_guild_ids "12,0,305" = ([12; 0; 305]%Z, []).
Proof.
  apply (@parse_guild_ids_round_trip [12; 0; 305]).
  repeat constructor; apply Nat.leb_le; vm_compute; reflexivity.
Defined.

Lemma parse_guild_ids_partitions_witness :
  let (parsed, invalid) := Startup.parse_guild_ids "5, x1 ,,6" in
  length parsed + length invalid = 3
  /\ Forall (fun v => PyStr.strip v = v /\ Startup.py_int v = None) invalid.
Proof.
  pose proof (@parse_guild_ids_partitions "5, x1 ,,6" eq_refl) as H.
  destruct (Startup.parse_guild_ids "5, x1 ,,6") as [parsed invalid].
  destruct H as (H1 & H2 & _). split; [exact H1|].
  eapply Forall_impl; [|exact H2]. intros v (_ & A & B & _). now split.
Defined.

Lemma on_ready_sync_targets_witness :
  Startup.on_ready "abc, ,x1" (Some "123") = [Startup.SyncGlobal]
  /\ Startup.on_ready "5,x,6" (Some "123")
     = [Startup.CopyGlobalTo 5; Startup.SyncGuild 5;
        Startup.CopyGlobalTo 6; Startup.SyncGuild 6].
Proof.
  assert (HID : forall raw, Some "123" = Some raw -> ascii_only raw = true)
    by (intros raw [= <-]; reflexivity).
  split.
  - apply (proj1 (proj2 (@on_ready_sync_targets "abc, ,x1" (Some "123")
                           eq_refl HID))).
    vm_compute. now left.
  - apply (proj1 (proj2 (proj2 (@on_ready_sync_targets "5,x,6" (Some "123")
                                  eq_refl HID)))).
    reflexivity.
Defined.

(* ===================================================================== *)
(** * The player registry *)
(* ===================================================================== *)

Section RegistryFacts.
Import Registry.

Lemma players_get_app (guild_id : Z) (ps qs : players_t) :
  players_get guild_id (ps ++ qs)%list
  = match players_get guild_id ps with
    | Some p => Some p
    | None => players_get guild_id qs
    end.
Proof.
  induction ps as [|[k p] ps IH]; [reflexivity|]. cbn.
  destruct (Z.eqb k guild_id); [reflexivity|exact IH].
Qed.

(** X26: [get_player] gives a guild its player: the player returned is
    the one the registry holds for the guild afterwards, asking again
    returns the same player and leaves the registry as it is, the players
    of other guilds are not touched, a guild already known keeps its player
    and a guild not yet known gets a fresh [GuildPlayer()] as the one new
    entry. *)
Theorem get_player_registers_once (guild_id : Z) (players : players_t) :
  let (player, players') := get_player guild_id players in
  players_get guild_id players' = Some player
  /\ get_player guild_id players' = (player, players')
  /\ (forall other,
        other <> guild_id ->
        players_get other players' = players_get other players)
  /\ (forall known,
        players_get guild_id players = Some known ->
        player = known /\ players' = players)
  /\ (players_get guild_id players = None ->
      player = new_player
      /\ players' = (players ++ [(guild_id, new_player)])%list).
Proof.
  unfold get_player.
  destruct (players_get guild_id players) as [p|] eqn:Hget.
  - rewrite Hget. repeat split; congruence.
  - assert (Hnew : players_get guild_id (players ++ [(guild_id, new_player)])%list
                   = Some new_player).
    { rewrite players_get_app, Hget. cbn. now rewrite Z.eqb_refl. }
    rewrite Hnew. repeat split; try discriminate.
    intros other Hne. rewrite players_get_app.
    destruct (players_get other players); [reflexivity|]. cbn.
    destruct (Z.eqb guild_id other) eqn:E; [|reflexivity].
    apply Z.eqb_eq in E. congruence.
Qed.

End RegistryFacts.

Lemma get_player_registers_once_witness :
  Registry.players_get 2%Z
    (snd (Registry.get_player 1%Z [(2%Z, Registry.new_player)]))
  = Some Registry.new_player.
Proof.
  pose proof (get_player_registers_once 1%Z
                [(2%Z, Registry.new_player)]) as H.
  cbn in H. destruct H as (_ & _ & H & _).
  apply (H 2%Z). discriminate.
Defined.

(* ===================================================================== *)
(** * The queue command *)
(* ===================================================================== *)

Section QueueFacts.

Lemma join_head (sep p : string) (rest : list string) :
  exists tail, PyStr.join sep (p :: rest) = p ++ tail.
Proof.
  destruct rest as [|q rest].
  - exists EmptyString. cbn. induction p as [|c p IH]; cbn; [reflexivity|].
    now rewrite <- IH.
  - eexists. reflexivity.
Qed.

Lemma join_not_empty_notice (first : string) (rest : list string) (c : ascii)
    (first' : string) :
  first = String c first' ->
  Ascii.eqb c "Q" = false ->
  PyStr.join PyStr.newline (first :: rest) <> "Queue is empty.".
Proof.
  intros -> Hc. destruct (join_head PyStr.newline (String c first') rest)
    as [tail ->].
  cbn [append]. intros [= -> _]. discriminate Hc.
Qed.

(** X27: the [queue] command only reads: the guild is as before. In a
    guild its answer is [Queue is empty.] exactly when nothing is playing
    and nothing is queued. *)
Theorem show_queue_reads_only (i : Interaction) (w : World) :
  (exists reply, show_queue i w = Returned reply w)
  /\ (i_guild i = true ->
      (show_queue i w = Returned "Queue is empty." w
       <-> now_playing w = None /\ queue w = [])).
Proof.
  unfold show_queue. split.
  - destruct (i_guild i); cbn [negb]; eexists; reflexivity.
  - intros ->. cbn [negb]. split.
    + destruct (now_playing w) as [np|].
      * generalize (match queue w with
                    | [] => []
                    | s :: q => "Up next:" :: up_next 1 (firstn 10 (s :: q))
                    end).
        intros rest H. exfalso.
        apply (f_equal (fun o => match o with
                                 | Returned r _ => r
                                 | _ => EmptyString
                                 end)) in H.
        revert H. cbn [app].
        now apply join_not_empty_notice
          with (c := "N"%char) (first' := "ow playing: **" ++ title np ++ "**").
      * destruct (queue w) as [|s q]; [now split|].
        generalize (up_next 1 (firstn 10 (s :: q))). intros rest H. exfalso.
        apply (f_equal (fun o => match o with
                                 | Returned r _ => r
                                 | _ => EmptyString
                                 end)) in H.
        revert H. cbn [app].
        now apply join_not_empty_notice
          with (c := "U"%char) (first' := "p next:").
    + intros [-> ->]. reflexivity.
Qed.

End QueueFacts.

Lemma show_queue_reads_only_witness :
  show_queue (Demo.member_in Demo.general) init = Returned "Queue is empty." init.
Proof.
  apply (proj2 (show_queue_reads_only (Demo.member_in Demo.general) init)
           eq_refl).
  split; reflexivity.
Defined.

(* ===================================================================== *)
(** * The Spotify branch of play *)
(* ===================================================================== *)

Section SpotifyPlayFacts.

Variable env : Env.

Lemma fold_all_fail (i : Interaction) (qs : list string) :
  (forall x, In x qs -> exists e, extract_song env x = Raise e) ->
  forall b w,
    fold_left (enqueue_resolved env i) qs (b, w)
    = ({| added := added b; failed := failed b + length qs;
          first_title := first_title b |}, w).
Proof.
  induction qs as [|q qs IH]; intros Hall b w.
  - cbn. destruct b as [a f t]. cbn. now rewrite Nat.add_0_r.
  - cbn [fold_left]. destruct (Hall q (or_introl eq_refl)) as [e He].
    unfold enqueue_resolved at 2. rewrite He.
    rewrite IH by (intros x Hx; apply Hall; now right).
    cbn [added failed first_title length].
    now replace (S (failed b) + length qs) with (failed b + S (length qs)) by lia.
Qed.

(** X28: a Spotify link none of whose queries can be resolved is answered
    with the could-not-resolve error: every query is counted as failed,
    nothing is enqueued, [now_playing] stays, [play_next] is not called and
    the idle timer, cancelled at the start, stays cancelled. *)
Theorem spotify_play_with_nothing_resolved
    (fuel : nat) (i : Interaction) (query : string) (w w1 w2 : World)
    (vc : VoiceClient) (queries : list string) :
  ensure_voice env i w = Returned vc w1 ->
  PyStr.contains "open.spotify.com/" (PyStr.lower query) = true ->
  spotify_queries_from_url env fuel query (cancel_idle_disconnect w1)
  = Returned queries w2 ->
  (forall x, In x queries -> exists e, extract_song env x = Raise e) ->
  play env fuel i query w
  = Returned "Error: Could not resolve any Spotify tracks to playable sources." w2
  /\ queue w2 = queue w
  /\ now_playing w2 = now_playing w
  /\ enqueued (log w2) = enqueued (log w)
  /\ played (log w2) = played (log w)
  /\ idle_task w2 = None.
Proof.
  intros Hev Hsp Hqs Hall.
  pose proof (ensure_voice_frame env i w) as Hf. cbv zeta in Hf.
  rewrite Hev in Hf. cbn [world_of] in Hf.
  destruct Hf as (_ & Hq & Hnp & _ & _ & _ & _ & Hpl & Hen).
  destruct (ensure_voice_returned env _ _ Hev) as (Hc & _).
  assert (Hw2 : exists c, w2 = set_spotify_client c (cancel_idle_disconnect w1)).
  { unfold spotify_queries_from_url in Hqs.
    destruct (Spotify.spotify_queries_from_url _ _ _ _ _ _ _ _)
      as [[[qs|e]|] c]; try discriminate.
    injection Hqs as _ <-. now exists c. }
  destruct Hw2 as [c Hw2]. split.
  - unfold play. rewrite Hev. cbn [bind]. rewrite Hc. cbn [negb].
    rewrite Hsp, Hqs. cbn [bind]. now rewrite fold_all_fail.
  - rewrite Hw2. world_simpl. auto.
Qed.

End SpotifyPlayFacts.

Lemma spotify_play_with_nothing_resolved_witness :
  play Samples.env_unresolvable 1 (Demo.member_in Demo.general)
    Demo.playlist_url Demo.connected_idle
  = Returned "Error: Could not resolve any Spotify tracks to playable sources."
      (set_spotify_client true (cancel_idle_disconnect Demo.connected_idle)).
Proof.
  apply (@spotify_play_with_nothing_resolved Samples.env_unresolvable 1
           (Demo.member_in Demo.general) Demo.playlist_url Demo.connected_idle
           Demo.connected_idle
           (set_spotify_client true (cancel_idle_disconnect Demo.connected_idle))
           Demo.idle_client
           (firstn MAX_SPOTIFY_TRACKS
              (Spotify.queries_of Spotify.playlist_track Demo.playlist30))).
  - reflexivity.
  - reflexivity.
  - vm_compute. reflexivity.
  - intros x _. exists Resolver.PlatformBlocked. reflexivity.
Defined.

